(** * Partition enumeration of pyphi: a shallow embedding and its properties

    The development follows [pyphi/partition.py] and
    [pyphi/combinatorics.py].  Python integers are [Z], tuples and lists
    are [list], generators are the list of the values they yield together
    with the way they stop. *)

From Stdlib Require Import ZArith List Lia Bool Permutation Arith Sorted.
Import ListNotations.
Open Scope Z_scope.

(** ** Python built-ins *)

Module Py.

(** [range(n)]: the integers [0 .. n-1] in order, empty when [n <= 0]. *)
Definition range (n : Z) : list Z := map Z.of_nat (seq 0 (Z.to_nat n)).

(** [range(lo, hi)]. *)
Definition range2 (lo hi : Z) : list Z := map (fun i => lo + i) (range (hi - lo)).

(** [len(s)] as a Python integer. *)
Definition len {A} (s : list A) : Z := Z.of_nat (length s).

(** [s[i]]: negative indices count from the end, anything outside the
    sequence raises [IndexError], which is [None] here. *)
Definition getitem {A} (s : list A) (i : Z) : option A :=
  if i <? 0
  then if 0 <=? len s + i then nth_error s (Z.to_nat (len s + i)) else None
  else nth_error s (Z.to_nat i).

(** Replace position [i] (a natural number) of [s]. *)
Fixpoint update {A} (s : list A) (i : nat) (x : A) : list A :=
  match s, i with
  | [], _ => []
  | _ :: s', O => x :: s'
  | y :: s', S i' => y :: update s' i' x
  end.

(** [s[i] = x]: same index rule as [getitem]. *)
Definition setitem {A} (s : list A) (i : Z) (x : A) : option (list A) :=
  if i <? 0
  then if 0 <=? len s + i then Some (update s (Z.to_nat (len s + i)) x) else None
  else if i <? len s then Some (update s (Z.to_nat i) x) else None.

(** [tuple(f(i) for i in idx)] where [f] may raise. *)
Fixpoint mapM {A B} (f : A -> option B) (l : list A) : option (list B) :=
  match l with
  | [] => Some []
  | x :: l' =>
      match f x with
      | None => None
      | Some y =>
          match mapM f l' with
          | None => None
          | Some ys => Some (y :: ys)
          end
      end
  end.

(** Truth value of a tuple or list: non-empty. *)
Definition truthy {A} (s : list A) : bool :=
  match s with [] => false | _ :: _ => true end.

(** [enumerate(s)]. *)
Definition enumerate {A} (s : list A) : list (Z * A) :=
  combine (range (len s)) s.

(** [itertools.product(base, repeat=n)]: the leftmost position varies
    slowest. *)
Fixpoint product_repeat {A} (base : list A) (n : nat) : list (list A) :=
  match n with
  | O => [[]]
  | S n' => flat_map (fun x => map (cons x) (product_repeat base n')) base
  end.

End Py.

(** ** IndexEnumerator *)

(** The inner loop of [bipartition_indices]: [part[bit].append(n)] for
    [n] in [range(N)]; the state is [(part[0], part[1])]. *)
Definition bit_of (i n : Z) : Z := Z.land (Z.shiftr i n) 1.

Definition bit_step (i : Z) (part : list Z * list Z) (n : Z)
  : list Z * list Z :=
  if bit_of i n =? 0 then (fst part ++ [n], snd part)
  else (fst part, snd part ++ [n]).

Definition bit_parts (N i : Z) : list Z * list Z :=
  fold_left (bit_step i) (Py.range N) ([], []).

Definition bipartition_indices (N : Z) : list (list Z * list Z) :=
  if N <=? 0 then []
  else map (fun i => let part := bit_parts N i in (snd part, fst part))
           (Py.range (2 ^ (N - 1))).

(** [idx[::-1]] on a pair. *)
Definition swap {A B} (p : A * B) : B * A := (snd p, fst p).

Definition directed_bipartition_indices (N : Z) : list (list Z * list Z) :=
  let idxs := bipartition_indices N in
  idxs ++ map swap (rev idxs).

(** The inner loop of [directed_tripartition_indices]:
    [part[location].append(i)] over [enumerate(key)], the locations being
    drawn from [base = [0, 1, 2]]. *)
Definition tri_step (part : (list Z * list Z * list Z)) (il : Z * Z) : (list Z * list Z * list Z) :=
  let '(p0, p1, p2) := part in
  let '(i, location) := il in
  if location =? 0 then (p0 ++ [i], p1, p2)
  else if location =? 1 then (p0, p1 ++ [i], p2)
  else (p0, p1, p2 ++ [i]).

Definition tri_parts (key : list Z) : (list Z * list Z * list Z) :=
  fold_left tri_step (Py.enumerate key) ([], [], []).

Definition directed_tripartition_indices (N : Z) : list (list Z * list Z * list Z) :=
  if N <=? 0 then []
  else map tri_parts (Py.product_repeat [0; 1; 2] (Z.to_nat N)).


(** ** Bipartitions and tripartitions of a sequence *)

(** [tuple(seq[i] for i in idx)]. *)
Definition pick {A} (seq : list A) (idx : list Z) : option (list A) :=
  Py.mapM (Py.getitem seq) idx.

Definition pick2 {A} (seq : list A) (p : list Z * list Z)
  : option (list A * list A) :=
  match pick seq (fst p) with
  | None => None
  | Some part0 =>
      match pick seq (snd p) with
      | None => None
      | Some part1 => Some (part0, part1)
      end
  end.

Definition pick3 {A} (seq : list A) (t : (list Z * list Z * list Z))
  : option (list A * list A * list A) :=
  let '(a, b, c) := t in
  match pick seq a with
  | None => None
  | Some pa =>
      match pick seq b with
      | None => None
      | Some pb =>
          match pick seq c with
          | None => None
          | Some pc => Some (pa, pb, pc)
          end
      end
  end.

(** [bipartition(seq, nontrivial)]; [bipartitions[1:]] is [tl]. *)
Definition bipartition {A} (seq : list A) (nontrivial : bool)
  : option (list (list A * list A)) :=
  match Py.mapM (pick2 seq) (bipartition_indices (Py.len seq)) with
  | None => None
  | Some bipartitions =>
      Some (if nontrivial then tl bipartitions else bipartitions)
  end.

(** [directed_bipartition(seq, nontrivial)]; [bipartitions[1:-1]] drops the
    first and the last entry. *)
Definition directed_bipartition {A} (seq : list A) (nontrivial : bool)
  : option (list (list A * list A)) :=
  match Py.mapM (pick2 seq) (directed_bipartition_indices (Py.len seq)) with
  | None => None
  | Some bipartitions =>
      Some (if nontrivial then removelast (tl bipartitions) else bipartitions)
  end.

(** [directed_tripartition(seq)]. *)
Definition directed_tripartition {A} (seq : list A)
  : option (list (list A * list A * list A)) :=
  Py.mapM (pick3 seq) (directed_tripartition_indices (Py.len seq)).

(** ** Parts and partitions of a mechanism over a purview *)

(** Modelled from the spec: the classes [Part], [Bipartition],
    [Tripartition] and [KPartition] of [models/cuts.py], which is not
    among the sources.  A part is an ordered pair of a mechanism-subset
    and a purview-subset, compared on both; a partition holds its parts
    in order, three of them for a tripartition, and two partitions are
    equal when their parts are. *)
Record Part := mkPart { mechanism : list Z; purview : list Z }.

Definition Bipartition := (Part * Part)%type.
Definition Tripartition := (Part * Part * Part)%type.
Definition KPartition := list Part.

Definition Part_eq_dec (x y : Part) : {x = y} + {x <> y}.
Proof. decide equality; apply (list_eq_dec Z.eq_dec). Defined.

Definition Tripartition_eq_dec (x y : Tripartition) : {x = y} + {x <> y}.
Proof.
  destruct x as [[x0 x1] x2], y as [[y0 y1] y2].
  destruct (Part_eq_dec x0 y0) as [->|N0]; [|right; congruence].
  destruct (Part_eq_dec x1 y1) as [->|N1]; [|right; congruence].
  destruct (Part_eq_dec x2 y2) as [->|N2]; [|right; congruence].
  left; reflexivity.
Defined.

(** The condition of [mip_bipartitions]:
    [(n[0] or d[0]) and (n[1] or d[1])]. *)
Definition bi_cond (n d : list Z * list Z) : bool :=
  (Py.truthy (fst n) || Py.truthy (fst d))
  && (Py.truthy (snd n) || Py.truthy (snd d)).

Definition mk_bipartition (n d : list Z * list Z) : Bipartition :=
  (mkPart (fst n) (fst d), mkPart (snd n) (snd d)).

(** The "BI" scheme. *)
Definition mip_bipartitions (mechanism purview : list Z)
  : option (list Bipartition) :=
  match bipartition mechanism false with
  | None => None
  | Some numerators =>
      match directed_bipartition purview false with
      | None => None
      | Some denominators =>
          Some (flat_map
                  (fun nd => if bi_cond (fst nd) (snd nd)
                             then [mk_bipartition (fst nd) (snd nd)] else [])
                  (list_prod numerators denominators))
      end
  end.

(** The "TRI" scheme.  [Tripartition.normalize] lives in [models/cuts.py],
    which is not part of the sources at hand: it is a parameter here. *)
Section Wedge.

Variable normalize : Tripartition -> Tripartition.

(** [valid(factoring)]. *)
Definition valid (factoring : (list Z * list Z) * (list Z * list Z * list Z))
  : bool :=
  let '(numerator, denominator) := factoring in
  let '(d0, d1, d2) := denominator in
  (Py.truthy (fst numerator) || Py.truthy d0)
  && (Py.truthy (snd numerator) || Py.truthy d1)
  && ((Py.truthy (fst numerator) && Py.truthy (snd numerator))
      || negb (Py.truthy d0) || negb (Py.truthy d1)).

(** [nonempty(part)]. *)
Definition nonempty (part : Part) : bool :=
  Py.truthy (mechanism part) || Py.truthy (purview part).

(** One test of the loop of [compressible]. *)
Definition mergeable (x y : Part) : bool :=
  nonempty x && nonempty y
  && (negb (Py.truthy (mechanism x ++ mechanism y))
      || negb (Py.truthy (purview x ++ purview y))).

(** [compressible(tripart)]. *)
Definition compressible (tripart : Tripartition) : bool :=
  let '(t0, t1, t2) := tripart in
  existsb (fun xy => mergeable (fst xy) (snd xy))
          [(t0, t1); (t0, t2); (t1, t2)].

Definition mk_tripartition
  (nd : (list Z * list Z) * (list Z * list Z * list Z)) : Tripartition :=
  let '(n, d) := nd in
  let '(d0, d1, d2) := d in
  normalize (mkPart (fst n) d0, mkPart (snd n) d1, mkPart [] d2).

(** The body of the loop; the state is the set [yielded] and the values
    yielded so far. *)
Definition wedge_step (st : list Tripartition * list Tripartition)
  (nd : (list Z * list Z) * (list Z * list Z * list Z))
  : list Tripartition * list Tripartition :=
  let '(yielded, out) := st in
  let tripart := mk_tripartition nd in
  if negb (compressible tripart)
     && negb (if in_dec Tripartition_eq_dec tripart yielded then true else false)
  then (tripart :: yielded, out ++ [tripart])
  else st.

Definition wedge_partitions (mechanism purview : list Z)
  : option (list Tripartition) :=
  match bipartition mechanism false with
  | None => None
  | Some numerators =>
      match directed_tripartition purview with
      | None => None
      | Some denominators =>
          Some (snd (fold_left wedge_step
                       (filter valid (list_prod numerators denominators))
                       ([], [])))
      end
  end.

End Wedge.

(** ** SetPartitionGenerator *)

(** The inner loop of [_partitions]:
    [smaller[:n] + [[first] + subset] + smaller[n + 1 :]]. *)
Definition insert_at {A} (first : A) (smaller : list (list A))
  (ns : Z * list A) : list (list A) :=
  let '(n, subset) := ns in
  firstn (Z.to_nat n) smaller ++ [first :: subset]
    ++ skipn (Z.to_nat (n + 1)) smaller.

Fixpoint _partitions {A} (collection : list A) : list (list (list A)) :=
  match collection with
  | [] => []
  | first :: rest =>
      match rest with
      | [] => [[collection]]
      | _ :: _ =>
          flat_map
            (fun smaller =>
               map (insert_at first smaller) (Py.enumerate smaller)
                 ++ [[first] :: smaller])
            (_partitions rest)
      end
  end.

(** [itertools.islice(it, 1, None)] is [skipn 1]. *)
Definition partitions {A} (collection : list A) (nontrivial : bool)
  : list (list (list A)) :=
  if nontrivial then skipn 1 (_partitions collection)
  else _partitions collection.

(** ** KPartitionGenerator *)

(** How a generator can fail: an [IndexError], or the recursion and loop
    budget of the model running out. *)
Inductive exn := IndexError | OutOfFuel.

(** A generator body working on the array [a]: the values it yields, and
    the array it leaves or the exception that ends it. *)
Definition gen (Y : Type) : Type := list Z -> list Y * (exn + list Z).

Definition skip {Y} : gen Y := fun a => ([], inr a).

Definition raise {Y} (e : exn) : gen Y := fun _ => ([], inl e).

Definition andthen {Y} (m1 m2 : gen Y) : gen Y :=
  fun a =>
    match m1 a with
    | (ys1, inl e) => (ys1, inl e)
    | (ys1, inr a1) => let (ys2, r) := m2 a1 in (ys1 ++ ys2, r)
    end.

Notation "m1 ;; m2" := (andthen m1 m2) (at level 61, right associativity).

(** Read [a[i]] and go on with its value. *)
Definition read {Y} (i : Z) (k : Z -> gen Y) : gen Y :=
  fun a =>
    match Py.getitem a i with
    | Some v => k v a
    | None => ([], inl IndexError)
    end.

(** [a[i] = v]. *)
Definition assign {Y} (i v : Z) : gen Y :=
  fun a =>
    match Py.setitem a i v with
    | Some a' => ([], inr a')
    | None => ([], inl IndexError)
    end.

(** [while cond(a[i]): body]. *)
Fixpoint while {Y} (fuel : nat) (cond : Z -> bool) (i : Z) (body : gen Y)
  : gen Y :=
  read i (fun v =>
    if cond v then
      match fuel with
      | O => raise OutOfFuel
      | S fuel' => body ;; while fuel' cond i body
      end
    else skip).

Section KPartitions.

Context {A : Type}.
Variables (n : Z) (k : Z) (collection : list A).

(** [ps[a[j + 1]].append(collection[j])]. *)
Definition visit_step (a : list Z) (ps : option (list (list A))) (j : Z)
  : option (list (list A)) :=
  match ps with
  | None => None
  | Some ps =>
      match Py.getitem a (j + 1) with
      | None => None
      | Some v =>
          match Py.getitem ps v with
          | None => None
          | Some block =>
              match Py.getitem collection j with
              | None => None
              | Some x => Py.setitem ps v (block ++ [x])
              end
          end
      end
  end.

Definition _visit (a : list Z) : option (list (list A)) :=
  fold_left (visit_step a) (Py.range n) (Some (map (fun _ => []) (Py.range k))).

(** [yield _visit(n, a, k, collection)]. *)
Definition yield_visit : gen (list (list A)) :=
  fun a =>
    match _visit a with
    | Some ps => ([ps], inr a)
    | None => ([], inl IndexError)
    end.

(** The forward and the backward sweep.  [fuel] bounds the depth of the
    recursion and the number of turns of each loop. *)
Fixpoint _f (fuel : nat) (mu nu sigma : Z) {struct fuel}
  : gen (list (list A)) :=
  match fuel with
  | O => raise OutOfFuel
  | S fuel' =>
      (if mu =? 2 then yield_visit
       else _f fuel' (mu - 1) (nu - 1) ((mu + sigma) mod 2)) ;;
      (if nu =? mu + 1 then
         assign mu (mu - 1) ;;
         yield_visit ;;
         while fuel' (fun v => 0 <? v) nu
           (read nu (fun v => assign nu (v - 1)) ;; yield_visit)
       else if mu + 1 <? nu then
         (if (mu + sigma) mod 2 =? 1 then assign (nu - 1) (mu - 1)
          else assign mu (mu - 1)) ;;
         read nu (fun v => if (v + sigma) mod 2 =? 1
                           then _b fuel' mu (nu - 1) 0
                           else _f fuel' mu (nu - 1) 0) ;;
         while fuel' (fun v => 0 <? v) nu
           (read nu (fun v => assign nu (v - 1)) ;;
            read nu (fun v => if (v + sigma) mod 2 =? 1
                              then _b fuel' mu (nu - 1) 0
                              else _f fuel' mu (nu - 1) 0))
       else skip)
  end

with _b (fuel : nat) (mu nu sigma : Z) {struct fuel}
  : gen (list (list A)) :=
  match fuel with
  | O => raise OutOfFuel
  | S fuel' =>
      (if nu =? mu + 1 then
         while fuel' (fun v => v <? mu - 1) nu
           (yield_visit ;; read nu (fun v => assign nu (v + 1))) ;;
         yield_visit ;;
         assign mu 0
       else if mu + 1 <? nu then
         read nu (fun v => if (v + sigma) mod 2 =? 1
                           then _f fuel' mu (nu - 1) 0
                           else _b fuel' mu (nu - 1) 0) ;;
         while fuel' (fun v => v <? mu - 1) nu
           (read nu (fun v => assign nu (v + 1)) ;;
            read nu (fun v => if (v + sigma) mod 2 =? 1
                              then _f fuel' mu (nu - 1) 0
                              else _b fuel' mu (nu - 1) 0)) ;;
         (if (mu + sigma) mod 2 =? 1 then assign (nu - 1) 0
          else assign mu 0)
       else skip) ;;
      (if mu =? 2 then yield_visit
       else _b fuel' (mu - 1) (nu - 1) ((mu + sigma) mod 2))
  end.

End KPartitions.

(** [a = [0] * (n + 1)] followed by [a[n - k + j] = j - 1] for [j] in
    [range(1, k + 1)]. *)
Definition init_a (n k : Z) : option (list Z) :=
  fold_left
    (fun a j => match a with
                | None => None
                | Some a => Py.setitem a (n - k + j) (j - 1)
                end)
    (Py.range2 1 (k + 1))
    (Some (repeat 0 (Z.to_nat (n + 1)))).

(** [k_partitions(collection, k)]: the partitions yielded and the
    exception raised, if any. *)
Definition k_partitions {A} (collection : list A) (k : Z)
  : list (list (list A)) * option exn :=
  let n := Py.len collection in
  if (n =? 0) || (k <? 1) then ([], None)
  else if k =? 1 then ([[collection]], None)
  else if k =? n then ([map (fun item => [item]) collection], None)
  else
    match init_a n k with
    | None => ([], Some IndexError)
    | Some a =>
        match _f n k collection (Z.to_nat (n + k)) k n 0 a with
        | (ys, inr _) => (ys, None)
        | (ys, inl e) => (ys, Some e)
        end
    end.

(** ** The "ALL" scheme *)

(** What running a generator gives: the values it yields and the
    exception that ends it, if any. *)
Definition run (Y : Type) : Type := (list Y * option exn)%type.

(** [for x in l: body(x)], where the body yields and may raise. *)
Fixpoint for_each {X Y} (l : list X) (body : X -> run Y) : run Y :=
  match l with
  | [] => ([], None)
  | x :: l' =>
      match body x with
      | (ys, Some e) => (ys, Some e)
      | (ys, None) => let (ys', r) := for_each l' body in (ys ++ ys', r)
      end
  end.

(** [for x in g: body(x)] for a generator [g]: an exception of [g] comes
    after the values it has yielded have been processed. *)
Definition for_gen {X Y} (g : run X) (body : X -> run Y) : run Y :=
  match for_each (fst g) body with
  | (ys, Some e) => (ys, Some e)
  | (ys, None) => (ys, snd g)
  end.

(** [itertools.permutations(l)]: every arrangement of the positions of
    [l], in lexicographic order of the positions. *)
Fixpoint select {X} (l : list X) : list (X * list X) :=
  match l with
  | [] => []
  | x :: l' => (x, l') :: map (fun yr => (fst yr, x :: snd yr)) (select l')
  end.

Fixpoint permutations_n {X} (n : nat) (l : list X) : list (list X) :=
  match n with
  | O => [[]]
  | S n' =>
      flat_map (fun xr => map (cons (fst xr)) (permutations_n n' (snd xr)))
               (select l)
  end.

Definition permutations {X} (l : list X) : list (list X) :=
  permutations_n (length l) l.

(** [parts[0].mechanism == mechanism and parts[0].purview]. *)
Definition excluded (mechanism0 : list Z) (part0 : Part) : bool :=
  (if list_eq_dec Z.eq_dec (mechanism part0) mechanism0 then true else false)
  && Py.truthy (purview part0).

(** [[Part(tuple(m), tuple(p)) for m, p in zip(...)]]. *)
Definition zip_parts (mechanism_partition purview_permutation : list (list Z))
  : KPartition :=
  map (fun mp => mkPart (fst mp) (snd mp))
      (combine mechanism_partition purview_permutation).

Section AllPartitions.

(** The order in which a [set] built from a list is iterated is left to
    the Python runtime: it is a parameter. *)
Variable set_iter : list (list (list Z)) -> list (list (list Z)).

Definition all_partitions (mechanism purview : list Z) : run KPartition :=
  for_each (partitions mechanism false) (fun mechanism_partition0 =>
    let mechanism_partition := mechanism_partition0 ++ [[]] in
    let n_mechanism_parts := Py.len mechanism_partition in
    let max_purview_partition := Z.min (Py.len purview) n_mechanism_parts in
    for_each (Py.range2 1 (max_purview_partition + 1)) (fun n_purview_parts =>
      let n_empty := n_mechanism_parts - n_purview_parts in
      for_gen (k_partitions purview n_purview_parts) (fun purview_partition0 =>
        let purview_partition :=
          purview_partition0 ++ repeat [] (Z.to_nat n_empty) in
        for_each (set_iter (permutations purview_partition))
          (fun purview_permutation =>
             let parts := zip_parts mechanism_partition purview_permutation in
             match parts with
             | [] => ([], Some IndexError)
             | part0 :: _ =>
                 if excluded mechanism part0 then ([], None)
                 else ([parts], None)
             end)))).

End AllPartitions.

(** ** IntersectionCombinatorics *)

Module Comb.

(** A [frozenset] of integers is the sorted list of its elements, so that
    equal sets are equal lists and can be the keys of a dict. *)
Definition mem (x : Z) (s : list Z) : bool := existsb (Z.eqb x) s.

(** [s & t]. *)
Definition inter (s t : list Z) : list Z := filter (fun x => mem x t) s.

(** [frozenset([x]) | s]. *)
Fixpoint insert (x : Z) (s : list Z) : list Z :=
  match s with
  | [] => [x]
  | y :: s' =>
      if x <? y then x :: s
      else if x =? y then s
      else y :: insert x s'
  end.

Definition frozenset (l : list Z) : list Z := fold_right insert [] l.

Definition eqb (s t : list Z) : bool :=
  if list_eq_dec Z.eq_dec s t then true else false.

(** A [set] of frozensets: a list without repetition, in the order of
    insertion. *)
Definition set_mem (c : list Z) (cs : list (list Z)) : bool :=
  existsb (eqb c) cs.

Definition set_add (c : list Z) (cs : list (list Z)) : list (list Z) :=
  if set_mem c cs then cs else cs ++ [c].

(** [S - T]. *)
Definition set_diff (cs ds : list (list Z)) : list (list Z) :=
  filter (fun c => negb (set_mem c ds)) cs.

(** A dict as the list of its items; [d[key]] raises [KeyError] when the
    key is missing, which is [None] here. *)
Definition dict_get {K V} (keq : K -> K -> bool) (d : list (K * V)) (key : K)
  : option V :=
  match find (fun kv => keq (fst kv) key) d with
  | Some kv => Some (snd kv)
  | None => None
  end.

Definition dict_set {K V} (keq : K -> K -> bool) (d : list (K * V)) (key : K)
  (v : V) : list (K * V) :=
  if existsb (fun kv => keq (fst kv) key) d
  then map (fun kv => if keq (fst kv) key then (key, v) else kv) d
  else d ++ [(key, v)].

(** [pair_indices(n, m, k)]. *)
Definition pair_indices (n : Z) (m : option Z) (k : Z) : list (Z * Z) :=
  let m := match m with None => n | Some m => m end in
  let n' := Z.min n m in
  let m' := Z.max n m in
  flat_map (fun i => map (fun j => (i, j)) (Py.range2 (i + k) m'))
           (Py.range n').

(** The two dicts of [combinations_with_nonempty_intersection_by_order]:
    [intersections] and the [defaultdict(set)] [combinations]. *)
Record state := mkState {
  intersections : list (list Z * list Z);
  combinations : list (Z * list (list Z))
}.

(** [combinations[k]] on a [defaultdict(set)]: a missing key is created
    with the empty set. *)
Definition default_get (d : list (Z * list (list Z))) (k : Z)
  : list (list Z) * list (Z * list (list Z)) :=
  match dict_get Z.eqb d k with
  | Some cs => (cs, d)
  | None => ([], d ++ [(k, [])])
  end.

Section ByOrder.

Variable sets : list (list Z).

(** [frozenset.intersection] of the sets [sets[i] for i in pair]. *)
Definition intersection_of (pair : list Z) : option (list Z) :=
  match Py.mapM (Py.getitem sets) pair with
  | Some (s0 :: rest) => Some (fold_left inter rest s0)
  | _ => None
  end.

(** The body of [for combination in nonempty_intersection]; the state
    carries the two dicts and [covered]. *)
Definition combination_step (k i : Z) (acc : option (state * list (list Z)))
  (combination : list Z) : option (state * list (list Z)) :=
  match acc with
  | None => None
  | Some (st, covered) =>
      if mem i combination then Some (st, set_add combination covered)
      else
        match Py.getitem sets i, dict_get eqb (intersections st) combination with
        | Some si, Some cached =>
            let intersection := inter si cached in
            if Py.truthy intersection then
              let new_combination := insert i combination in
              let inters := dict_set eqb (intersections st) new_combination
                                     intersection in
              let (cs, combs) := default_get (combinations st) (k + 1) in
              Some (mkState inters
                            (dict_set Z.eqb combs (k + 1)
                                      (set_add new_combination cs)),
                    covered)
            else Some (st, covered)
        | _, _ => None
        end
  end.

(** [for i in range(n)] with its [break]. *)
Fixpoint index_loop (k : Z) (indices : list Z)
  (nonempty_intersection : list (list Z)) (st : state) : option state :=
  match indices with
  | [] => Some st
  | i :: indices' =>
      match fold_left (combination_step k i) nonempty_intersection
                      (Some (st, [])) with
      | None => None
      | Some (st', covered) =>
          let nonempty_intersection' :=
            set_diff nonempty_intersection covered in
          if Py.truthy nonempty_intersection' then
            index_loop k indices' nonempty_intersection' st'
          else Some st'
      end
  end.

(** [for k in range(2, max_size)] with its [break]. *)
Fixpoint order_loop (n : Z) (orders : list Z) (st : state) : option state :=
  match orders with
  | [] => Some st
  | k :: orders' =>
      let (nonempty_intersection, combs) := default_get (combinations st) k in
      let st1 := mkState (intersections st) combs in
      if Py.truthy nonempty_intersection then
        match index_loop k (Py.range n) nonempty_intersection st1 with
        | None => None
        | Some st2 => order_loop n orders' st2
        end
      else Some st1
  end.

(** The dict returned, as the list of its items; [None] when an
    exception is raised. *)
Definition combinations_with_nonempty_intersection_by_order
  (min_size : Z) (max_size : option Z) : option (list (Z * list (list Z))) :=
  let n := Py.len sets in
  let max_size := match max_size with None => n | Some m => m end in
  let min_size := Z.max 2 min_size in
  let pairs := map (fun ij => frozenset [fst ij; snd ij])
                   (pair_indices n None 1) in
  match Py.mapM (fun pair => match intersection_of pair with
                             | Some s => Some (pair, s)
                             | None => None
                             end) pairs with
  | None => None
  | Some intersections0 =>
      let nonempty_pairs :=
        fold_left
          (fun cs pair =>
             match dict_get eqb intersections0 pair with
             | Some s => if Py.truthy s then set_add pair cs else cs
             | None => cs
             end)
          pairs [] in
      match order_loop n (Py.range2 2 max_size)
                       (mkState intersections0 [(2, nonempty_pairs)]) with
      | None => None
      | Some st =>
          Some (filter (fun sc => (min_size <=? fst sc) && Py.truthy (snd sc))
                       (combinations st))
      end
  end.

End ByOrder.

End Comb.

(** ** Memoization of the index enumerators *)



(** ** Bipartitions that cut a single element off *)

(** [bipartition_of_one(seq)]: the slices [seq[:i]] and [seq[i + 1:]] are
    [firstn] and [skipn]; a slice never raises. *)
Definition bipartition_of_one {A} (seq : list A) : list (list A * list A) :=
  map (fun ie => let '(i, elt) := ie in
                 ([elt], firstn (Z.to_nat i) seq ++ skipn (Z.to_nat (i + 1)) seq))
      (Py.enumerate seq).

(** [reverse_elements(seq)]: [elt[::-1]] for every pair [elt]. *)
Definition reverse_elements {A B} (seq : list (A * B)) : list (B * A) :=
  map swap seq.

(** [directed_bipartition_of_one(seq)]: [chain] is concatenation. *)
Definition directed_bipartition_of_one {A} (seq : list A)
  : list (list A * list A) :=
  let bipartitions := bipartition_of_one seq in
  bipartitions ++ reverse_elements bipartitions.

(** ** System partitions *)

(** Modelled from the spec: the class [Cut] of [models/cuts.py], which is
    not among the sources.  A cut is a directed bipartition of the nodes
    into a "from" side and a "to" side; the node labels it carries along
    are left out. *)
Record Cut := mkCut { from_nodes : list Z; to_nodes : list Z }.

(** The decorator [_bipartitions_to_cuts]. *)
Definition _bipartitions_to_cuts (bipartitions : list (list Z * list Z))
  : list Cut :=
  map (fun bipartition => mkCut (fst bipartition) (snd bipartition))
      bipartitions.

(** The "DIRECTED_BI" scheme. *)
Definition system_directed_bipartitions (nodes : list Z) : option (list Cut) :=
  match directed_bipartition nodes true with
  | None => None
  | Some bipartitions => Some (_bipartitions_to_cuts bipartitions)
  end.

(** The "DIRECTED_BI_CUT_ONE" scheme. *)
Definition system_directed_bipartitions_cut_one (nodes : list Z) : list Cut :=
  _bipartitions_to_cuts (directed_bipartition_of_one nodes).

(** The "DIRECTED_BI_SIMPLE" scheme: [nodes[:n]] and [nodes[n:]] for [n]
    in [range(1, len(nodes))], each in both directions. *)
Definition system_bipartitions_simple (nodes : list Z) : list Cut :=
  flat_map
    (fun n =>
       let part1 := firstn (Z.to_nat n) nodes in
       let part2 := skipn (Z.to_nat n) nodes in
       [mkCut part1 part2; mkCut part2 part1])
    (Py.range2 1 (Py.len nodes)).

(** ** Pairs and counts of [combinatorics.py] *)

(** [pairs(seq, k)]: a generator; [seq[i], seq[j]] may raise. *)
Definition pairs {A} (seq : list A) (k : Z) : run (A * A) :=
  for_each (Comb.pair_indices (Py.len seq) None k)
    (fun ij =>
       match Py.getitem seq (fst ij), Py.getitem seq (snd ij) with
       | Some x, Some y => ([(x, y)], None)
       | _, _ => ([], Some IndexError)
       end).

(** [combinations_with_nonempty_intersection]: the values of the dict,
    chained.  A set is listed in the order of insertion; the order in
    which Python iterates it is not fixed by the source. *)
Definition combinations_with_nonempty_intersection (sets : list (list Z))
  (min_size : Z) (max_size : option Z) : option (list (list Z)) :=
  match Comb.combinations_with_nonempty_intersection_by_order
          sets min_size max_size with
  | None => None
  | Some implicit => Some (concat (map snd implicit))
  end.

(** [num_subsets_larger_than_one_element(n)] for an integer [n >= 0]
    (for a negative [n] Python's [2 ** n] is a float); the memo of
    [@cache] does not change the value returned. *)
Definition num_subsets_larger_than_one_element (n : Z) : Z := 2 ^ n - n - 1.

(** ** Validation of a partition ([validate.py]) *)

(** What [validate.partition] does: it returns, or raises a [ValueError]
    that names a node. *)
Inductive validation := Valid | ValueError (node : Z).

(** The inner loop [for node in part], on the set [nodes] seen so far:
    the set it leaves, or the node it raises on. *)
Fixpoint validate_part (nodes : list Z) (part : list Z) : Z + list Z :=
  match part with
  | [] => inr nodes
  | node :: part' =>
      if Comb.mem node nodes then inl node
      else validate_part (nodes ++ [node]) part'
  end.

(** The outer loop [for part in partition]. *)
Fixpoint validate_parts (nodes : list Z) (partition : list (list Z))
  : validation :=
  match partition with
  | [] => Valid
  | part :: partition' =>
      match validate_part nodes part with
      | inl node => ValueError node
      | inr nodes' => validate_parts nodes' partition'
      end
  end.

Definition validate_partition (partition : list (list Z)) : validation :=
  validate_parts [] partition.

(** ** Definitions used to state and prove the properties *)

(** The tripartition loop written by recursion on the key, positions
    counted from [i]. *)
Fixpoint tri_rec (i : Z) (key : list Z) : (list Z * list Z * list Z) :=
  match key with
  | [] => ([], [], [])
  | x :: key' =>
      let '(q0, q1, q2) := tri_rec (i + 1) key' in
      if x =? 0 then (i :: q0, q1, q2)
      else if x =? 1 then (q0, i :: q1, q2)
      else (q0, q1, i :: q2)
  end.

(** All the indices of a triple. *)
Definition tri_all (t : (list Z * list Z * list Z)) : list Z :=
  let '(p0, p1, p2) := t in p0 ++ p1 ++ p2.

(** The parts of a tripartition, in order. *)
Definition parts_of (t : Tripartition) : list Part :=
  let '(t0, t1, t2) := t in [t0; t1; t2].

(** Two parts are mergeable when neither is empty and either their
    mechanisms or their purviews are both empty. *)
Definition mergeable_parts (x y : Part) : Prop :=
  (mechanism x <> [] \/ purview x <> [])
  /\ (mechanism y <> [] \/ purview y <> [])
  /\ ((mechanism x = [] /\ mechanism y = [])
      \/ (purview x = [] /\ purview y = [])).

(** Stirling numbers of the second kind and Bell numbers. *)
Fixpoint stirling2 (n k : nat) : nat :=
  match n, k with
  | O, O => 1
  | O, S _ => 0
  | S _, O => 0
  | S n', S k' => (S k' * stirling2 n' (S k') + stirling2 n' k')%nat
  end.

Fixpoint sum_upto (f : nat -> nat) (n : nat) : nat :=
  match n with
  | O => f O
  | S n' => (sum_upto f n' + f (S n'))%nat
  end.

Definition bell (n : nat) : nat := sum_upto (stirling2 n) n.

(** A list of blocks is a partition of [c] when no block is empty and the
    blocks laid end to end are a rearrangement of [c]; when [c] has no
    repeated element the blocks are then pairwise disjoint and their union
    is [c]. *)
Definition is_partition {A} (c : list A) (p : list (list A)) : Prop :=
  (forall b, In b p -> b <> []) /\ Permutation (concat p) c.

(** Two elements lie in a common block. *)
Definition together {A} (p : list (list A)) (x y : A) : Prop :=
  exists b, In b p /\ In x b /\ In y b.

(** Two lists of blocks are the same partition, whatever the order of the
    blocks and the order inside them. *)
Definition same_partition {A} (p q : list (list A)) : Prop :=
  forall x y, together p x y <-> together q x y.

(** No two entries of a list are the same partition. *)
Inductive all_distinct {A} : list (list (list A)) -> Prop :=
| distinct_nil : all_distinct []
| distinct_cons p l :
    (forall q, In q l -> ~ same_partition p q) ->
    all_distinct l -> all_distinct (p :: l).

(** The number of entries with exactly [k] blocks. *)
Definition count_blocks {A} (k : nat) (l : list (list (list A))) : nat :=
  length (filter (fun p => Nat.eqb (length p) k) l).

(** The inner loop of [_partitions] by recursion on the blocks: [first]
    is put in each block of [s] in turn, [pre] being the blocks already
    passed. *)
Fixpoint ins_all {A} (first : A) (pre s : list (list A))
  : list (list (list A)) :=
  match s with
  | [] => []
  | b :: s' => (pre ++ (first :: b) :: s') :: ins_all first (pre ++ [b]) s'
  end.

(** What one partition of the rest gives rise to. *)
Definition children {A} (first : A) (smaller : list (list A))
  : list (list (list A)) :=
  map (insert_at first smaller) (Py.enumerate smaller) ++ [[first] :: smaller].

(** The position of the first block that holds [u]. *)
Fixpoint block_index {A} (eq_dec : forall x y : A, {x = y} + {x <> y})
  (q : list (list A)) (u : A) : nat :=
  match q with
  | [] => O
  | b :: q' => if in_dec eq_dec u b then O else S (block_index eq_dec q' u)
  end.

(** *** The order in which the sweeps visit the restricted growth strings *)

(** [0, 1, ..., m-1]. *)
Definition iota (m : nat) : list Z := map Z.of_nat (seq 0 m).

Arguments iota : simpl never.

(** [s] followed by the value [j]. *)
Definition snoc (j : nat) (s : list Z) : list Z := s ++ [Z.of_nat j].

(** A list, or the list backwards. *)
Definition dir {X} (backwards : bool) (l : list X) : list X :=
  if backwards then rev l else l.

(** The parity of [j + sigma]. *)
Definition par (j : nat) (sigma : bool) : bool := xorb (Nat.odd j) sigma.

(** The strings of length [nu] with the [mu] values [0 .. mu-1], in the
    order in which [_f(mu, nu, sigma)] visits them: first those that end
    with a new largest value, then, for the last value going down from
    [mu-1] to [0], the strings of length [nu-1] forwards or backwards in
    turn. *)
Fixpoint rgs_seq (nu mu : nat) (sigma : bool) : list (list Z) :=
  match nu, mu with
  | O, O => [[]]
  | O, S _ => []
  | S _, O => []
  | S nu', S m =>
      map (snoc m) (rgs_seq nu' m (par (S m) sigma))
      ++ flat_map
           (fun j => map (snoc j) (dir (par j sigma) (rgs_seq nu' (S m) false)))
           (rev (seq 0 (S m)))
  end.

(** The string with which [_f(mu, nu, _)] starts, and the one at which
    [_f(mu, nu, sigma)] stops. *)
Definition first_rgs (mu nu : nat) : list Z := repeat 0 (nu - mu) ++ iota mu.

Definition last_rgs (mu nu : nat) (sigma : bool) : list Z :=
  if sigma && Nat.ltb mu nu
  then repeat 0 (nu - mu - 1) ++ iota mu ++ [0]
  else iota mu ++ repeat 0 (nu - mu).

Arguments first_rgs : simpl never.
Arguments last_rgs : simpl never.

(** The blocks [_visit] builds from the values [s] of the array and the
    elements [c]: block [v] holds, in order, the elements whose value is
    [v]. *)
Definition blocks_of {A} (k : Z) (s : list Z) (c : list A) : list (list A) :=
  map (fun v => map snd (filter (fun vx => fst vx =? v) (combine s c)))
      (Py.range k).

(** Restricted growth: every value is non-negative and preceded by all
    the smaller ones. *)
Definition restricted_growth (s : list Z) : Prop :=
  forall i v, nth_error s i = Some v ->
    0 <= v /\ forall w, 0 <= w < v ->
                exists i', (i' < i)%nat /\ nth_error s i' = Some w.

(** What is yielded for the strings [l] when [suf] follows them in the
    array and [V] is what [_visit] returns. *)
Definition outs {Y} (V : list Z -> Y) (suf : list Z) (l : list (list Z))
  : list Y :=
  map (fun s => V (s ++ suf)) l.

(** [_visit] succeeds on every string of [l] followed by [suf], and [V]
    is what it returns. *)
Definition visits {A} (n k : Z) (c : list A) (V : list Z -> list (list A))
  (a0 : Z) (suf : list Z) (l : list (list Z)) : Prop :=
  forall s, In s l -> _visit n k c (a0 :: s ++ suf) = Some (V (s ++ suf)).

(** A restricted growth string of length [nu] with exactly the [mu]
    values [0 .. mu-1]. *)
Definition rgs_ok (mu nu : nat) (s : list Z) : Prop :=
  length s = nu
  /\ (forall v, In v s -> 0 <= v < Z.of_nat mu)
  /\ (forall j, (j < mu)%nat -> In (Z.of_nat j) s)
  /\ restricted_growth s.

(** Every combination of a partition of the mechanism with a permutation
    of a padded k-partition of the purview that [all_partitions]
    generates, before its exclusion rule is applied. *)
Definition candidates (set_iter : list (list (list Z)) -> list (list (list Z)))
  (m p : list Z) : list KPartition :=
  flat_map (fun mp0 =>
    let mp := mp0 ++ [[]] in
    flat_map (fun k =>
      flat_map (fun pp0 =>
        map (zip_parts mp)
            (set_iter
               (permutations (pp0 ++ repeat [] (Z.to_nat (Py.len mp - k))))))
        (fst (k_partitions p k)))
      (Py.range2 1 (Z.min (Py.len p) (Py.len mp) + 1)))
    (partitions m false).

(** The exclusion rule on a whole candidate. *)
Definition excluded_first (m : list Z) (parts : KPartition) : bool :=
  match parts with
  | [] => false
  | part0 :: _ => excluded m part0
  end.

(** *** What a call takes from the process it runs in *)


(** What a call of an enumeration function finds beside its arguments:
    the memo of [bipartition_indices] as the earlier calls have left it,
    and the order in which the runtime iterates a set. *)
Record runtime := mkRuntime {
  rt_memo : list (Z * list (list Z * list Z));
  rt_set_iter : list (list (list Z)) -> list (list (list Z)) }.






Definition backwards : runtime :=
  mkRuntime [] (fun l => rev (nodup (list_eq_dec (list_eq_dec Z.eq_dec)) l)).

(** The integer whose bit [j] is [f (lo + j)] for [j < n], the higher bits
    being clear. *)
Fixpoint of_bits (f : Z -> bool) (lo : Z) (n : nat) : Z :=
  match n with
  | O => 0
  | S n' => 2 * of_bits f (lo + 1) n' + Z.b2z (f lo)
  end.

(** All the sublists of a list: the subsets of a set given as a list
    without repetition. *)
Fixpoint powerset {X} (l : list X) : list (list X) :=
  match l with
  | [] => [[]]
  | x :: l' => powerset l' ++ map (cons x) (powerset l')
  end.

(** Pairs of integers in lexicographic order. *)
Definition lex_lt (a b : Z * Z) : Prop :=
  fst a < fst b \/ (fst a = fst b /\ snd a < snd b).

(** [validate.partition] on the nodes of all the parts laid end to end. *)
Definition validate_scan (nodes l : list Z) : validation :=
  match validate_part nodes l with
  | inl node => ValueError node
  | inr _ => Valid
  end.

(** Two strings of block labels differ at exactly one position: one
    element has moved to another block. *)
Definition one_move (s t : list Z) : Prop :=
  exists pre a b post, s = pre ++ a :: post /\ t = pre ++ b :: post /\ a <> b.

(** Each entry of a list of strings is one move away from the next. *)
Inductive gray : list (list Z) -> Prop :=
| gray_nil : gray []
| gray_one s : gray [s]
| gray_cons s t l : one_move s t -> gray (t :: l) -> gray (s :: t :: l).

(** *** Combinations of sets with a non-empty intersection *)

(** The element [x] belongs to the set of index [i]. *)
Definition member (sets : list (list Z)) (x i : Z) : Prop :=
  exists s, Py.getitem sets i = Some s /\ In x s.

(** The sets whose indices are in [c] share an element. *)
Definition common (sets : list (list Z)) (c : list Z) : Prop :=
  exists x, forall i, In i c -> member sets x i.

(** A combination of [k] indices of sets, as its frozenset is held: the
    indices in increasing order. *)
Definition combo (sets : list (list Z)) (k : Z) (c : list Z) : Prop :=
  StronglySorted Z.lt c
  /\ (forall i, In i c -> 0 <= i < Py.len sets)
  /\ Py.len c = k.

(** A combination of [k] sets with a non-empty intersection. *)
Definition good_combo (sets : list (list Z)) (k : Z) (c : list Z) : Prop :=
  combo sets k c /\ common sets c.

(** [s] holds the elements that the sets of [c] share. *)
Definition is_inter (sets : list (list Z)) (c s : list Z) : Prop :=
  forall x, In x s <-> (forall i, In i c -> member sets x i).

(** [combinations[k]] without creating the key. *)
Definition comb_at (d : list (Z * list (list Z))) (k : Z) : list (list Z) :=
  match Comb.dict_get Z.eqb d k with
  | Some cs => cs
  | None => []
  end.

(** The key [c] is in the dict of the intersections. *)
Definition has_key (d : list (list Z * list Z)) (c : list Z) : Prop :=
  Comb.dict_get Comb.eqb d c <> None.
(** * Properties of the index enumerators *)

(** The doctests of the three enumerators. *)
Example bipartition_indices_3 :
  bipartition_indices 3 =
  [([], [0; 1; 2]); ([0], [1; 2]); ([1], [0; 2]); ([0; 1], [2])].
Proof. reflexivity. Qed.

Example directed_bipartition_indices_3 :
  directed_bipartition_indices 3 =
  [([], [0; 1; 2]); ([0], [1; 2]); ([1], [0; 2]); ([0; 1], [2]);
   ([2], [0; 1]); ([0; 2], [1]); ([1; 2], [0]); ([0; 1; 2], [])].
Proof. reflexivity. Qed.

Example directed_tripartition_indices_1 :
  directed_tripartition_indices 1 =
  [([0], [], []); ([], [0], []); ([], [], [0])].
Proof. reflexivity. Qed.

(** *** Facts on [range] *)

Lemma range_length n : length (Py.range n) = Z.to_nat n.
Proof. unfold Py.range. now rewrite length_map, length_seq. Qed.

Lemma in_range n x : In x (Py.range n) <-> 0 <= x < n.
Proof.
  unfold Py.range. rewrite in_map_iff. split.
  - intros (k & <- & Hk). apply in_seq in Hk. lia.
  - intros H. exists (Z.to_nat x). split; [lia|]. apply in_seq. lia.
Qed.

Lemma range_NoDup n : NoDup (Py.range n).
Proof.
  unfold Py.range. apply NoDup_map_NoDup_ForallPairs.
  - intros x y _ _ H. lia.
  - apply seq_NoDup.
Qed.

Lemma range_nonpos n : n <= 0 -> Py.range n = [].
Proof.
  intros H. unfold Py.range. replace (Z.to_nat n) with 0%nat by lia. reflexivity.
Qed.

Lemma range_succ n : 0 <= n -> Py.range (n + 1) = Py.range n ++ [n].
Proof.
  intros H. unfold Py.range.
  replace (Z.to_nat (n + 1)) with (S (Z.to_nat n)) by lia.
  rewrite seq_S, map_app. simpl. now rewrite Z2Nat.id.
Qed.

(** *** The bit loop as two filters *)

Lemma bit_of_testbit i n : 0 <= n -> bit_of i n = Z.b2z (Z.testbit i n).
Proof.
  intros Hn. unfold bit_of.
  change 1 with (Z.ones 1). rewrite Z.land_ones by lia.
  rewrite Z.shiftr_div_pow2 by lia. change (2 ^ 1) with 2.
  now rewrite Z.testbit_spec' by lia.
Qed.

Lemma bit_fold i l p0 p1 :
  fold_left (bit_step i) l (p0, p1) =
  (p0 ++ filter (fun n => bit_of i n =? 0) l,
   p1 ++ filter (fun n => negb (bit_of i n =? 0)) l).
Proof.
  revert p0 p1. induction l as [|n l IH]; intros p0 p1; simpl.
  - now rewrite !app_nil_r.
  - unfold bit_step at 2. simpl. destruct (bit_of i n =? 0); simpl;
      rewrite IH, <- app_assoc; reflexivity.
Qed.

Lemma bit_parts_filter N i :
  bit_parts N i =
  (filter (fun n => bit_of i n =? 0) (Py.range N),
   filter (fun n => negb (bit_of i n =? 0)) (Py.range N)).
Proof. unfold bit_parts. now rewrite bit_fold. Qed.

Lemma in_ones N i n :
  In n (snd (bit_parts N i)) <-> 0 <= n < N /\ Z.testbit i n = true.
Proof.
  rewrite bit_parts_filter. simpl. rewrite filter_In, in_range.
  split; intros [H1 H2]; split; trivial.
  - rewrite bit_of_testbit in H2 by lia. now destruct (Z.testbit i n).
  - rewrite bit_of_testbit by lia. now rewrite H2.
Qed.

Lemma in_zeros N i n :
  In n (fst (bit_parts N i)) <-> 0 <= n < N /\ Z.testbit i n = false.
Proof.
  rewrite bit_parts_filter. simpl. rewrite filter_In, in_range.
  split; intros [H1 H2]; split; trivial.
  - rewrite bit_of_testbit in H2 by lia. now destruct (Z.testbit i n).
  - rewrite bit_of_testbit by lia. now rewrite H2.
Qed.

Lemma testbit_high i M n : 0 <= i < 2 ^ M -> 0 <= M <= n -> Z.testbit i n = false.
Proof.
  intros Hi Hn. destruct (Z.eq_dec i 0) as [->|Hz]; [apply Z.bits_0|].
  apply Z.bits_above_log2; [lia|].
  assert (Z.log2 i < M) by (apply Z.log2_lt_pow2; lia). lia.
Qed.

(** Two integers below [2^(N-1)] with the same one-bits are equal. *)
Lemma ones_inj N i j :
  1 <= N -> 0 <= i < 2 ^ (N - 1) -> 0 <= j < 2 ^ (N - 1) ->
  snd (bit_parts N i) = snd (bit_parts N j) -> i = j.
Proof.
  intros HN Hi Hj E. apply Z.bits_inj'. intros n Hn.
  destruct (Z_lt_dec n N) as [Hlt|Hge].
  - pose proof (in_ones N i n) as A. pose proof (in_ones N j n) as B.
    rewrite E in A.
    destruct (Z.testbit i n) eqn:Ei, (Z.testbit j n) eqn:Ej; trivial.
    + assert (In n (snd (bit_parts N j))) by (apply A; split; [lia|trivial]).
      apply B in H. destruct H; congruence.
    + assert (In n (snd (bit_parts N j))) by (apply B; split; [lia|trivial]).
      apply A in H. destruct H; congruence.
  - rewrite (testbit_high i (N - 1) n), (testbit_high j (N - 1) n); trivial; lia.
Qed.

Lemma bipartition_indices_pos N :
  1 <= N ->
  bipartition_indices N =
  map (fun i => (snd (bit_parts N i), fst (bit_parts N i))) (Py.range (2 ^ (N - 1))).
Proof.
  intros H. unfold bipartition_indices.
  destruct (N <=? 0) eqn:E; [lia|reflexivity].
Qed.

Lemma bipartition_indices_length N :
  1 <= N -> Py.len (bipartition_indices N) = 2 ^ (N - 1).
Proof.
  intros H. rewrite bipartition_indices_pos by trivial.
  unfold Py.len. rewrite length_map, range_length.
  assert (0 < 2 ^ (N - 1)) by (apply Z.pow_pos_nonneg; lia). lia.
Qed.

Lemma bipartition_indices_NoDup N : NoDup (bipartition_indices N).
Proof.
  destruct (Z_le_dec N 0) as [H|H].
  - unfold bipartition_indices. destruct (N <=? 0) eqn:E; [constructor|lia].
  - rewrite bipartition_indices_pos by lia.
    apply NoDup_map_NoDup_ForallPairs; [|apply range_NoDup].
    intros i j Hi Hj E. apply in_range in Hi, Hj.
    apply (ones_inj N); try lia. congruence.
Qed.

(** Every undirected entry keeps the last index [N-1] on its right side,
    and its left side is empty only for [i = 0]. *)
Lemma last_in_zeros N i :
  1 <= N -> 0 <= i < 2 ^ (N - 1) -> In (N - 1) (fst (bit_parts N i)).
Proof.
  intros HN Hi. apply in_zeros. split; [lia|].
  apply (testbit_high i (N - 1)); lia.
Qed.

Lemma bipartition_indices_right N p :
  In p (bipartition_indices N) -> In (N - 1) (snd p) /\ ~ In (N - 1) (fst p).
Proof.
  intros H. destruct (Z_le_dec N 0) as [HN|HN].
  - unfold bipartition_indices in H. destruct (N <=? 0) eqn:E; [destruct H|lia].
  - rewrite bipartition_indices_pos in H by lia.
    apply in_map_iff in H as (i & <- & Hi). apply in_range in Hi. simpl. split.
    + apply last_in_zeros; lia.
    + intros A. apply in_ones in A as [_ A].
      rewrite (testbit_high i (N - 1)) in A; [discriminate|lia|lia].
Qed.

(** *** Directed bipartition indices *)

Lemma swap_swap {A B} (p : A * B) : swap (swap p) = p.
Proof. now destruct p. Qed.

Lemma swap_inj {A B} (p q : A * B) : swap p = swap q -> p = q.
Proof. intros H. rewrite <- (swap_swap p), H. apply swap_swap. Qed.

Lemma directed_bipartition_indices_length N :
  Py.len (directed_bipartition_indices N) = 2 * Py.len (bipartition_indices N).
Proof.
  unfold directed_bipartition_indices, Py.len.
  rewrite length_app, length_map, length_rev. lia.
Qed.

Lemma directed_bipartition_indices_NoDup N :
  NoDup (directed_bipartition_indices N).
Proof.
  unfold directed_bipartition_indices. apply NoDup_app.
  - apply bipartition_indices_NoDup.
  - apply NoDup_map_NoDup_ForallPairs.
    + intros p q _ _. apply swap_inj.
    + apply NoDup_rev, bipartition_indices_NoDup.
  - intros p Hp Hq. apply in_map_iff in Hq as (q & <- & Hq).
    apply in_rev in Hq.
    apply bipartition_indices_right in Hp, Hq. simpl in Hp. tauto.
Qed.

(** *** Directed tripartition indices *)

Lemma tri_fold key : forall s p0 p1 p2,
  fold_left tri_step
    (combine (map Z.of_nat (seq s (length key))) key) (p0, p1, p2) =
  let '(q0, q1, q2) := tri_rec (Z.of_nat s) key in
  (p0 ++ q0, p1 ++ q1, p2 ++ q2).
Proof.
  induction key as [|x key IH]; intros s p0 p1 p2; simpl.
  - now rewrite !app_nil_r.
  - replace (Z.of_nat s + 1) with (Z.of_nat (S s)) by lia.
    destruct (x =? 0) eqn:E0; [|destruct (x =? 1) eqn:E1];
      rewrite IH; destruct (tri_rec (Z.of_nat (S s)) key) as [[q0 q1] q2];
      rewrite <- app_assoc; reflexivity.
Qed.

Lemma tri_parts_rec key : tri_parts key = tri_rec 0 key.
Proof.
  unfold tri_parts, Py.enumerate, Py.range, Py.len.
  rewrite Nat2Z.id, tri_fold. simpl.
  now destruct (tri_rec 0 key) as [[q0 q1] q2].
Qed.

Lemma tri_rec_lower key : forall i j, In j (tri_all (tri_rec i key)) -> i <= j.
Proof.
  induction key as [|x key IH]; intros i j; simpl; [tauto|].
  specialize (IH (i + 1) j).
  destruct (tri_rec (i + 1) key) as [[q0 q1] q2].
  destruct (x =? 0); [|destruct (x =? 1)]; simpl in *;
    rewrite ?in_app_iff in *; simpl; rewrite ?in_app_iff; intros H;
    assert (i = j \/ i + 1 <= j) by tauto; lia.
Qed.

Lemma tri_rec_inj k1 : forall k2 i,
  length k1 = length k2 ->
  Forall (fun x => In x [0; 1; 2]) k1 -> Forall (fun x => In x [0; 1; 2]) k2 ->
  tri_rec i k1 = tri_rec i k2 -> k1 = k2.
Proof.
  induction k1 as [|x k1 IH]; intros [|y k2] i Hl F1 F2 E; try discriminate; trivial.
  inversion F1 as [|? ? Hx F1']; inversion F2 as [|? ? Hy F2']; subst.
  simpl in E. injection Hl as Hl.
  pose proof (tri_rec_lower k1 (i + 1) i) as L1.
  pose proof (tri_rec_lower k2 (i + 1) i) as L2.
  specialize (IH k2 (i + 1) Hl F1' F2').
  destruct (tri_rec (i + 1) k1) as [[a0 a1] a2].
  destruct (tri_rec (i + 1) k2) as [[b0 b1] b2].
  simpl in L1, L2. rewrite !in_app_iff in L1, L2.
  assert (Hx' : x = 0 \/ x = 1 \/ x = 2) by (simpl in Hx; intuition).
  assert (Hy' : y = 0 \/ y = 1 \/ y = 2) by (simpl in Hy; intuition).
  destruct Hx' as [->|[->| ->]]; destruct Hy' as [->|[->| ->]]; simpl in E;
    injection E as E0 E1 E2; subst;
    try (f_equal; apply IH; congruence);
    exfalso;
    first [ assert (i + 1 <= i) by (apply L1; simpl; tauto); lia
          | assert (i + 1 <= i) by (apply L2; simpl; tauto); lia ].
Qed.

Lemma product_repeat_length {A} (base : list A) n :
  length (Py.product_repeat base n) = (length base ^ n)%nat.
Proof.
  induction n as [|n IH]; simpl; trivial.
  rewrite <- IH. generalize (Py.product_repeat base n) as L. clear IH. intros L.
  induction base as [|x base IHb]; simpl; trivial.
  rewrite length_app, length_map, IHb. reflexivity.
Qed.

Lemma product_repeat_in {A} (base : list A) n key :
  In key (Py.product_repeat base n) ->
  length key = n /\ Forall (fun x => In x base) key.
Proof.
  revert key. induction n as [|n IH]; simpl; intros key H.
  - destruct H as [<-|[]]. now split.
  - apply in_flat_map in H as (x & Hx & H).
    apply in_map_iff in H as (k & <- & Hk). apply IH in Hk as [Hl Hf].
    simpl. split; [congruence|]. now constructor.
Qed.

Lemma NoDup_flat_map_cons {A} (base : list A) (L : list (list A)) :
  NoDup base -> NoDup L ->
  NoDup (flat_map (fun x => map (cons x) L) base).
Proof.
  intros Hb HL. induction Hb as [|x base Hx Hb IH]; simpl; [constructor|].
  apply NoDup_app; trivial.
  - apply NoDup_map_NoDup_ForallPairs; trivial.
    intros a b _ _ E. congruence.
  - intros k H1 H2. apply in_map_iff in H1 as (k1 & <- & _).
    apply in_flat_map in H2 as (y & Hy & H2).
    apply in_map_iff in H2 as (k2 & E & _). congruence.
Qed.

Lemma product_repeat_NoDup {A} (base : list A) n :
  NoDup base -> NoDup (Py.product_repeat base n).
Proof.
  intros Hb. induction n as [|n IH]; simpl.
  - constructor; [intros []|constructor].
  - now apply NoDup_flat_map_cons.
Qed.

Lemma directed_tripartition_indices_pos N :
  1 <= N ->
  directed_tripartition_indices N =
  map tri_parts (Py.product_repeat [0; 1; 2] (Z.to_nat N)).
Proof.
  intros H. unfold directed_tripartition_indices.
  destruct (N <=? 0) eqn:E; [lia|reflexivity].
Qed.

Lemma directed_tripartition_indices_length N :
  1 <= N -> Py.len (directed_tripartition_indices N) = 3 ^ N.
Proof.
  intros H. rewrite directed_tripartition_indices_pos by trivial.
  unfold Py.len. rewrite length_map, product_repeat_length. simpl length.
  rewrite Nat2Z.inj_pow. simpl Z.of_nat at 1. f_equal. lia.
Qed.

Lemma directed_tripartition_indices_NoDup N :
  NoDup (directed_tripartition_indices N).
Proof.
  unfold directed_tripartition_indices. destruct (N <=? 0); [constructor|].
  apply NoDup_map_NoDup_ForallPairs.
  - intros k1 k2 H1 H2 E. rewrite !tri_parts_rec in E.
    apply product_repeat_in in H1 as [L1 F1], H2 as [L2 F2].
    apply (tri_rec_inj k1 k2 0); congruence.
  - apply product_repeat_NoDup.
    repeat constructor; simpl; intuition discriminate.
Qed.

(** *** The enumerators for [N <= 0] *)

Lemma index_enumerators_nonpos N :
  N <= 0 ->
  bipartition_indices N = [] /\ directed_bipartition_indices N = []
  /\ directed_tripartition_indices N = [].
Proof.
  intros H. unfold directed_bipartition_indices, bipartition_indices,
    directed_tripartition_indices.
  destruct (N <=? 0) eqn:E; [|lia]. repeat split.
Qed.

(** C2, as amended: for every [N >= 1] the three enumerators return
    [2^(N-1)], [2^N] and [3^N] entries, each list free of duplicates; for
    [N = 0] the three lists are empty. *)
Theorem index_enumerator_counts N :
  1 <= N ->
  (Py.len (bipartition_indices N) = 2 ^ (N - 1)
   /\ NoDup (bipartition_indices N))
  /\ (Py.len (directed_bipartition_indices N) = 2 ^ N
      /\ NoDup (directed_bipartition_indices N))
  /\ (Py.len (directed_tripartition_indices N) = 3 ^ N
      /\ NoDup (directed_tripartition_indices N))
  /\ bipartition_indices 0 = [] /\ directed_bipartition_indices 0 = []
  /\ directed_tripartition_indices 0 = [].
Proof.
  intros H. repeat split.
  - now apply bipartition_indices_length.
  - apply bipartition_indices_NoDup.
  - rewrite directed_bipartition_indices_length, bipartition_indices_length by trivial.
    rewrite <- Z.pow_succ_r by lia. f_equal. lia.
  - apply directed_bipartition_indices_NoDup.
  - now apply directed_tripartition_indices_length.
  - apply directed_tripartition_indices_NoDup.
Qed.

Lemma index_enumerator_counts_witness :
  Py.len (directed_tripartition_indices 3) = 3 ^ 3.
Proof. apply (index_enumerator_counts 3). lia. Defined.

(** C2 as stated fails at [N = 0]: the count is [0], not [2^max(N-1,0) = 1]
    (nor [2^0], nor [3^0]). *)
Lemma index_enumerator_counts_at_0 :
  ~ (Py.len (bipartition_indices 0) = 2 ^ Z.max (0 - 1) 0
     /\ Py.len (directed_bipartition_indices 0) = 2 ^ 0
     /\ Py.len (directed_tripartition_indices 0) = 3 ^ 0).
Proof. intros [H _]. discriminate H. Qed.

(** *** Indexing with the enumerated indices never raises *)

Lemma mapM_Forall2 {A B} (f : A -> option B) l l' :
  Py.mapM f l = Some l' <-> Forall2 (fun x y => f x = Some y) l l'.
Proof.
  revert l'. induction l as [|x l IH]; intros l'; simpl.
  - split; intros H; [injection H as <-; constructor|now inversion H].
  - destruct (f x) as [y|] eqn:E.
    + destruct (Py.mapM f l) as [ys|] eqn:E'.
      * split; intros H.
        -- injection H as <-. constructor; trivial. now apply IH.
        -- inversion H; subst. f_equal. f_equal; [congruence|].
           apply IH in H4. congruence.
      * split; intros H; [discriminate|].
        inversion H; subst. apply IH in H4. discriminate.
    + split; intros H; [discriminate|]. inversion H; subst. congruence.
Qed.

Lemma mapM_total {A B} (f : A -> option B) l :
  (forall x, In x l -> exists y, f x = Some y) ->
  exists l', Py.mapM f l = Some l'.
Proof.
  induction l as [|x l IH]; intros H; simpl; [eauto|].
  destruct (H x) as [y ->]; [now left|].
  destruct IH as [ys ->]; [intros; apply H; now right|]. eauto.
Qed.

Lemma getitem_in_range {A} (s : list A) i :
  0 <= i < Py.len s -> exists x, Py.getitem s i = Some x.
Proof.
  intros H. unfold Py.getitem. destruct (i <? 0) eqn:E; [lia|].
  destruct (nth_error s (Z.to_nat i)) eqn:E'; [eauto|].
  apply nth_error_None in E'. unfold Py.len in H. lia.
Qed.

Lemma pick_total {A} (seq : list A) idx :
  (forall i, In i idx -> 0 <= i < Py.len seq) ->
  exists l, pick seq idx = Some l /\ length l = length idx.
Proof.
  intros H. destruct (mapM_total (Py.getitem seq) idx) as [l Hl].
  - intros i Hi. apply getitem_in_range. auto.
  - exists l. split; trivial. apply mapM_Forall2 in Hl.
    symmetry. eapply Forall2_length; eauto.
Qed.

Lemma pick_length {A} (seq : list A) idx l :
  pick seq idx = Some l -> length l = length idx.
Proof.
  intros H. apply mapM_Forall2 in H. symmetry. eapply Forall2_length; eauto.
Qed.

Lemma bipartition_indices_range N p i :
  In p (bipartition_indices N) -> In i (fst p) \/ In i (snd p) -> 0 <= i < N.
Proof.
  intros Hp Hi. unfold bipartition_indices in Hp.
  destruct (N <=? 0); [destruct Hp|].
  apply in_map_iff in Hp as (j & <- & _). simpl in Hi.
  destruct Hi as [Hi|Hi]; [apply in_ones in Hi|apply in_zeros in Hi]; tauto.
Qed.

Lemma directed_bipartition_indices_range N p i :
  In p (directed_bipartition_indices N) ->
  In i (fst p) \/ In i (snd p) -> 0 <= i < N.
Proof.
  unfold directed_bipartition_indices. rewrite in_app_iff, in_map_iff.
  intros [Hp|(q & <- & Hq)] Hi.
  - eapply bipartition_indices_range; eauto.
  - apply in_rev in Hq. eapply bipartition_indices_range; eauto.
    simpl in Hi. tauto.
Qed.

Lemma pick2_total {A} (seq : list A) p :
  (forall i, In i (fst p) \/ In i (snd p) -> 0 <= i < Py.len seq) ->
  exists q, pick2 seq p = Some q
            /\ length (fst q) = length (fst p)
            /\ length (snd q) = length (snd p).
Proof.
  intros H. unfold pick2.
  destruct (pick_total seq (fst p)) as (a & -> & Ha);
    [intros i Hi; apply H; now left|].
  destruct (pick_total seq (snd p)) as (b & -> & Hb);
    [intros i Hi; apply H; now right|].
  exists (a, b). auto.
Qed.

Lemma pick2_lengths {A} (seq : list A) p q :
  pick2 seq p = Some q ->
  length (fst q) = length (fst p) /\ length (snd q) = length (snd p).
Proof.
  unfold pick2. destruct (pick seq (fst p)) as [a|] eqn:Ea; [|discriminate].
  destruct (pick seq (snd p)) as [b|] eqn:Eb; [|discriminate].
  intros H. injection H as <-. simpl.
  split; eapply pick_length; eauto.
Qed.

Lemma bipartition_total {A} (seq : list A) nontrivial :
  exists bs, bipartition seq nontrivial = Some bs.
Proof.
  unfold bipartition.
  destruct (mapM_total (pick2 seq) (bipartition_indices (Py.len seq))) as [l ->].
  - intros p Hp. destruct (pick2_total seq p) as (q & Hq & _); [|eauto].
    intros i. now apply bipartition_indices_range.
  - eauto.
Qed.

Lemma directed_bipartition_total {A} (seq : list A) nontrivial :
  exists bs, directed_bipartition seq nontrivial = Some bs.
Proof.
  unfold directed_bipartition.
  destruct (mapM_total (pick2 seq) (directed_bipartition_indices (Py.len seq)))
    as [l ->].
  - intros p Hp. destruct (pick2_total seq p) as (q & Hq & _); [|eauto].
    intros i. now apply directed_bipartition_indices_range.
  - eauto.
Qed.

(** *** Which directed bipartitions have an empty side *)

Lemma ones_zero N : snd (bit_parts N 0) = [].
Proof.
  rewrite bit_parts_filter. simpl. induction (Py.range N) as [|n l IH]; trivial.
  simpl. unfold bit_of at 1. rewrite Z.shiftr_0_l. simpl. exact IH.
Qed.

Lemma bipartition_indices_nth N k p :
  1 <= N -> nth_error (bipartition_indices N) k = Some p ->
  snd p <> [] /\ (fst p = [] <-> k = 0%nat).
Proof.
  intros HN H. split.
  - apply nth_error_In, bipartition_indices_right in H as [H _].
    intros E. rewrite E in H. destruct H.
  - rewrite bipartition_indices_pos in H by trivial.
    unfold Py.range in H. rewrite !nth_error_map, nth_error_seq in H.
    destruct (Nat.ltb_spec k (Z.to_nat (2 ^ (N - 1)))) as [Hk|Hk]; [|discriminate].
    simpl in H. injection H as <-. simpl. split.
    + intros E. rewrite <- (ones_zero N) in E.
      assert (0 < 2 ^ (N - 1)) by (apply Z.pow_pos_nonneg; lia).
      apply ones_inj in E; lia.
    + intros ->. apply ones_zero.
Qed.

Lemma directed_bipartition_indices_nth N k p :
  1 <= N -> nth_error (directed_bipartition_indices N) k = Some p ->
  ((fst p = [] \/ snd p = []) <->
   (k = 0%nat \/ S k = length (directed_bipartition_indices N))).
Proof.
  intros HN H.
  assert (HM : (1 <= length (bipartition_indices N))%nat).
  { pose proof (bipartition_indices_length N HN) as E. unfold Py.len in E.
    assert (0 < 2 ^ (N - 1)) by (apply Z.pow_pos_nonneg; lia). lia. }
  unfold directed_bipartition_indices in *.
  rewrite length_app, length_map, length_rev.
  rewrite nth_error_app in H.
  destruct (Nat.ltb_spec k (length (bipartition_indices N))) as [Hk|Hk].
  - apply bipartition_indices_nth in H as [H1 H2]; trivial.
    split; [intros [E|E]; [left; tauto|contradiction]|].
    intros [E|E]; [left; tauto|lia].
  - rewrite nth_error_map, nth_error_rev in H.
    destruct (Nat.ltb_spec (k - length (bipartition_indices N))
                (length (bipartition_indices N))) as [Hk'|Hk']; [|discriminate].
    destruct (nth_error (bipartition_indices N) _) as [q|] eqn:Eq; [|discriminate].
    simpl in H. injection H as <-. simpl.
    apply bipartition_indices_nth in Eq as [H1 H2]; trivial.
    split; [intros [E|E]; [contradiction|right; apply H2 in E; lia]|].
    intros [E|E]; [lia|]. right. apply H2. lia.
Qed.

Lemma in_removelast_tl {A} (l : list A) x :
  In x (removelast (tl l)) ->
  exists k, nth_error l k = Some x /\ k <> 0%nat /\ S k <> length l.
Proof.
  intros H. destruct l as [|y l]; [destruct H|]. simpl in H.
  rewrite removelast_firstn_len in H.
  apply In_nth_error in H as [k Hk].
  destruct (Nat.ltb_spec k (pred (length l))) as [Hlt|Hge].
  - rewrite nth_error_firstn in Hk.
    destruct (Nat.ltb_spec k (pred (length l))) as [_|?]; [|lia].
    exists (S k). simpl. repeat split; trivial; lia.
  - assert (E : nth_error (firstn (pred (length l)) l) k = None).
    { apply nth_error_None. rewrite length_firstn. lia. }
    congruence.
Qed.

Lemma Forall2_nth_error {A B} (R : A -> B -> Prop) l l' k y :
  Forall2 R l l' -> nth_error l' k = Some y ->
  exists x, nth_error l k = Some x /\ R x y.
Proof.
  intros F. revert k. induction F as [|a b l l' Hab F IH]; intros k H.
  - destruct k; discriminate.
  - destruct k as [|k]; simpl in *.
    + injection H as <-. eauto.
    + auto.
Qed.

(** C10: with [nontrivial=True] a directed bipartition of a sequence of
    length at least one never has an empty part, and in the index list the
    entries with an empty side are exactly the first and the last one. *)
Theorem directed_bipartition_nontrivial {A} (seq : list A) :
  1 <= Py.len seq ->
  (exists bs, directed_bipartition seq true = Some bs
              /\ forall p, In p bs -> fst p <> [] /\ snd p <> [])
  /\ (forall k p,
        nth_error (directed_bipartition_indices (Py.len seq)) k = Some p ->
        ((fst p = [] \/ snd p = []) <->
         (k = 0%nat \/ S k = length (directed_bipartition_indices (Py.len seq))))).
Proof.
  intros HN. split; [|intros k p; now apply directed_bipartition_indices_nth].
  unfold directed_bipartition.
  destruct (Py.mapM (pick2 seq) (directed_bipartition_indices (Py.len seq)))
    as [l|] eqn:E.
  - exists (removelast (tl l)). split; trivial. intros p Hp.
    apply in_removelast_tl in Hp as (k & Hk & K0 & K1).
    apply mapM_Forall2 in E. pose proof (Forall2_length E) as EL.
    destruct (Forall2_nth_error _ _ _ _ _ E Hk) as (q & Hq & Hpq).
    apply pick2_lengths in Hpq as [L0 L1].
    apply directed_bipartition_indices_nth in Hq; trivial.
    assert (Hne : ~ (fst q = [] \/ snd q = [])) by (rewrite Hq; lia).
    split; intros Ep; rewrite Ep in *; simpl in *.
    + apply Hne. left. now apply length_zero_iff_nil.
    + apply Hne. right. now apply length_zero_iff_nil.
  - destruct (directed_bipartition_total seq false) as [bs Hbs].
    unfold directed_bipartition in Hbs. rewrite E in Hbs. discriminate.
Qed.

Lemma directed_bipartition_nontrivial_witness :
  exists bs, directed_bipartition [1; 2; 3] true = Some bs
             /\ forall p, In p bs -> fst p <> [] /\ snd p <> [].
Proof. apply (directed_bipartition_nontrivial [1; 2; 3]). vm_compute. discriminate. Defined.

Example directed_bipartition_doctest :
  directed_bipartition [1; 2; 3] true =
  Some [([1], [2; 3]); ([2], [1; 3]); ([1; 2], [3]);
        ([3], [1; 2]); ([1; 3], [2]); ([2; 3], [1])].
Proof. reflexivity. Qed.

(** * Properties of the "BI" and "TRI" schemes *)

Lemma truthy_true {A} (s : list A) : Py.truthy s = true <-> s <> [].
Proof. destruct s; simpl; split; congruence. Qed.

Lemma truthy_false {A} (s : list A) : Py.truthy s = false <-> s = [].
Proof. destruct s; simpl; split; congruence. Qed.

Lemma flat_map_if {A B} (c : A -> bool) (f : A -> B) l :
  flat_map (fun x => if c x then [f x] else []) l = map f (filter c l).
Proof.
  induction l as [|x l IH]; simpl; trivial.
  destruct (c x); simpl; now rewrite IH.
Qed.

Lemma bi_cond_spec n d :
  bi_cond n d = true <->
  (fst n <> [] \/ fst d <> []) /\ (snd n <> [] \/ snd d <> []).
Proof.
  unfold bi_cond. rewrite andb_true_iff, !orb_true_iff, !truthy_true. tauto.
Qed.

(** C7: the "BI" scheme yields exactly the pairs of the product of the
    mechanism bipartitions and the directed purview bipartitions in which
    each of the two parts is non-empty on at least one axis; for mechanism
    [(0,)] and purview [(2, 3)] these are three bipartitions. *)
Theorem mip_bipartitions_spec (m p : list Z) :
  (exists ns ds out,
      bipartition m false = Some ns
      /\ directed_bipartition p false = Some ds
      /\ mip_bipartitions m p = Some out
      /\ out = map (fun nd => mk_bipartition (fst nd) (snd nd))
                   (filter (fun nd => bi_cond (fst nd) (snd nd))
                           (list_prod ns ds))
      /\ forall b, In b out <->
                   exists n d, In n ns /\ In d ds /\ b = mk_bipartition n d
                               /\ (fst n <> [] \/ fst d <> [])
                               /\ (snd n <> [] \/ snd d <> []))
  /\ mip_bipartitions [0] [2; 3] =
     Some [ (mkPart [] [2], mkPart [0] [3]);
            (mkPart [] [3], mkPart [0] [2]);
            (mkPart [] [2; 3], mkPart [0] []) ].
Proof.
  split; [|reflexivity].
  destruct (bipartition_total m false) as [ns Hn].
  destruct (directed_bipartition_total p false) as [ds Hd].
  exists ns, ds. eexists. split; [exact Hn|]. split; [exact Hd|].
  unfold mip_bipartitions. rewrite Hn, Hd, flat_map_if.
  split; [reflexivity|]. split; [reflexivity|].
  intros b. rewrite in_map_iff. split.
  - intros ([n d] & <- & H). apply filter_In in H as [H C]. simpl in *.
    apply in_prod_iff in H as [H1 H2]. apply bi_cond_spec in C.
    exists n, d. tauto.
  - intros (n & d & H1 & H2 & -> & C). exists (n, d). split; trivial.
    apply filter_In. split; [now apply in_prod_iff|].
    simpl. apply bi_cond_spec. exact C.
Qed.

(** *** The "TRI" scheme *)

Lemma tri_rec_upper key : forall i j,
  In j (tri_all (tri_rec i key)) -> j < i + Z.of_nat (length key).
Proof.
  induction key as [|x key IH]; intros i j; simpl; [tauto|].
  specialize (IH (i + 1) j).
  destruct (tri_rec (i + 1) key) as [[q0 q1] q2].
  destruct (x =? 0); [|destruct (x =? 1)]; simpl in *;
    rewrite ?in_app_iff in *; simpl; rewrite ?in_app_iff; intros H;
    assert (i = j \/ j < i + 1 + Z.of_nat (length key)) by tauto; lia.
Qed.

Lemma directed_tripartition_indices_range N t i :
  In t (directed_tripartition_indices N) -> In i (tri_all t) -> 0 <= i < N.
Proof.
  unfold directed_tripartition_indices. destruct (N <=? 0) eqn:E; [intros []|].
  rewrite in_map_iff. intros (key & <- & Hk) Hi.
  rewrite tri_parts_rec in Hi. apply product_repeat_in in Hk as [Hl _].
  split; [now apply (tri_rec_lower key)|].
  apply tri_rec_upper in Hi. lia.
Qed.

Lemma directed_tripartition_total {A} (seq : list A) :
  exists ts, directed_tripartition seq = Some ts.
Proof.
  unfold directed_tripartition. apply mapM_total.
  intros [[a b] c] Ht. unfold pick3.
  pose proof (fun i => directed_tripartition_indices_range _ _ i Ht) as R.
  unfold tri_all in R.
  destruct (pick_total seq a) as (pa & -> & _);
    [intros i Hi; apply R; rewrite !in_app_iff; tauto|].
  destruct (pick_total seq b) as (pb & -> & _);
    [intros i Hi; apply R; rewrite !in_app_iff; tauto|].
  destruct (pick_total seq c) as (pc & -> & _);
    [intros i Hi; apply R; rewrite !in_app_iff; tauto|].
  eauto.
Qed.

Lemma mergeable_spec x y : mergeable x y = true <-> mergeable_parts x y.
Proof.
  unfold mergeable, mergeable_parts, nonempty.
  rewrite !andb_true_iff, !orb_true_iff, !negb_true_iff, !truthy_true,
    !truthy_false.
  split.
  - intros [[H1 H2] H3]. split; [|split]; trivial.
    destruct H3 as [H3|H3]; apply app_eq_nil in H3; tauto.
  - intros (H1 & H2 & H3). split; [split|]; trivial.
    destruct H3 as [[-> ->]|[-> ->]]; auto.
Qed.

Lemma compressible_spec t :
  compressible t = true <->
  exists i j x y, (i < j)%nat /\ nth_error (parts_of t) i = Some x
                  /\ nth_error (parts_of t) j = Some y /\ mergeable_parts x y.
Proof.
  destruct t as [[t0 t1] t2]. unfold compressible. simpl.
  rewrite !orb_true_iff, !mergeable_spec. split.
  - intros [H|[H|[H|H]]]; [| | |discriminate].
    + exists 0%nat, 1%nat, t0, t1. auto.
    + exists 0%nat, 2%nat, t0, t2. auto.
    + exists 1%nat, 2%nat, t1, t2. auto.
  - intros (i & j & x & y & Hij & Hi & Hj & M).
    assert (P : forall k z, nth_error [t0; t1; t2] k = Some z ->
                (k = 0%nat /\ z = t0) \/ (k = 1%nat /\ z = t1)
                \/ (k = 2%nat /\ z = t2)).
    { intros [|[|[|k]]] z Hk; simpl in Hk;
        [injection Hk as <-; auto ..|destruct k; discriminate]. }
    apply P in Hi, Hj.
    destruct Hi as [[-> ->]|[[-> ->]|[-> ->]]];
      destruct Hj as [[-> ->]|[[-> ->]|[-> ->]]]; try lia; tauto.
Qed.

Lemma mergeable_parts_sym x y : mergeable_parts x y -> mergeable_parts y x.
Proof. unfold mergeable_parts. tauto. Qed.

(** The loop keeps [yielded] and the output equal as sets, the output
    free of duplicates and of compressible tripartitions. *)
Lemma wedge_fold normalize l : forall yielded out,
  (forall t, In t yielded <-> In t out) -> NoDup out ->
  (forall t, In t out -> compressible t = false) ->
  let st := fold_left (wedge_step normalize) l (yielded, out) in
  NoDup (snd st) /\ forall t, In t (snd st) -> compressible t = false.
Proof.
  induction l as [|nd l IH]; intros yielded out Hy Hn Hc; simpl; [auto|].
  unfold wedge_step at 2.
  set (t := mk_tripartition normalize nd).
  destruct (compressible t) eqn:Ec; simpl; [now apply IH|].
  destruct (in_dec Tripartition_eq_dec t yielded) as [Hin|Hin]; simpl;
    [now apply IH|].
  apply IH.
  - intros u. simpl. rewrite in_app_iff, Hy. simpl. tauto.
  - apply NoDup_app; trivial.
    + constructor; [intros []|constructor].
    + intros u Hu [<-|[]]. apply Hin, Hy, Hu.
  - intros u Hu. apply in_app_iff in Hu as [Hu|[<-|[]]]; auto.
Qed.

(** C5: the "TRI" scheme yields every tripartition at most once, and no
    yielded tripartition has two mergeable parts. *)
Theorem wedge_partitions_unique_incompressible
  (normalize : Tripartition -> Tripartition) (m p : list Z) :
  exists out,
    wedge_partitions normalize m p = Some out
    /\ NoDup out
    /\ forall t i j x y,
         In t out -> i <> j ->
         nth_error (parts_of t) i = Some x ->
         nth_error (parts_of t) j = Some y ->
         ~ mergeable_parts x y.
Proof.
  destruct (bipartition_total m false) as [ns Hn].
  destruct (directed_tripartition_total p) as [ds Hd].
  unfold wedge_partitions. rewrite Hn, Hd. eexists. split; [reflexivity|].
  assert (W : forall t : Tripartition, In t [] <-> In t []) by tauto.
  apply (wedge_fold normalize (filter valid (list_prod ns ds))) in W;
    [|constructor|intros t []].
  cbv zeta in W. destruct W as [ND NC].
  split; [exact ND|].
  intros t i j x y Ht Hij Hi Hj M. apply NC in Ht.
  assert (C : compressible t = true); [|congruence].
  apply compressible_spec.
  destruct (Nat.lt_ge_cases i j) as [L|L].
  - exists i, j, x, y. auto.
  - exists j, i, y, x. split; [lia|]. split; [exact Hj|]. split; [exact Hi|].
    now apply mergeable_parts_sym.
Qed.

(** * Degenerate arguments of [k_partitions] *)

Lemma k_partitions_degenerate {A} (collection : list A) k :
  k < 1 \/ collection = [] -> k_partitions collection k = ([], None).
Proof.
  intros [H| ->]; unfold k_partitions; simpl.
  - destruct (k <? 1) eqn:E; [|lia]. now rewrite orb_true_r.
  - reflexivity.
Qed.

(** C4, the failing case: [k] above the size of the collection is not
    special-cased.  [k_partitions([0, 1], 3)] yields one list of three
    blocks, the first of them empty, and [k_partitions([0], 5)] raises
    [IndexError] while the array is filled. *)
Theorem k_partitions_k_exceeds_size :
  k_partitions [0; 1] 3 = ([[[]; [0]; [1]]], None)
  /\ k_partitions [0] 5 = ([], Some IndexError).
Proof. split; reflexivity. Qed.

(** * Properties of the set partition generator *)

Section SetPartitions.

Context {A : Type}.
Implicit Types (c : list A) (p q s : list (list A)) (x y u v : A).

Lemma partitions_cons x y c :
  _partitions (x :: y :: c) = flat_map (children x) (_partitions (y :: c)).
Proof. reflexivity. Qed.

Lemma insert_at_split x pre b s' :
  insert_at x (pre ++ b :: s') (Z.of_nat (length pre), b)
  = pre ++ (x :: b) :: s'.
Proof.
  unfold insert_at. rewrite Nat2Z.id.
  replace (Z.to_nat (Z.of_nat (length pre) + 1)) with (length pre + 1)%nat by lia.
  rewrite firstn_app, firstn_all, Nat.sub_diag, firstn_O, app_nil_r.
  rewrite skipn_app, skipn_all2 by lia.
  replace (length pre + 1 - length pre)%nat with 1%nat by lia.
  reflexivity.
Qed.

Lemma children_ins_gen x s : forall pre,
  map (insert_at x (pre ++ s))
      (combine (map Z.of_nat (seq (length pre) (length s))) s)
  = ins_all x pre s.
Proof.
  induction s as [|b s IH]; intros pre; trivial.
  cbn [length seq map combine ins_all].
  rewrite insert_at_split. f_equal.
  specialize (IH (pre ++ [b])). rewrite <- app_assoc in IH. simpl in IH.
  rewrite <- IH. rewrite length_app. simpl.
  now replace (length pre + 1)%nat with (S (length pre)) by lia.
Qed.

Lemma children_ins x s : children x s = ins_all x [] s ++ [[x] :: s].
Proof.
  unfold children. f_equal. unfold Py.enumerate, Py.range, Py.len.
  rewrite Nat2Z.id. apply (children_ins_gen x s []).
Qed.

Lemma in_ins_all x s : forall pre p,
  In p (ins_all x pre s) <->
  exists s1 b s2, s = s1 ++ b :: s2 /\ p = pre ++ s1 ++ (x :: b) :: s2.
Proof.
  induction s as [|b s IH]; intros pre p; simpl.
  - split; [tauto|]. intros (s1 & b & s2 & E & _). now destruct s1.
  - rewrite IH. split.
    + intros [<-|(s1 & b' & s2 & -> & ->)].
      * exists [], b, s. auto.
      * exists (b :: s1), b', s2. rewrite <- app_assoc. auto.
    + intros (s1 & b' & s2 & E & ->). destruct s1 as [|b0 s1]; simpl in E.
      * injection E as -> ->. now left.
      * injection E as -> ->. right. exists s1, b', s2.
        rewrite <- app_assoc. auto.
Qed.

Lemma in_children x s p :
  In p (children x s) <->
  p = [x] :: s
  \/ exists s1 b s2, s = s1 ++ b :: s2 /\ p = s1 ++ (x :: b) :: s2.
Proof.
  rewrite children_ins, in_app_iff, in_ins_all. simpl. split.
  - intros [H|[<-|[]]]; auto.
  - intros [->|H]; auto.
Qed.

(** *** Validity of every result *)

Lemma is_partition_child x c s p :
  is_partition c s -> In p (children x s) -> is_partition (x :: c) p.
Proof.
  intros [Hne Hp] H. apply in_children in H as [->|(s1 & b & s2 & -> & ->)].
  - split.
    + intros b [<-|Hb]; [discriminate|auto].
    + simpl. now constructor.
  - split.
    + intros b' Hb'. apply in_app_iff in Hb' as [Hb'|[<-|Hb']];
        [| discriminate |]; apply Hne; rewrite in_app_iff; simpl; auto.
    + rewrite concat_app in *. simpl in *.
      apply Permutation_sym, Permutation_cons_app, Permutation_sym. exact Hp.
Qed.

Lemma partitions_valid c p : In p (_partitions c) -> is_partition c p.
Proof.
  revert p. induction c as [|x c IH]; intros p H; [destruct H|].
  destruct c as [|y c].
  - destruct H as [<-|[]]. split.
    + intros b [<-|[]]. discriminate.
    + simpl. apply Permutation_refl.
  - rewrite partitions_cons in H. apply in_flat_map in H as (s & Hs & H).
    eapply is_partition_child; eauto.
Qed.

Lemma is_partition_length c p : is_partition c p -> (length p <= length c)%nat.
Proof.
  intros [Hne Hp]. rewrite <- (Permutation_length Hp). clear Hp.
  induction p as [|b p IH]; simpl; trivial.
  rewrite length_app. destruct b as [|z b].
  - exfalso. apply (Hne []); simpl; auto.
  - simpl. assert (length p <= length (concat p))%nat; [|lia].
    apply IH. intros b' Hb'. apply Hne. now right.
Qed.

(** *** The first result and the two base cases *)

Lemma partitions_head x c : hd_error (_partitions (x :: c)) = Some [x :: c].
Proof.
  revert x. induction c as [|y c IH]; intros x; trivial.
  rewrite partitions_cons. specialize (IH y).
  destruct (_partitions (y :: c)) as [|s L]; [discriminate|].
  injection IH as ->. cbn [flat_map]. rewrite children_ins. reflexivity.
Qed.

(** *** Counting by number of blocks *)

Lemma count_blocks_app k (l1 l2 : list (list (list A))) :
  count_blocks k (l1 ++ l2) = (count_blocks k l1 + count_blocks k l2)%nat.
Proof. unfold count_blocks. now rewrite filter_app, length_app. Qed.

Lemma count_blocks_ins x s k : forall pre,
  count_blocks k (ins_all x pre s)
  = if Nat.eqb (length pre + length s) k then length s else 0%nat.
Proof.
  induction s as [|b s IH]; intros pre; simpl.
  - now destruct (Nat.eqb _ _).
  - unfold count_blocks in *. cbn [ins_all filter].
    specialize (IH (pre ++ [b])). rewrite !length_app in *. cbn [length] in *.
    replace (length pre + 1 + length s)%nat
      with (length pre + S (length s))%nat in IH by lia.
    destruct (Nat.eqb (length pre + S (length s)) k); cbn [length];
      rewrite IH; reflexivity.
Qed.

Lemma count_blocks_children x s k :
  count_blocks (S k) (children x s)
  = ((if Nat.eqb (length s) (S k) then S k else 0)
     + (if Nat.eqb (length s) k then 1 else 0))%nat.
Proof.
  rewrite children_ins, count_blocks_app, count_blocks_ins. simpl.
  f_equal.
  - destruct (Nat.eqb_spec (length s) (S k)) as [->|]; reflexivity.
  - unfold count_blocks. simpl. now destruct (Nat.eqb (length s) k).
Qed.

Lemma count_blocks_children_0 x s : count_blocks 0 (children x s) = 0%nat.
Proof.
  rewrite children_ins, count_blocks_app, count_blocks_ins. simpl.
  destruct (Nat.eqb_spec (length s) 0) as [->|]; reflexivity.
Qed.

Lemma count_blocks_flat_map x k (L : list (list (list A))) :
  count_blocks (S k) (flat_map (children x) L)
  = (S k * count_blocks (S k) L + count_blocks k L)%nat.
Proof.
  induction L as [|s L IH]; [simpl; unfold count_blocks; simpl; lia|].
  simpl flat_map. rewrite count_blocks_app, IH, count_blocks_children.
  unfold count_blocks. simpl.
  destruct (Nat.eqb (length s) (S k)), (Nat.eqb (length s) k); simpl; lia.
Qed.

Lemma count_blocks_flat_map_0 x (L : list (list (list A))) :
  count_blocks 0 (flat_map (children x) L) = 0%nat.
Proof.
  induction L as [|s L IH]; trivial.
  simpl flat_map. now rewrite count_blocks_app, IH, count_blocks_children_0.
Qed.

Lemma stirling2_0_l k : stirling2 0 (S k) = 0%nat.
Proof. reflexivity. Qed.

Lemma partitions_count x c k :
  count_blocks k (_partitions (x :: c)) = stirling2 (length (x :: c)) k.
Proof.
  revert x k. induction c as [|y c IH]; intros x k.
  - destruct k as [|[|k]]; unfold count_blocks; simpl; lia.
  - rewrite partitions_cons. destruct k as [|k].
    + apply count_blocks_flat_map_0.
    + rewrite count_blocks_flat_map, !IH. reflexivity.
Qed.

Lemma sum_upto_indicator_0 m n :
  (n < m)%nat ->
  sum_upto (fun k => if Nat.eqb m k then 1 else 0)%nat n = 0%nat.
Proof.
  induction n as [|n IH]; intros H; cbn [sum_upto].
  - destruct (Nat.eqb_spec m 0); lia.
  - rewrite IH by lia. destruct (Nat.eqb_spec m (S n)); lia.
Qed.

Lemma sum_upto_indicator m n :
  (m <= n)%nat ->
  sum_upto (fun k => if Nat.eqb m k then 1 else 0)%nat n = 1%nat.
Proof.
  induction n as [|n IH]; intros H; cbn [sum_upto].
  - destruct (Nat.eqb_spec m 0); lia.
  - destruct (Nat.eqb_spec m (S n)) as [->|Hne].
    + rewrite sum_upto_indicator_0; lia.
    + rewrite IH by lia. lia.
Qed.

Lemma sum_upto_add f g n :
  sum_upto (fun k => f k + g k)%nat n = (sum_upto f n + sum_upto g n)%nat.
Proof. induction n as [|n IH]; simpl; lia. Qed.

Lemma sum_upto_ext f g n :
  (forall k, f k = g k) -> sum_upto f n = sum_upto g n.
Proof. intros H. induction n as [|n IH]; simpl; congruence. Qed.

Lemma length_sum_count n (l : list (list (list A))) :
  (forall p, In p l -> (length p <= n)%nat) ->
  length l = sum_upto (fun k => count_blocks k l) n.
Proof.
  induction l as [|p l IH]; intros H.
  - unfold count_blocks. simpl. clear H.
    induction n as [|n IHn]; cbn [sum_upto]; [reflexivity|]. now rewrite <- IHn.
  - change (length (p :: l)) with (1 + length l)%nat.
    rewrite IH by (intros; apply H; now right).
    rewrite <- (sum_upto_indicator (length p) n) by (apply H; now left).
    rewrite <- sum_upto_add. apply sum_upto_ext. intros k.
    unfold count_blocks. cbn [filter].
    destruct (Nat.eqb (length p) k); cbn [length]; lia.
Qed.

Lemma partitions_length x c :
  length (_partitions (x :: c)) = bell (length (x :: c)).
Proof.
  rewrite (length_sum_count (length (x :: c))).
  - unfold bell. apply sum_upto_ext. intros k. apply partitions_count.
  - intros p Hp. apply is_partition_length. now apply partitions_valid.
Qed.

(** *** Elements lying in a common block *)

Lemma together_sym p u v : together p u v -> together p v u.
Proof. intros (b & H1 & H2 & H3). exists b. auto. Qed.

Lemma together_split s1 b s2 u v :
  together (s1 ++ b :: s2) u v <->
  (In u b /\ In v b) \/ together (s1 ++ s2) u v.
Proof.
  unfold together. split.
  - intros (B & HB & Hu & Hv). apply in_app_iff in HB as [HB|[<-|HB]]; auto;
      right; exists B; rewrite in_app_iff; auto.
  - intros [[Hu Hv]|(B & HB & Hu & Hv)].
    + exists b. rewrite in_app_iff. simpl. auto.
    + exists B. rewrite in_app_iff in *. simpl. tauto.
Qed.

Lemma together_cons b s u v :
  together (b :: s) u v <-> (In u b /\ In v b) \/ together s u v.
Proof. apply (together_split [] b s). Qed.

Lemma together_in p u v :
  together p u v -> In u (concat p) /\ In v (concat p).
Proof.
  intros (b & Hb & Hu & Hv). split; apply in_concat; eauto.
Qed.

Lemma concat_split s1 (b : list A) s2 :
  concat (s1 ++ b :: s2) = concat s1 ++ b ++ concat s2.
Proof. now rewrite concat_app. Qed.

Lemma in_concat_split s1 (b : list A) s2 u :
  In u (concat (s1 ++ b :: s2)) <-> In u b \/ In u (concat (s1 ++ s2)).
Proof. rewrite concat_split, concat_app, !in_app_iff. tauto. Qed.

Lemma NoDup_app_disjoint (l1 l2 : list A) u :
  NoDup (l1 ++ l2) -> In u l1 -> In u l2 -> False.
Proof.
  induction l1 as [|a l1 IH]; simpl; intros H H1 H2; [trivial|].
  inversion H as [|? ? Ha Hn]; subst. destruct H1 as [->|H1]; [|auto].
  apply Ha. apply in_app_iff. auto.
Qed.

(** In a partition without repeated elements an element of a block lies
    in no other block. *)
Lemma block_alone s1 b s2 u :
  NoDup (concat (s1 ++ b :: s2)) -> In u b -> ~ In u (concat (s1 ++ s2)).
Proof.
  rewrite concat_split, concat_app. intros H Hu Hin.
  apply in_app_iff in Hin as [Hin|Hin].
  - eapply NoDup_app_disjoint; [exact H|exact Hin|].
    apply in_app_iff. auto.
  - apply NoDup_app_remove_l in H.
    eapply NoDup_app_disjoint; eauto.
Qed.

Lemma together_block s1 b s2 u v :
  NoDup (concat (s1 ++ b :: s2)) -> In u b ->
  (together (s1 ++ b :: s2) u v <-> In v b).
Proof.
  intros H Hu. rewrite together_split. split; [|auto].
  intros [[_ Hv]|T]; trivial.
  apply together_in in T as [T _]. exfalso. eapply block_alone; eauto.
Qed.

(** Putting [x] into a partition of the rest does not change which of the
    other elements lie together. *)
Lemma child_restrict x s p u v :
  ~ In x (concat s) -> In p (children x s) -> u <> x -> v <> x ->
  (together p u v <-> together s u v).
Proof.
  intros Hx Hp Hu Hv. apply in_children in Hp as [->|(s1 & b & s2 & -> & ->)].
  - rewrite together_cons. simpl. intuition congruence.
  - rewrite !together_split. simpl. intuition congruence.
Qed.

Lemma child_alone x s v :
  ~ In x (concat s) -> (together ([x] :: s) x v <-> v = x).
Proof.
  intros Hx. rewrite together_cons. simpl. split.
  - intros [[_ [E|[]]]|T]; [auto|]. apply together_in in T. tauto.
  - intros ->. auto.
Qed.

Lemma child_block x s1 b s2 v :
  ~ In x (concat (s1 ++ b :: s2)) ->
  (together (s1 ++ (x :: b) :: s2) x v <-> v = x \/ In v b).
Proof.
  intros Hx. rewrite together_split. simpl. split.
  - intros [[_ [E|Hv]]|T]; auto.
    apply together_in in T as [T _]. exfalso. apply Hx.
    apply in_concat_split. auto.
  - intros [->|Hv]; auto.
Qed.

(** *** No partition is produced twice *)

Lemma all_distinct_app (l1 l2 : list (list (list A))) :
  all_distinct l1 -> all_distinct l2 ->
  (forall p q, In p l1 -> In q l2 -> ~ same_partition p q) ->
  all_distinct (l1 ++ l2).
Proof.
  intros H1 H2 H. induction H1 as [|p l Hp H1 IH]; simpl; trivial.
  constructor.
  - intros q Hq. apply in_app_iff in Hq as [Hq|Hq]; [auto|].
    apply H; simpl; auto.
  - apply IH. intros p' q Hp' Hq. apply H; simpl; auto.
Qed.

Lemma ins_all_distinct x s : forall pre,
  NoDup (concat (pre ++ s)) -> ~ In x (concat (pre ++ s)) ->
  (forall b, In b s -> b <> []) ->
  all_distinct (ins_all x pre s).
Proof.
  induction s as [|b s IH]; intros pre Hn Hx Hne; simpl; [constructor|].
  constructor.
  - intros q Hq S. apply in_ins_all in Hq as (t1 & b' & t2 & -> & ->).
    destruct b as [|u b0] eqn:Eb; [apply (Hne []); simpl; auto|].
    rewrite <- Eb in *. assert (Hu : In u b) by (rewrite Eb; simpl; auto).
    assert (T : together (pre ++ (x :: b) :: t1 ++ b' :: t2) x u).
    { apply child_block; auto. }
    apply S in T.
    replace ((pre ++ [b]) ++ t1 ++ (x :: b') :: t2)
      with ((pre ++ b :: t1) ++ (x :: b') :: t2) in T
      by (rewrite <- !app_assoc; reflexivity).
    apply child_block in T.
    + destruct T as [->|Hu'].
      * apply Hx. apply in_concat_split. auto.
      * replace (pre ++ b :: t1 ++ b' :: t2)
          with ((pre ++ b :: t1) ++ b' :: t2) in Hn
          by (rewrite <- !app_assoc; reflexivity).
        apply (block_alone _ _ _ u Hn Hu').
        rewrite <- app_assoc. simpl. apply in_concat_split. auto.
    + rewrite <- app_assoc. exact Hx.
  - apply IH.
    + rewrite <- app_assoc. exact Hn.
    + rewrite <- app_assoc. exact Hx.
    + intros b' Hb'. apply Hne. now right.
Qed.

Lemma children_distinct x s :
  NoDup (concat s) -> ~ In x (concat s) -> (forall b, In b s -> b <> []) ->
  all_distinct (children x s).
Proof.
  intros Hn Hx Hne. rewrite children_ins. apply all_distinct_app.
  - now apply ins_all_distinct.
  - constructor; [intros q []|constructor].
  - intros p q Hp [<-|[]] S.
    apply in_ins_all in Hp as (s1 & b & s2 & -> & ->). simpl in *.
    destruct b as [|u b0] eqn:Eb;
      [apply (Hne []); [rewrite in_app_iff; simpl; auto|reflexivity]|].
    rewrite <- Eb in *. assert (Hu : In u b) by (rewrite Eb; simpl; auto).
    assert (T : together (s1 ++ (x :: b) :: s2) x u) by (apply child_block; auto).
    apply S, child_alone in T; trivial. subst u.
    apply Hx, in_concat_split. auto.
Qed.

Lemma children_parents x s s' p q :
  ~ In x (concat s) -> ~ In x (concat s') ->
  In p (children x s) -> In q (children x s') ->
  same_partition p q -> same_partition s s'.
Proof.
  intros Hs Hs' Hp Hq S u v. split; intros T.
  - pose proof (together_in _ _ _ T) as [Iu Iv].
    assert (u <> x) by congruence. assert (v <> x) by congruence.
    apply (child_restrict x s' q); trivial. apply S.
    apply (child_restrict x s p); trivial.
  - pose proof (together_in _ _ _ T) as [Iu Iv].
    assert (u <> x) by congruence. assert (v <> x) by congruence.
    apply (child_restrict x s p); trivial. apply S.
    apply (child_restrict x s' q); trivial.
Qed.

Lemma flat_map_children_distinct x (L : list (list (list A))) :
  all_distinct L ->
  (forall s, In s L -> NoDup (concat s) /\ ~ In x (concat s)
                       /\ forall b, In b s -> b <> []) ->
  all_distinct (flat_map (children x) L).
Proof.
  intros HL. induction HL as [|s L Hs HL IH]; intros H; simpl; [constructor|].
  destruct (H s) as (Hn & Hx & Hne); [simpl; auto|].
  apply all_distinct_app.
  - now apply children_distinct.
  - apply IH. intros s' Hs'. apply H. now right.
  - intros p q Hp Hq S. apply in_flat_map in Hq as (s' & Hs' & Hq).
    apply (Hs s' Hs').
    destruct (H s') as (_ & Hx' & _); [simpl; auto|].
    eapply children_parents; eauto.
Qed.

Lemma partitions_distinct c : NoDup c -> all_distinct (_partitions c).
Proof.
  induction c as [|x c IH]; intros Hc; [constructor|].
  destruct c as [|y c].
  - constructor; [intros q []|constructor].
  - rewrite partitions_cons. inversion Hc as [|? ? Hx Hc']; subst.
    apply flat_map_children_distinct; [auto|].
    intros s Hs. apply partitions_valid in Hs as [Hne Hp].
    repeat split.
    + eapply Permutation_NoDup; [apply Permutation_sym; exact Hp|exact Hc'].
    + intros Hin. apply Hx. eapply Permutation_in; eauto.
    + exact Hne.
Qed.


(** *** Every partition is produced *)

(** Every way of labelling the elements is realised: some result puts two
    elements together exactly when they carry the same label. *)
Lemma partitions_complete_lab c (lab : A -> nat) :
  c <> [] -> NoDup c ->
  exists p, In p (_partitions c)
            /\ forall u v, In u c -> In v c ->
                           (together p u v <-> lab u = lab v).
Proof.
  induction c as [|x c IH]; intros Hne Hc; [congruence|].
  destruct c as [|y c].
  - exists [[x]]. split; [simpl; auto|].
    intros u v [<-|[]] [<-|[]]. split; trivial.
    intros _. exists [x]. simpl. auto.
  - inversion Hc as [|? ? Hx Hc']; subst.
    destruct IH as (s & Hs & Hlab); [discriminate|exact Hc'|].
    pose proof (partitions_valid _ _ Hs) as [Hbne Hperm].
    assert (Hn : NoDup (concat s))
      by (eapply Permutation_NoDup; [apply Permutation_sym; exact Hperm|exact Hc']).
    assert (Hxs : ~ In x (concat s))
      by (intros Hin; apply Hx; eapply Permutation_in; eauto).
    assert (Hneq : forall u, In u (y :: c) -> u <> x) by (intros u Hu ->; auto).
    rewrite partitions_cons.
    destruct (existsb (fun u => Nat.eqb (lab u) (lab x)) (y :: c)) eqn:E.
    + apply existsb_exists in E as (u0 & Hu0 & E). apply Nat.eqb_eq in E.
      assert (Hin : In u0 (concat s))
        by (eapply Permutation_in; [apply Permutation_sym; exact Hperm|exact Hu0]).
      apply in_concat in Hin as (b & Hb & Hub).
      apply in_split in Hb as (s1 & s2 & ->).
      exists (s1 ++ (x :: b) :: s2). split.
      * apply in_flat_map. exists (s1 ++ b :: s2). split; trivial.
        apply in_children. right. exists s1, b, s2. auto.
      * assert (K : forall v, In v (y :: c) ->
                      (together (s1 ++ (x :: b) :: s2) x v <-> lab x = lab v)).
        { intros v Hv. rewrite child_block by trivial.
          rewrite <- E, <- (Hlab u0 v Hu0 Hv), (together_block s1 b s2 u0 v Hn Hub).
          specialize (Hneq v Hv). tauto. }
        intros u v [<-|Hu] [<-|Hv].
        -- split; trivial. intros _. apply child_block; auto.
        -- now apply K.
        -- split; intros H.
           ++ symmetry. apply K; trivial. now apply together_sym.
           ++ apply together_sym, K; auto.
        -- rewrite <- (Hlab u v Hu Hv).
           apply (child_restrict x (s1 ++ b :: s2)); auto.
           apply in_children. right. exists s1, b, s2. auto.
    + assert (F : forall u, In u (y :: c) -> lab u <> lab x).
      { intros u Hu Eq.
        assert (existsb (fun u => Nat.eqb (lab u) (lab x)) (y :: c) = true);
          [|congruence].
        apply existsb_exists. exists u. split; trivial. now apply Nat.eqb_eq. }
      exists ([x] :: s). split.
      * apply in_flat_map. exists s. split; trivial.
        apply in_children. now left.
      * assert (K : forall v, In v (y :: c) ->
                      (together ([x] :: s) x v <-> lab x = lab v)).
        { intros v Hv. rewrite child_alone by trivial.
          specialize (Hneq v Hv). specialize (F v Hv).
          split; [congruence|]. intros Eq. symmetry in Eq. contradiction. }
        intros u v [<-|Hu] [<-|Hv].
        -- split; trivial. intros _. apply child_alone; auto.
        -- now apply K.
        -- split; intros H.
           ++ symmetry. apply K; trivial. now apply together_sym.
           ++ apply together_sym, K; auto.
        -- rewrite <- (Hlab u v Hu Hv).
           apply (child_restrict x s); auto. apply in_children. now left.
Qed.

Variable eq_dec : forall x y : A, {x = y} + {x <> y}.

Lemma block_index_together q u v :
  NoDup (concat q) -> In u (concat q) -> In v (concat q) ->
  (together q u v <-> block_index eq_dec q u = block_index eq_dec q v).
Proof.
  induction q as [|b q IH]; intros Hn Hu Hv; [destruct Hu|].
  simpl in Hn, Hu, Hv. rewrite together_cons. simpl.
  pose proof (NoDup_app_remove_l _ _ Hn) as Hn'.
  apply in_app_iff in Hu, Hv.
  destruct (in_dec eq_dec u b) as [Ub|Ub], (in_dec eq_dec v b) as [Vb|Vb].
  - tauto.
  - split; [|discriminate]. intros [[_ ?]|T]; [contradiction|].
    apply together_in in T as [T _]. exfalso.
    eapply NoDup_app_disjoint; eauto.
  - split; [|discriminate]. intros [[? _]|T]; [contradiction|].
    apply together_in in T as [_ T]. exfalso.
    eapply NoDup_app_disjoint; eauto.
  - split.
    + intros [[? _]|T]; [contradiction|]. f_equal. apply IH; tauto.
    + intros H. injection H as H. right. apply IH; tauto.
Qed.

Lemma partitions_complete c q :
  c <> [] -> NoDup c -> is_partition c q ->
  exists p, In p (_partitions c) /\ same_partition p q.
Proof.
  intros Hne Hc [Hq Hperm].
  destruct (partitions_complete_lab c (block_index eq_dec q) Hne Hc)
    as (p & Hp & Hlab).
  exists p. split; trivial.
  pose proof (partitions_valid _ _ Hp) as [_ Hperm'].
  assert (Hn : NoDup (concat q))
    by (eapply Permutation_NoDup; [apply Permutation_sym; exact Hperm|exact Hc]).
  assert (Q : forall u, In u c -> In u (concat q))
    by (intros u Hu; eapply Permutation_in; [apply Permutation_sym; exact Hperm|exact Hu]).
  intros u v. split; intros T; pose proof (together_in _ _ _ T) as [Iu Iv].
  - assert (Cu : In u c) by (apply (Permutation_in _ Hperm' Iu)).
    assert (Cv : In v c) by (apply (Permutation_in _ Hperm' Iv)).
    apply block_index_together; auto. now apply Hlab.
  - assert (Cu : In u c) by (apply (Permutation_in _ Hperm Iu)).
    assert (Cv : In v c) by (apply (Permutation_in _ Hperm Iv)).
    apply Hlab; trivial. apply block_index_together; auto.
Qed.

(** C8: [partitions] yields nothing for the empty collection and the one
    block for a single element; for a non-empty collection it yields
    Bell-number-many results, each a partition of the collection, the
    first of them the one-block partition, which is the only one that
    [nontrivial=True] drops; when the elements are distinct, every
    partition of the collection is among the results, and no two results
    are the same partition. *)
Theorem partitions_spec c :
  c <> [] ->
  partitions (@nil A) false = []
  /\ (forall x, partitions [x] false = [[[x]]])
  /\ length (partitions c false) = bell (length c)
  /\ (forall p, In p (partitions c false) -> is_partition c p)
  /\ partitions c false = [c] :: partitions c true
  /\ (NoDup c ->
      (forall q, is_partition c q ->
                 exists p, In p (partitions c false) /\ same_partition p q)
      /\ all_distinct (partitions c false)).
Proof.
  intros Hne. unfold partitions.
  split; [reflexivity|]. split; [reflexivity|].
  split; [|split; [|split]].
  - destruct c as [|x c]; [congruence|]. apply partitions_length.
  - apply partitions_valid.
  - destruct c as [|x c]; [congruence|].
    pose proof (partitions_head x c) as H.
    destruct (_partitions (x :: c)) as [|p l]; [discriminate|].
    injection H as ->. reflexivity.
  - intros Hc. split.
    + intros q. now apply partitions_complete.
    + now apply partitions_distinct.
Qed.

End SetPartitions.

Lemma partitions_spec_witness :
  length (partitions [0; 1; 2] false) = bell 3
  /\ partitions [0; 1; 2] false = [[0; 1; 2]] :: partitions [0; 1; 2] true.
Proof.
  assert (E : [0; 1; 2] <> []) by discriminate.
  pose proof (partitions_spec Z.eq_dec [0; 1; 2] E) as H.
  split; apply H.
Defined.

(** The doctest of [_partitions]. *)
Example partitions_doctest :
  partitions [0; 1; 2] false =
  [ [[0; 1; 2]]; [[0]; [1; 2]]; [[0; 1]; [2]]; [[1]; [0; 2]]; [[0]; [1]; [2]] ].
Proof. reflexivity. Qed.

(** * Properties of the k-partition generator *)

(** *** Running generator bodies *)

Lemma andthen_ok {Y} (m1 m2 : gen Y) a ys1 a1 ys2 r :
  m1 a = (ys1, inr a1) -> m2 a1 = (ys2, r) ->
  (m1 ;; m2) a = (ys1 ++ ys2, r).
Proof. intros H1 H2. unfold andthen. now rewrite H1, H2. Qed.

Lemma andthen_ok_nil {Y} (m1 m2 : gen Y) a a1 ys r :
  m1 a = ([], inr a1) -> m2 a1 = (ys, r) -> (m1 ;; m2) a = (ys, r).
Proof. intros H1 H2. unfold andthen. now rewrite H1, H2. Qed.

Lemma andthen_ok_r {Y} (m1 m2 : gen Y) a a1 ys r :
  m1 a = (ys, inr a1) -> m2 a1 = ([], r) -> (m1 ;; m2) a = (ys, r).
Proof.
  intros H1 H2. unfold andthen. now rewrite H1, H2, app_nil_r.
Qed.

Lemma read_ok {Y} i (k : Z -> gen Y) a v :
  Py.getitem a i = Some v -> read i k a = k v a.
Proof. intros H. unfold read. now rewrite H. Qed.

Lemma assign_ok {Y} i v a a' :
  Py.setitem a i v = Some a' -> @assign Y i v a = ([], inr a').
Proof. intros H. unfold assign. now rewrite H. Qed.

Lemma update_app {X} (l1 : list X) x l2 v :
  Py.update (l1 ++ x :: l2) (length l1) v = l1 ++ v :: l2.
Proof. induction l1 as [|y l1 IH]; simpl; [reflexivity|now rewrite IH]. Qed.

(** Position [length pre + 1] of the array [a0 :: pre ++ x :: suf]. *)
Lemma get_at a0 (pre : list Z) x suf i :
  i = Z.of_nat (length pre) + 1 ->
  Py.getitem (a0 :: pre ++ x :: suf) i = Some x.
Proof.
  intros ->. unfold Py.getitem.
  destruct (Z.ltb_spec (Z.of_nat (length pre) + 1) 0); [lia|].
  replace (Z.to_nat (Z.of_nat (length pre) + 1)) with (S (length pre)) by lia.
  simpl. rewrite nth_error_app2 by lia. now rewrite Nat.sub_diag.
Qed.

Lemma set_at a0 (pre : list Z) x suf i v :
  i = Z.of_nat (length pre) + 1 ->
  Py.setitem (a0 :: pre ++ x :: suf) i v = Some (a0 :: pre ++ v :: suf).
Proof.
  intros ->. unfold Py.setitem, Py.len.
  destruct (Z.ltb_spec (Z.of_nat (length pre) + 1) 0); [lia|].
  simpl length. rewrite length_app. simpl length.
  destruct (Z.ltb_spec (Z.of_nat (length pre) + 1)
              (Z.of_nat (S (length pre + S (length suf))))); [|lia].
  replace (Z.to_nat (Z.of_nat (length pre) + 1)) with (S (length pre)) by lia.
  simpl. now rewrite update_app.
Qed.

(** *** The strings at which the sweeps start and stop *)

Lemma iota_length m : length (iota m) = m.
Proof. unfold iota. now rewrite length_map, length_seq. Qed.

Lemma iota_S m : iota (S m) = iota m ++ [Z.of_nat m].
Proof. unfold iota. now rewrite seq_S, map_app. Qed.

Lemma repeat_snoc {X} (x : X) j : repeat x (S j) = repeat x j ++ [x].
Proof. simpl. apply repeat_cons. Qed.

Lemma first_rgs_length mu nu : (mu <= nu)%nat -> length (first_rgs mu nu) = nu.
Proof.
  intros H. unfold first_rgs. rewrite length_app, repeat_length, iota_length. lia.
Qed.

Lemma last_rgs_length mu nu sigma :
  (mu <= nu)%nat -> length (last_rgs mu nu sigma) = nu.
Proof.
  intros H. unfold last_rgs. destruct (sigma && Nat.ltb mu nu) eqn:E.
  - apply andb_true_iff in E as [_ E]. apply Nat.ltb_lt in E.
    rewrite !length_app, repeat_length, iota_length. simpl. lia.
  - rewrite length_app, repeat_length, iota_length. lia.
Qed.

Lemma first_rgs_S m n' :
  (m <= n')%nat -> first_rgs (S m) (S n') = first_rgs m n' ++ [Z.of_nat m].
Proof.
  intros H. unfold first_rgs. simpl Nat.sub. now rewrite iota_S, app_assoc.
Qed.

Lemma first_rgs_diag m : first_rgs m m = iota m.
Proof. unfold first_rgs. now rewrite Nat.sub_diag. Qed.

Lemma last_rgs_diag m sigma : last_rgs m m sigma = iota m.
Proof.
  unfold last_rgs. rewrite Nat.ltb_irrefl, andb_false_r, Nat.sub_diag.
  apply app_nil_r.
Qed.

(** Just above the diagonal the stop string does not depend on [sigma]. *)
Lemma last_rgs_succ m sigma : last_rgs m (S m) sigma = iota m ++ [0].
Proof.
  unfold last_rgs. destruct (sigma && Nat.ltb m (S m)).
  - replace (S m - m - 1)%nat with 0%nat by lia. reflexivity.
  - replace (S m - m)%nat with 1%nat by lia. reflexivity.
Qed.

Lemma last_rgs_false_eq m n' :
  last_rgs m n' false = iota m ++ repeat 0 (n' - m).
Proof. reflexivity. Qed.

Lemma last_rgs_true m n' :
  (m < n')%nat ->
  last_rgs m n' true = (repeat 0 (n' - m - 1) ++ iota m) ++ [0].
Proof.
  intros H. unfold last_rgs. apply Nat.ltb_lt in H. rewrite H. simpl.
  now rewrite app_assoc.
Qed.

Lemma last_rgs_false m n' :
  (m < n')%nat ->
  last_rgs m n' false = iota m ++ 0 :: repeat 0 (n' - m - 1).
Proof.
  intros H. unfold last_rgs. simpl.
  remember (n' - m - 1)%nat as d.
  replace (n' - m)%nat with (S d) by lia. reflexivity.
Qed.

(** The stop string of the last block, followed by the value [0]. *)
Lemma last_rgs_S mu n' (sigma : bool) :
  (mu <= n')%nat ->
  (if sigma then first_rgs mu n' else last_rgs mu n' false) ++ [0]
  = last_rgs mu (S n') sigma.
Proof.
  intros H. unfold last_rgs, first_rgs.
  assert (E : Nat.ltb mu (S n') = true) by (apply Nat.ltb_lt; lia).
  rewrite E, andb_true_r. destruct sigma; simpl andb; cbv iota.
  - replace (S n' - mu - 1)%nat with (n' - mu)%nat by lia.
    now rewrite <- app_assoc.
  - replace (S n' - mu)%nat with (S (n' - mu)) by lia.
    now rewrite repeat_snoc, <- !app_assoc.
Qed.

(** [a[nu - 1] = mu - 1] and [a[mu] = mu - 1] in [_f], [a[nu - 1] = 0] and
    [a[mu] = 0] in [_b]: each turns a stop string for [mu - 1] values into
    a start or stop string for [mu] values, or back. *)
Lemma set_last_true a0 m n' x suf :
  (m < n')%nat ->
  Py.setitem (a0 :: last_rgs m n' true ++ x :: suf) (Z.of_nat n') (Z.of_nat m)
  = Some (a0 :: first_rgs (S m) n' ++ x :: suf).
Proof.
  intros H. rewrite last_rgs_true by trivial. unfold first_rgs.
  rewrite iota_S. replace (n' - S m)%nat with (n' - m - 1)%nat by lia.
  rewrite (app_assoc (repeat 0 _)), <- !(app_assoc (repeat 0 _ ++ iota m)).
  cbn [app].
  rewrite set_at by (rewrite length_app, repeat_length, iota_length; lia).
  reflexivity.
Qed.

Lemma set_first_zero a0 m n' x suf :
  (m < n')%nat ->
  Py.setitem (a0 :: first_rgs (S m) n' ++ x :: suf) (Z.of_nat n') 0
  = Some (a0 :: last_rgs m n' true ++ x :: suf).
Proof.
  intros H. rewrite last_rgs_true by trivial. unfold first_rgs.
  rewrite iota_S. replace (n' - S m)%nat with (n' - m - 1)%nat by lia.
  rewrite (app_assoc (repeat 0 _)), <- !(app_assoc (repeat 0 _ ++ iota m)).
  cbn [app].
  rewrite set_at by (rewrite length_app, repeat_length, iota_length; lia).
  reflexivity.
Qed.

Lemma set_last_false a0 m n' x suf :
  (m < n')%nat ->
  Py.setitem (a0 :: last_rgs m n' false ++ x :: suf)
    (Z.of_nat (S m)) (Z.of_nat m)
  = Some (a0 :: last_rgs (S m) n' false ++ x :: suf).
Proof.
  intros H. rewrite (last_rgs_false m n') by trivial.
  rewrite (last_rgs_false_eq (S m)), iota_S.
  replace (n' - S m)%nat with (n' - m - 1)%nat by lia.
  rewrite <- !app_assoc. cbn [app].
  rewrite set_at by (rewrite iota_length; lia).
  reflexivity.
Qed.

Lemma set_last_zero a0 m n' x suf :
  (m < n')%nat ->
  Py.setitem (a0 :: last_rgs (S m) n' false ++ x :: suf) (Z.of_nat (S m)) 0
  = Some (a0 :: last_rgs m n' false ++ x :: suf).
Proof.
  intros H. rewrite (last_rgs_false m n') by trivial.
  rewrite (last_rgs_false_eq (S m)), iota_S.
  replace (n' - S m)%nat with (n' - m - 1)%nat by lia.
  rewrite <- !app_assoc. cbn [app].
  rewrite set_at by (rewrite iota_length; lia).
  reflexivity.
Qed.

(** *** Parities *)

Lemma odd_of_nat j : Z.odd (Z.of_nat j) = Nat.odd j.
Proof.
  induction j as [|j IH]; trivial.
  rewrite Nat2Z.inj_succ, Z.odd_succ, Nat.odd_succ.
  rewrite <- Z.negb_odd, IH, <- Nat.negb_odd. reflexivity.
Qed.

Lemma par_mod j sigma :
  (Z.of_nat j + Z.b2z sigma) mod 2 = Z.b2z (par j sigma).
Proof.
  rewrite Zmod_odd, Z.odd_add, odd_of_nat. unfold par.
  destruct (Nat.odd j), sigma; reflexivity.
Qed.

Lemma par_test j sigma :
  ((Z.of_nat j + Z.b2z sigma) mod 2 =? 1) = par j sigma.
Proof. rewrite par_mod. now destruct (par j sigma). Qed.

Lemma par_0 j : ((Z.of_nat j + 0) mod 2 =? 1) = par j false.
Proof. apply (par_test j false). Qed.

Lemma par_S j sigma : par (S j) sigma = negb (par j sigma).
Proof.
  unfold par. rewrite Nat.odd_succ, <- Nat.negb_odd.
  destruct (Nat.odd j), sigma; reflexivity.
Qed.

(** *** Loops *)

Lemma while_eq {Y} fuel cond i (body : gen Y) :
  while fuel cond i body =
  read i (fun v =>
    if cond v then
      match fuel with
      | O => raise OutOfFuel
      | S fuel' => body ;; while fuel' cond i body
      end
    else skip).
Proof. destruct fuel; reflexivity. Qed.

(** A loop that counts [a[nu]] down to [0]: [St i] is the array when
    [a[nu] = i], [Ys i] what the turn that reaches [i] yields. *)
Lemma while_down {Y} (body : gen Y) nu (St : nat -> list Z)
  (Ys : nat -> list Y) j :
  forall fuel, (j <= fuel)%nat ->
  (forall i, (i <= j)%nat -> Py.getitem (St i) nu = Some (Z.of_nat i)) ->
  (forall i, (i < j)%nat -> body (St (S i)) = (Ys i, inr (St i))) ->
  while fuel (fun v => 0 <? v) nu body (St j)
  = (flat_map Ys (rev (seq 0 j)), inr (St 0%nat)).
Proof.
  induction j as [|j IH]; intros fuel Hf Hget Hbody; rewrite while_eq.
  - rewrite (read_ok _ _ _ _ (Hget 0%nat (Nat.le_refl _))). reflexivity.
  - rewrite (read_ok _ _ _ _ (Hget (S j) (Nat.le_refl _))).
    destruct (Z.ltb_spec 0 (Z.of_nat (S j))); [|lia].
    destruct fuel as [|fuel]; [lia|].
    rewrite seq_S, rev_app_distr. simpl rev. simpl flat_map.
    eapply andthen_ok.
    + apply Hbody. lia.
    + apply IH; [lia| |]; intros i Hi; [apply Hget|apply Hbody]; lia.
Qed.

(** A loop that counts [a[nu]] up to [M]: [St i] is the array when
    [a[nu] = i], [Ys i] what the turn that leaves [i] yields. *)
Lemma while_up {Y} (body : gen Y) nu M (St : nat -> list Z)
  (Ys : nat -> list Y) d :
  forall i fuel, (i + d = M)%nat -> (d <= fuel)%nat ->
  (forall i', (i' <= M)%nat -> Py.getitem (St i') nu = Some (Z.of_nat i')) ->
  (forall i', (i' < M)%nat -> body (St i') = (Ys i', inr (St (S i')))) ->
  while fuel (fun v => v <? Z.of_nat M) nu body (St i)
  = (flat_map Ys (seq i d), inr (St M)).
Proof.
  induction d as [|d IH]; intros i fuel Hi Hf Hget Hbody; rewrite while_eq.
  - rewrite (read_ok _ _ _ _ (Hget i ltac:(lia))).
    destruct (Z.ltb_spec (Z.of_nat i) (Z.of_nat M)); [lia|].
    replace i with M by lia. reflexivity.
  - rewrite (read_ok _ _ _ _ (Hget i ltac:(lia))).
    destruct (Z.ltb_spec (Z.of_nat i) (Z.of_nat M)); [|lia].
    destruct fuel as [|fuel]; [lia|].
    simpl seq. simpl flat_map. eapply andthen_ok.
    + apply Hbody. lia.
    + apply IH; trivial; lia.
Qed.

(** *** Lists of yields *)

Section Outs.

Context {Y : Type}.
Variable V : list Z -> Y.

Lemma outs_app suf l1 l2 : outs V suf (l1 ++ l2) = outs V suf l1 ++ outs V suf l2.
Proof. apply map_app. Qed.

Lemma outs_snoc suf j l :
  outs V suf (map (snoc j) l) = outs V (Z.of_nat j :: suf) l.
Proof.
  unfold outs, snoc. rewrite map_map. apply map_ext. intros s.
  now rewrite <- app_assoc.
Qed.

Lemma outs_rev suf l : outs V suf (rev l) = rev (outs V suf l).
Proof. unfold outs. now rewrite map_rev. Qed.

Lemma outs_flat_map {X} suf (f : X -> list (list Z)) l :
  outs V suf (flat_map f l) = flat_map (fun x => outs V suf (f x)) l.
Proof.
  induction l as [|x l IH]; simpl; trivial. now rewrite outs_app, IH.
Qed.

Lemma outs_dir suf b l : outs V suf (dir b l) = dir b (outs V suf l).
Proof. destruct b; simpl; [apply outs_rev|reflexivity]. Qed.

End Outs.

Lemma rev_flat_map_rev {X W} (f : X -> list W) l :
  rev (flat_map f (rev l)) = flat_map (fun x => rev (f x)) l.
Proof.
  induction l as [|x l IH]; simpl; trivial.
  rewrite flat_map_app, rev_app_distr. simpl. now rewrite app_nil_r, IH.
Qed.

Lemma dir_rev {X} b (l : list X) : rev (dir b l) = dir (negb b) l.
Proof. destruct b; simpl; [apply rev_involutive|reflexivity]. Qed.

Lemma in_dir {X} b (l : list X) x : In x (dir b l) <-> In x l.
Proof. destruct b; simpl; [symmetry; apply in_rev|tauto]. Qed.

(** *** The visiting order on and next to its borders *)

Lemma flat_map_nil {X W} (f : X -> list W) l :
  (forall x, f x = []) -> flat_map f l = [].
Proof.
  intros H. induction l as [|x l IH]; simpl; trivial. now rewrite H, IH.
Qed.

Lemma rgs_seq_small nu : forall mu sigma,
  (nu < mu)%nat -> rgs_seq nu mu sigma = [].
Proof.
  induction nu as [|nu IH]; intros [|m] sigma H; try lia; trivial.
  cbn [rgs_seq]. rewrite (IH m), (IH (S m)) by lia. simpl map.
  apply flat_map_nil. intros j. now destruct (par j sigma).
Qed.

Lemma rgs_seq_zero nu sigma : rgs_seq (S nu) 0 sigma = [].
Proof. reflexivity. Qed.

Lemma rgs_seq_diag m : forall sigma, rgs_seq m m sigma = [iota m].
Proof.
  induction m as [|m IH]; intros sigma; trivial.
  cbn [rgs_seq]. rewrite IH, (rgs_seq_small m (S m)) by lia.
  rewrite flat_map_nil by (intros j; now destruct (par j sigma)).
  rewrite iota_S. reflexivity.
Qed.

Lemma rgs_seq_one n' : forall sigma,
  (1 <= n')%nat -> rgs_seq n' 1 sigma = [repeat 0 n'].
Proof.
  induction n' as [|n' IH]; intros sigma H; [lia|].
  cbn [rgs_seq]. destruct n' as [|n'].
  - destruct sigma; reflexivity.
  - rewrite rgs_seq_zero, IH by lia. cbn [map app seq rev flat_map].
    rewrite app_nil_r. unfold snoc. simpl Z.of_nat.
    destruct (par 0 sigma); cbn [dir rev app map]; now rewrite <- repeat_snoc.
Qed.

Lemma first_rgs_one n' : (1 <= n')%nat -> first_rgs 1 n' = repeat 0 n'.
Proof.
  intros H. unfold first_rgs. destruct n' as [|n']; [lia|].
  simpl Nat.sub. rewrite Nat.sub_0_r. symmetry. apply repeat_snoc.
Qed.

Lemma last_rgs_one n' sigma : (1 <= n')%nat -> last_rgs 1 n' sigma = repeat 0 n'.
Proof.
  intros H. unfold last_rgs. destruct (sigma && Nat.ltb 1 n') eqn:E.
  - apply andb_true_iff in E as [_ E]. apply Nat.ltb_lt in E.
    replace n' with (S (S (n' - 1 - 1))) at 2 by lia.
    rewrite repeat_snoc, repeat_snoc, <- app_assoc. reflexivity.
  - destruct n' as [|n']; [lia|]. simpl Nat.sub. now rewrite Nat.sub_0_r.
Qed.

(** *** The two sweeps visit the strings in the stated order *)

Section Sweep.

Context {A : Type}.
Variables (n k : Z) (c : list A) (V : list Z -> list (list A)).

Lemma yield_ok a0 suf l s :
  visits n k c V a0 suf l -> In s l ->
  yield_visit n k c (a0 :: s ++ suf)
  = ([V (s ++ suf)], inr (a0 :: s ++ suf)).
Proof. intros H Hs. unfold yield_visit. now rewrite (H s Hs). Qed.

Lemma visits_snoc a0 suf j l l' :
  visits n k c V a0 suf l' -> (forall s, In s l -> In (snoc j s) l') ->
  visits n k c V a0 (Z.of_nat j :: suf) l.
Proof.
  intros H Hin s Hs. specialize (H _ (Hin s Hs)). unfold snoc in H.
  now rewrite <- app_assoc in H.
Qed.

Lemma _f_eq fuel' mu nu sigma :
  _f n k c (S fuel') mu nu sigma =
  ((if mu =? 2 then yield_visit n k c
    else _f n k c fuel' (mu - 1) (nu - 1) ((mu + sigma) mod 2)) ;;
   (if nu =? mu + 1 then
      assign mu (mu - 1) ;;
      yield_visit n k c ;;
      while fuel' (fun v => 0 <? v) nu
        (read nu (fun v => assign nu (v - 1)) ;; yield_visit n k c)
    else if mu + 1 <? nu then
      (if (mu + sigma) mod 2 =? 1 then assign (nu - 1) (mu - 1)
       else assign mu (mu - 1)) ;;
      read nu (fun v => if (v + sigma) mod 2 =? 1
                        then _b n k c fuel' mu (nu - 1) 0
                        else _f n k c fuel' mu (nu - 1) 0) ;;
      while fuel' (fun v => 0 <? v) nu
        (read nu (fun v => assign nu (v - 1)) ;;
         read nu (fun v => if (v + sigma) mod 2 =? 1
                           then _b n k c fuel' mu (nu - 1) 0
                           else _f n k c fuel' mu (nu - 1) 0))
    else skip)).
Proof. reflexivity. Qed.

Lemma _b_eq fuel' mu nu sigma :
  _b n k c (S fuel') mu nu sigma =
  ((if nu =? mu + 1 then
      while fuel' (fun v => v <? mu - 1) nu
        (yield_visit n k c ;; read nu (fun v => assign nu (v + 1))) ;;
      yield_visit n k c ;;
      assign mu 0
    else if mu + 1 <? nu then
      read nu (fun v => if (v + sigma) mod 2 =? 1
                        then _f n k c fuel' mu (nu - 1) 0
                        else _b n k c fuel' mu (nu - 1) 0) ;;
      while fuel' (fun v => v <? mu - 1) nu
        (read nu (fun v => assign nu (v + 1)) ;;
         read nu (fun v => if (v + sigma) mod 2 =? 1
                           then _f n k c fuel' mu (nu - 1) 0
                           else _b n k c fuel' mu (nu - 1) 0)) ;;
      (if (mu + sigma) mod 2 =? 1 then assign (nu - 1) 0
       else assign mu 0)
    else skip) ;;
   (if mu =? 2 then yield_visit n k c
    else _b n k c fuel' (mu - 1) (nu - 1) ((mu + sigma) mod 2))).
Proof. reflexivity. Qed.

Lemma sweep_spec fuel : forall mu nu sigma a0 suf,
  (2 <= mu)%nat -> (mu < nu)%nat -> (mu + nu <= fuel)%nat ->
  visits n k c V a0 suf (rgs_seq nu mu sigma) ->
  _f n k c fuel (Z.of_nat mu) (Z.of_nat nu) (Z.b2z sigma)
     (a0 :: first_rgs mu nu ++ suf)
  = (outs V suf (rgs_seq nu mu sigma), inr (a0 :: last_rgs mu nu sigma ++ suf))
  /\ _b n k c fuel (Z.of_nat mu) (Z.of_nat nu) (Z.b2z sigma)
       (a0 :: last_rgs mu nu sigma ++ suf)
     = (outs V suf (rev (rgs_seq nu mu sigma)),
        inr (a0 :: first_rgs mu nu ++ suf)).
Proof.
  induction fuel as [|fuel IH]; intros mu nu sigma a0 suf Hmu Hnu Hfuel Hvis;
    [lia|].
  destruct mu as [|m]; [lia|]. destruct nu as [|n']; [lia|].
  cbn [rgs_seq] in *.
  set (sigma' := par (S m) sigma) in *.
  set (R1 := rgs_seq n' m sigma') in *.
  set (R := rgs_seq n' (S m) false) in *.
  set (blk := fun j => map (snoc j) (dir (par j sigma) R)) in *.
  assert (Hv1 : visits n k c V a0 (Z.of_nat m :: suf) R1).
  { eapply visits_snoc; [exact Hvis|]. intros s Hs.
    apply in_app_iff. left. now apply in_map. }
  assert (HvR : forall j, (j <= m)%nat ->
                  visits n k c V a0 (Z.of_nat j :: suf) R).
  { intros j Hj. eapply visits_snoc; [exact Hvis|]. intros s Hs.
    apply in_app_iff. right. apply in_flat_map. exists j. split.
    - apply in_rev. rewrite rev_involutive. apply in_seq. lia.
    - unfold blk. apply in_map. now apply in_dir. }
  assert (Em : Z.of_nat (S m) - 1 = Z.of_nat m) by lia.
  assert (En : Z.of_nat (S n') - 1 = Z.of_nat n') by lia.
  assert (Es : (Z.of_nat (S m) + Z.b2z sigma) mod 2 = Z.b2z sigma')
    by apply par_mod.
  assert (Hpm : par m sigma = negb sigma')
    by (unfold sigma'; rewrite par_S; now destruct (par m sigma)).
  clearbody sigma'.
  assert (F1 :
    (if Z.of_nat (S m) =? 2 then yield_visit n k c
     else _f n k c fuel (Z.of_nat (S m) - 1) (Z.of_nat (S n') - 1)
            ((Z.of_nat (S m) + Z.b2z sigma) mod 2))
      (a0 :: first_rgs (S m) (S n') ++ suf)
    = (outs V (Z.of_nat m :: suf) R1,
       inr (a0 :: last_rgs m n' sigma' ++ Z.of_nat m :: suf))).
  { rewrite first_rgs_S, <- app_assoc by lia. cbn [app].
    destruct (Z.eqb_spec (Z.of_nat (S m)) 2) as [E2|E2].
    - assert (m = 1%nat) by lia. subst m. unfold R1 in *.
      rewrite rgs_seq_one in * by lia.
      rewrite first_rgs_one, last_rgs_one by lia.
      rewrite (yield_ok _ _ _ _ Hv1) by (simpl; auto). reflexivity.
    - rewrite Em, En, Es. apply IH; trivial; lia. }
  assert (B1 :
    (if Z.of_nat (S m) =? 2 then yield_visit n k c
     else _b n k c fuel (Z.of_nat (S m) - 1) (Z.of_nat (S n') - 1)
            ((Z.of_nat (S m) + Z.b2z sigma) mod 2))
      (a0 :: last_rgs m n' sigma' ++ Z.of_nat m :: suf)
    = (outs V (Z.of_nat m :: suf) (rev R1),
       inr (a0 :: first_rgs (S m) (S n') ++ suf))).
  { rewrite first_rgs_S, <- app_assoc by lia. cbn [app].
    destruct (Z.eqb_spec (Z.of_nat (S m)) 2) as [E2|E2].
    - assert (m = 1%nat) by lia. subst m. unfold R1 in *.
      rewrite rgs_seq_one in * by lia.
      rewrite first_rgs_one, last_rgs_one by lia.
      rewrite (yield_ok _ _ _ _ Hv1) by (simpl; auto). reflexivity.
    - rewrite Em, En, Es. apply IH; trivial; lia. }
  pose (pst := fun j => if par j sigma then last_rgs (S m) n' false
                        else first_rgs (S m) n').
  pose (pen := fun j => if par j sigma then first_rgs (S m) n'
                        else last_rgs (S m) n' false).
  pose (St := fun j => a0 :: pen j ++ Z.of_nat j :: suf).
  pose (Tt := fun j => a0 :: pst j ++ Z.of_nat j :: suf).
  pose (Yb := fun j => outs V (Z.of_nat j :: suf) (dir (par j sigma) R)).
  assert (Lpst : forall j, length (pst j) = n').
  { intros j. unfold pst.
    destruct (par j sigma); [apply last_rgs_length|apply first_rgs_length]; lia. }
  assert (Lpen : forall j, length (pen j) = n').
  { intros j. unfold pen.
    destruct (par j sigma); [apply first_rgs_length|apply last_rgs_length]; lia. }
  assert (Epen : forall j, pen (S j) = pst j).
  { intros j. unfold pen, pst. rewrite par_S. now destruct (par j sigma). }
  assert (Eout :
    outs V suf (map (snoc m) R1 ++ flat_map blk (rev (seq 0 (S m))))
    = outs V (Z.of_nat m :: suf) R1 ++ flat_map Yb (rev (seq 0 (S m)))).
  { rewrite outs_app, outs_snoc, outs_flat_map. f_equal.
    apply flat_map_ext. intros j. unfold blk, Yb. apply outs_snoc. }
  assert (EoutB :
    outs V suf (rev (map (snoc m) R1 ++ flat_map blk (rev (seq 0 (S m)))))
    = flat_map (fun j => rev (Yb j)) (seq 0 (S m))
      ++ outs V (Z.of_nat m :: suf) (rev R1)).
  { rewrite rev_app_distr, outs_app, rev_flat_map_rev, outs_flat_map.
    rewrite <- map_rev, outs_snoc. f_equal.
    apply flat_map_ext. intros j. unfold blk, Yb.
    now rewrite outs_rev, outs_snoc. }
  assert (Elast : St 0%nat = a0 :: last_rgs (S m) (S n') sigma ++ suf).
  { unfold St. rewrite <- (last_rgs_S (S m) n' sigma), <- app_assoc by lia.
    unfold pen, par. simpl. now destruct sigma. }
  assert (Hget : forall j, Py.getitem (St j) (Z.of_nat (S n')) = Some (Z.of_nat j)).
  { intros j. apply get_at. rewrite Lpen. lia. }
  assert (Hset : forall j v,
    Py.setitem (St j) (Z.of_nat (S n')) v = Some (a0 :: pen j ++ v :: suf)).
  { intros j v. apply set_at. rewrite Lpen. lia. }
  assert (HgetT : forall j, Py.getitem (Tt j) (Z.of_nat (S n')) = Some (Z.of_nat j)).
  { intros j. apply get_at. rewrite Lpst. lia. }
  assert (HsetT : forall j v,
    Py.setitem (Tt j) (Z.of_nat (S n')) v = Some (a0 :: pst j ++ v :: suf)).
  { intros j v. apply set_at. rewrite Lpst. lia. }
  destruct (Nat.eq_dec n' (S m)) as [Hd|Hd].
  - (* nu = mu + 1: the blocks are single strings *)
    subst n'.
    assert (Ed : (Z.of_nat (S (S m)) =? Z.of_nat (S m) + 1) = true)
      by (apply Z.eqb_eq; lia).
    assert (ER : R = [iota (S m)]) by apply rgs_seq_diag.
    assert (EY : forall j, Yb j = [V (iota (S m) ++ Z.of_nat j :: suf)]).
    { intros j. unfold Yb. rewrite ER. now destruct (par j sigma). }
    assert (Epi : forall j, pen j = iota (S m)).
    { intros j. unfold pen. rewrite first_rgs_diag, last_rgs_diag.
      now destruct (par j sigma). }
    assert (ESt : forall j, St j = a0 :: iota (S m) ++ Z.of_nat j :: suf).
    { intros j. unfold St. now rewrite Epi. }
    assert (Hy : forall j, (j <= m)%nat ->
              yield_visit n k c (St j) = (Yb j, inr (St j))).
    { intros j Hj. rewrite EY, ESt.
      apply (yield_ok a0 (Z.of_nat j :: suf) R); [now apply HvR|].
      rewrite ER. simpl. auto. }
    assert (Emid : a0 :: iota m ++ Z.of_nat m :: Z.of_nat m :: suf = St m).
    { rewrite ESt, iota_S, <- app_assoc. reflexivity. }
    split.
    + rewrite _f_eq, Eout, Ed. eapply andthen_ok; [exact F1|].
      rewrite seq_S, rev_app_distr. cbn [rev app flat_map Nat.add].
      rewrite <- Elast, last_rgs_succ, <- app_assoc. cbn [app].
      eapply andthen_ok_nil.
      { apply assign_ok, set_at. rewrite iota_length. lia. }
      rewrite Em, Emid.
      eapply andthen_ok; [apply Hy; lia|].
      apply (while_down _ _ St Yb m); [lia|auto|].
      intros i Hi. eapply andthen_ok_nil; [|apply Hy; lia].
      rewrite (read_ok _ _ _ _ (Hget (S i))).
      apply assign_ok. rewrite Hset, ESt, Epi. repeat f_equal. lia.
    + rewrite _b_eq, EoutB, Ed, <- Elast. eapply andthen_ok; [|exact B1].
      rewrite seq_S, flat_map_app. cbn [flat_map Nat.add].
      rewrite Em. eapply andthen_ok.
      * apply (while_up _ _ m St (fun j => rev (Yb j)) m 0%nat); [lia|lia|auto|].
        intros i Hi. eapply andthen_ok_r.
        -- rewrite EY. cbn [rev app]. rewrite <- EY. apply Hy. lia.
        -- rewrite (read_ok _ _ _ _ (Hget i)).
           apply assign_ok. rewrite Hset, ESt, Epi. repeat f_equal. lia.
      * eapply andthen_ok.
        -- rewrite EY. cbn [rev app]. rewrite <- EY. apply Hy. lia.
        -- apply assign_ok. rewrite <- Emid, last_rgs_succ, <- app_assoc.
           cbn [app]. apply set_at. rewrite iota_length. lia.
  - (* nu > mu + 1: the blocks are swept by the recursive calls *)
    assert (Ed : (Z.of_nat (S n') =? Z.of_nat (S m) + 1) = false)
      by (apply Z.eqb_neq; lia).
    assert (Eg : (Z.of_nat (S m) + 1 <? Z.of_nat (S n')) = true)
      by (apply Z.ltb_lt; lia).
    assert (IHR : forall j, (j <= m)%nat ->
      _f n k c fuel (Z.of_nat (S m)) (Z.of_nat n') 0
         (a0 :: first_rgs (S m) n' ++ Z.of_nat j :: suf)
      = (outs V (Z.of_nat j :: suf) R,
         inr (a0 :: last_rgs (S m) n' false ++ Z.of_nat j :: suf))
      /\ _b n k c fuel (Z.of_nat (S m)) (Z.of_nat n') 0
           (a0 :: last_rgs (S m) n' false ++ Z.of_nat j :: suf)
         = (outs V (Z.of_nat j :: suf) (rev R),
            inr (a0 :: first_rgs (S m) n' ++ Z.of_nat j :: suf))).
    { intros j Hj. apply (IH (S m) n' false); trivial; try lia. now apply HvR. }
    (* sweeping block [j] in the order of [_f], and in the order of [_b] *)
    assert (PF : forall j, (j <= m)%nat ->
      read (Z.of_nat (S n'))
        (fun v => if (v + Z.b2z sigma) mod 2 =? 1
                  then _b n k c fuel (Z.of_nat (S m)) (Z.of_nat n') 0
                  else _f n k c fuel (Z.of_nat (S m)) (Z.of_nat n') 0)
        (Tt j)
      = (Yb j, inr (St j))).
    { intros j Hj. rewrite (read_ok _ _ _ _ (HgetT j)), par_test.
      unfold Tt, St, pst, pen, Yb. destruct (par j sigma); cbn [dir].
      - apply (IHR j Hj).
      - apply (IHR j Hj). }
    assert (PB : forall j, (j <= m)%nat ->
      read (Z.of_nat (S n'))
        (fun v => if (v + Z.b2z sigma) mod 2 =? 1
                  then _f n k c fuel (Z.of_nat (S m)) (Z.of_nat n') 0
                  else _b n k c fuel (Z.of_nat (S m)) (Z.of_nat n') 0)
        (St j)
      = (rev (Yb j), inr (Tt j))).
    { intros j Hj. rewrite (read_ok _ _ _ _ (Hget j)), par_test.
      unfold Tt, St, pst, pen, Yb. destruct (par j sigma); cbn [dir].
      - rewrite outs_rev, rev_involutive. apply (IHR j Hj).
      - rewrite <- outs_rev. apply (IHR j Hj). }
    split.
    + rewrite _f_eq, Eout, Ed, Eg. eapply andthen_ok; [exact F1|].
      rewrite seq_S, rev_app_distr. cbn [rev app flat_map Nat.add].
      rewrite <- Elast, Es, En, Em.
      eapply andthen_ok_nil.
      { instantiate (1 := Tt m). unfold Tt, pst. rewrite Hpm.
        destruct sigma'; cbn [negb Z.b2z Z.eqb]; apply assign_ok.
        - apply set_last_true. lia.
        - apply set_last_false. lia. }
      eapply andthen_ok; [apply PF; lia|].
      apply (while_down _ _ St Yb m); [lia|auto|].
      intros i Hi. eapply andthen_ok_nil; [|apply PF; lia].
      rewrite (read_ok _ _ _ _ (Hget (S i))).
      apply assign_ok. rewrite Hset, Epen. unfold Tt. repeat f_equal. lia.
    + rewrite _b_eq, EoutB, Ed, Eg, <- Elast. eapply andthen_ok; [|exact B1].
      cbn [seq flat_map]. rewrite <- seq_shift, flat_map_concat_map, map_map,
        <- flat_map_concat_map.
      rewrite Es, En, Em.
      eapply andthen_ok; [apply PB; lia|].
      eapply andthen_ok_r.
      * apply (while_up _ _ m Tt (fun j => rev (Yb (S j))) m 0%nat);
          [lia|lia|auto|].
        intros i Hi. eapply andthen_ok_nil; [|apply PB; lia].
        rewrite (read_ok _ _ _ _ (HgetT i)).
        apply assign_ok. rewrite HsetT. unfold St. rewrite Epen.
        repeat f_equal. lia.
      * unfold Tt, pst. rewrite Hpm.
        destruct sigma'; cbn [negb Z.b2z Z.eqb]; apply assign_ok.
        -- apply set_first_zero. lia.
        -- apply set_last_zero. lia.
Qed.

End Sweep.

(** *** The strings visited: restricted growth, no repetition, their number *)

Lemma restricted_growth_nil : restricted_growth [].
Proof. intros [|i] v H; discriminate. Qed.

Lemma restricted_growth_snoc s v :
  restricted_growth s -> 0 <= v ->
  (forall w, 0 <= w < v -> In w s) ->
  restricted_growth (s ++ [v]).
Proof.
  intros Hs Hv Hw i x Hi.
  destruct (Nat.lt_ge_cases i (length s)) as [L|L].
  - rewrite nth_error_app1 in Hi by trivial.
    destruct (Hs i x Hi) as [H0 H1]. split; trivial.
    intros w Hwx. destruct (H1 w Hwx) as (i' & Hlt & Hi').
    exists i'. split; trivial. rewrite nth_error_app1 by lia. exact Hi'.
  - rewrite nth_error_app2 in Hi by trivial.
    destruct (i - length s)%nat as [|d] eqn:E; [|destruct d; discriminate].
    injection Hi as <-. split; trivial.
    intros w Hwv. apply Hw, In_nth_error in Hwv as [i' Hi'].
    assert (i' < length s)%nat by (apply nth_error_Some; congruence).
    exists i'. split; [lia|]. rewrite nth_error_app1 by lia. exact Hi'.
Qed.

Lemma rgs_ok_snoc_new m nu s :
  rgs_ok m nu s -> rgs_ok (S m) (S nu) (snoc m s).
Proof.
  intros (Hl & Hv & Hj & Hr). unfold snoc. split; [|split; [|split]].
  - rewrite length_app. simpl. lia.
  - intros v H. apply in_app_iff in H as [H|[<-|[]]]; [apply Hv in H|]; lia.
  - intros j Hlt. apply in_app_iff.
    destruct (Nat.eq_dec j m) as [->|]; [right; simpl; auto|].
    left. apply Hj. lia.
  - apply restricted_growth_snoc; trivial; [lia|].
    intros w Hw. replace w with (Z.of_nat (Z.to_nat w)) by lia.
    apply Hj. lia.
Qed.

Lemma rgs_ok_snoc_old m nu s j :
  (j < m)%nat -> rgs_ok m nu s -> rgs_ok m (S nu) (snoc j s).
Proof.
  intros Hjm (Hl & Hv & Hj & Hr). unfold snoc. split; [|split; [|split]].
  - rewrite length_app. simpl. lia.
  - intros v H. apply in_app_iff in H as [H|[<-|[]]]; [apply Hv in H|]; lia.
  - intros j' Hlt. apply in_app_iff. left. now apply Hj.
  - apply restricted_growth_snoc; trivial; [lia|].
    intros w Hw. replace w with (Z.of_nat (Z.to_nat w)) by lia.
    apply Hj. lia.
Qed.

Lemma in_rev_seq j m : In j (rev (seq 0 (S m))) <-> (j <= m)%nat.
Proof. rewrite <- in_rev, in_seq. lia. Qed.

Lemma in_rgs_seq nu : forall mu sigma s,
  In s (rgs_seq nu mu sigma) <->
  match nu, mu with
  | O, O => s = []
  | O, S _ => False
  | S _, O => False
  | S nu', S m =>
      (exists s', In s' (rgs_seq nu' m (par (S m) sigma)) /\ s = snoc m s')
      \/ (exists j s', (j <= m)%nat /\ In s' (rgs_seq nu' (S m) false)
                       /\ s = snoc j s')
  end.
Proof.
  destruct nu as [|nu']; intros [|m] sigma s; cbn [rgs_seq]; try (simpl; tauto).
  - simpl. intuition.
  - rewrite in_app_iff, in_map_iff, in_flat_map. split.
    + intros [(s' & <- & H)|(j & Hj & H)].
      * left. eauto.
      * right. apply in_map_iff in H as (s' & <- & H). apply in_dir in H.
        apply in_rev_seq in Hj. exists j, s'. auto.
    + intros [(s' & H & ->)|(j & s' & Hj & H & ->)].
      * left. eauto.
      * right. exists j. split; [now apply in_rev_seq|].
        apply in_map. now apply in_dir.
Qed.

Lemma rgs_seq_ok nu : forall mu sigma s,
  In s (rgs_seq nu mu sigma) -> rgs_ok mu nu s.
Proof.
  induction nu as [|nu IH]; intros mu sigma s H; apply in_rgs_seq in H;
    destruct mu as [|m]; try contradiction.
  - subst s. split; [reflexivity|]. split; [intros v []|].
    split; [intros j Hj; lia|apply restricted_growth_nil].
  - destruct H as [(s' & H & ->)|(j & s' & Hj & H & ->)].
    + apply rgs_ok_snoc_new. eapply IH; eauto.
    + apply rgs_ok_snoc_old; [lia|]. eapply IH; eauto.
Qed.

Lemma snoc_inj j j' s s' : snoc j s = snoc j' s' -> s = s' /\ j = j'.
Proof.
  unfold snoc. intros H. apply app_inj_tail in H as [H1 H2]. split; [auto|lia].
Qed.

Lemma NoDup_flat_map {X W} (f : X -> list W) l :
  NoDup l -> (forall x, In x l -> NoDup (f x)) ->
  (forall x y z, In x l -> In y l -> In z (f x) -> In z (f y) -> x = y) ->
  NoDup (flat_map f l).
Proof.
  intros Hl. induction Hl as [|x l Hx Hl IH]; intros Hf Hd; simpl; [constructor|].
  apply NoDup_app.
  - apply Hf. now left.
  - apply IH; [intros; apply Hf; now right|].
    intros y y' z Hy Hy'. apply Hd; now right.
  - intros z Hz Hz'. apply in_flat_map in Hz' as (y & Hy & Hz').
    assert (x = y) by (apply (Hd x y z); simpl; auto). congruence.
Qed.

Lemma dir_NoDup {X} b (l : list X) : NoDup l -> NoDup (dir b l).
Proof. destruct b; simpl; [apply NoDup_rev|trivial]. Qed.

Lemma rgs_seq_NoDup nu : forall mu sigma, NoDup (rgs_seq nu mu sigma).
Proof.
  induction nu as [|nu IH]; intros [|m] sigma; cbn [rgs_seq];
    try constructor; try (intros []); try constructor.
  apply NoDup_app.
  - apply NoDup_map_NoDup_ForallPairs; [|apply IH].
    intros s s' _ _ E. now apply snoc_inj in E.
  - apply NoDup_flat_map.
    + apply NoDup_rev, seq_NoDup.
    + intros j _. apply NoDup_map_NoDup_ForallPairs; [|apply dir_NoDup, IH].
      intros s s' _ _ E. now apply snoc_inj in E.
    + intros j j' s _ _ H H'.
      apply in_map_iff in H as (s1 & <- & _), H' as (s2 & E & _).
      now apply snoc_inj in E.
  - intros s H H'. apply in_map_iff in H as (s1 & <- & H1).
    apply in_flat_map in H' as (j & _ & H').
    apply in_map_iff in H' as (s2 & E & H2). apply snoc_inj in E as [-> ->].
    apply in_dir in H2.
    apply rgs_seq_ok in H1 as (_ & Hv & _), H2 as (_ & _ & Hj & _).
    specialize (Hj m (Nat.lt_succ_diag_r m)). apply Hv in Hj. lia.
Qed.

Lemma length_flat_map_const {X W} (f : X -> list W) l L :
  (forall x, length (f x) = L) -> length (flat_map f l) = (length l * L)%nat.
Proof.
  intros H. induction l as [|x l IH]; simpl; trivial.
  now rewrite length_app, H, IH.
Qed.

Lemma dir_length {X} b (l : list X) : length (dir b l) = length l.
Proof. destruct b; simpl; [apply length_rev|trivial]. Qed.

Lemma rgs_seq_length nu : forall mu sigma,
  length (rgs_seq nu mu sigma) = stirling2 nu mu.
Proof.
  induction nu as [|nu IH]; intros [|m] sigma; trivial.
  cbn [rgs_seq stirling2].
  rewrite length_app, length_map, IH.
  rewrite (length_flat_map_const _ _ (stirling2 nu (S m))).
  - rewrite length_rev, length_seq. lia.
  - intros j. now rewrite length_map, dir_length, IH.
Qed.

(** *** What [_visit] returns *)

Lemma getitem_nat {X} (s : list X) j :
  Py.getitem s (Z.of_nat j) = nth_error s j.
Proof.
  unfold Py.getitem. destruct (Z.ltb_spec (Z.of_nat j) 0); [lia|].
  now rewrite Nat2Z.id.
Qed.

Lemma getitem_cons_succ {X} (a0 : X) s j :
  Py.getitem (a0 :: s) (Z.of_nat j + 1) = nth_error s j.
Proof.
  replace (Z.of_nat j + 1) with (Z.of_nat (S j)) by lia.
  now rewrite getitem_nat.
Qed.

Lemma nth_error_range k j :
  (j < Z.to_nat k)%nat -> nth_error (Py.range k) j = Some (Z.of_nat j).
Proof.
  intros H. unfold Py.range. rewrite nth_error_map, nth_error_seq.
  destruct (Nat.ltb_spec j (Z.to_nat k)); [reflexivity|lia].
Qed.

Lemma getitem_map_range {X} (F : Z -> X) k v :
  0 <= v < k -> Py.getitem (map F (Py.range k)) v = Some (F v).
Proof.
  intros H. replace v with (Z.of_nat (Z.to_nat v)) at 1 by lia.
  rewrite getitem_nat, nth_error_map, nth_error_range by lia.
  simpl. f_equal. f_equal. lia.
Qed.

Lemma update_map_seq {X} (G : nat -> X) y K : forall s i,
  (i < K)%nat ->
  Py.update (map G (seq s K)) i y
  = map (fun t => if Nat.eqb t (s + i) then y else G t) (seq s K).
Proof.
  induction K as [|K IH]; intros s i H; [lia|]. simpl.
  destruct i as [|i].
  - rewrite Nat.add_0_r, Nat.eqb_refl. f_equal.
    apply map_ext_in. intros t Ht. apply in_seq in Ht.
    destruct (Nat.eqb_spec t s); [lia|reflexivity].
  - destruct (Nat.eqb_spec s (s + S i)); [lia|]. f_equal.
    rewrite IH by lia. apply map_ext. intros t.
    now replace (S s + i)%nat with (s + S i)%nat by lia.
Qed.

Lemma setitem_map_range {X} (F : Z -> X) k v y :
  0 <= v < k ->
  Py.setitem (map F (Py.range k)) v y
  = Some (map (fun v' => if v' =? v then y else F v') (Py.range k)).
Proof.
  intros H. unfold Py.setitem, Py.len. rewrite length_map, range_length.
  destruct (Z.ltb_spec v 0); [lia|].
  destruct (Z.ltb_spec v (Z.of_nat (Z.to_nat k))); [|lia].
  f_equal. unfold Py.range. rewrite !map_map.
  rewrite update_map_seq by lia. apply map_ext. intros t. simpl.
  destruct (Nat.eqb_spec t (Z.to_nat v)), (Z.eqb_spec (Z.of_nat t) v);
    trivial; lia.
Qed.

Lemma firstn_S_nth {X} (l : list X) : forall j x,
  nth_error l j = Some x -> firstn (S j) l = firstn j l ++ [x].
Proof.
  induction l as [|y l IH]; intros [|j] x H; try discriminate.
  - injection H as <-. reflexivity.
  - simpl in H. rewrite !firstn_cons, (IH j x H). reflexivity.
Qed.

Lemma combine_snoc {X W} (l : list X) : forall (l' : list W) x y,
  length l = length l' ->
  combine (l ++ [x]) (l' ++ [y]) = combine l l' ++ [(x, y)].
Proof.
  induction l as [|a l IH]; intros [|b l'] x y H; try discriminate; trivial.
  simpl. f_equal. apply IH. now injection H.
Qed.

Lemma blocks_of_snoc {X} k s (c : list X) v x :
  length s = length c ->
  blocks_of k (s ++ [v]) (c ++ [x])
  = map (fun v' =>
           (if v' =? v
            then map snd (filter (fun vx => fst vx =? v) (combine s c)) ++ [x]
            else map snd (filter (fun vx => fst vx =? v') (combine s c))))
        (Py.range k).
Proof.
  intros H. unfold blocks_of. rewrite combine_snoc by trivial.
  apply map_ext. intros v'. rewrite filter_app, map_app. simpl.
  rewrite (Z.eqb_sym v v').
  destruct (Z.eqb_spec v' v) as [->|]; [reflexivity|apply app_nil_r].
Qed.

Section Visit.

Context {A : Type}.
Variables (n k : Z) (c : list A).

Lemma visit_step_ok a0 s j v x :
  nth_error s j = Some v -> nth_error c j = Some x -> 0 <= v < k ->
  visit_step c (a0 :: s)
    (Some (blocks_of k (firstn j s) (firstn j c))) (Z.of_nat j)
  = Some (blocks_of k (firstn (S j) s) (firstn (S j) c)).
Proof.
  intros Hs Hc Hv. unfold visit_step.
  rewrite getitem_cons_succ, Hs.
  unfold blocks_of at 1. rewrite getitem_map_range by trivial.
  rewrite getitem_nat, Hc.
  unfold blocks_of at 1. rewrite setitem_map_range by trivial.
  rewrite (firstn_S_nth s j v Hs), (firstn_S_nth c j x Hc).
  rewrite blocks_of_snoc; [reflexivity|].
  assert (j < length s)%nat by (apply nth_error_Some; congruence).
  assert (j < length c)%nat by (apply nth_error_Some; congruence).
  rewrite !length_firstn. lia.
Qed.

Lemma visit_prefix a0 s :
  length s = length c -> (forall v, In v s -> 0 <= v < k) ->
  forall j, (j <= length s)%nat ->
  fold_left (visit_step c (a0 :: s)) (Py.range (Z.of_nat j))
    (Some (map (fun _ => []) (Py.range k)))
  = Some (blocks_of k (firstn j s) (firstn j c)).
Proof.
  intros Hl Hv. induction j as [|j IH]; intros Hj.
  - reflexivity.
  - replace (Z.of_nat (S j)) with (Z.of_nat j + 1) by lia.
    rewrite range_succ, fold_left_app, IH by lia. simpl fold_left.
    destruct (nth_error s j) as [v|] eqn:Es;
      [|apply nth_error_None in Es; lia].
    destruct (nth_error c j) as [x|] eqn:Ec;
      [|apply nth_error_None in Ec; lia].
    apply (visit_step_ok a0 s j v x); trivial. apply Hv.
    eapply nth_error_In; eauto.
Qed.

Lemma visit_blocks a0 s :
  n = Py.len c -> length s = length c -> (forall v, In v s -> 0 <= v < k) ->
  _visit n k c (a0 :: s) = Some (blocks_of k s c).
Proof.
  intros Hn Hl Hv. unfold _visit. subst n. unfold Py.len.
  rewrite (visit_prefix a0 s Hl Hv (length c)) by lia.
  rewrite firstn_all, <- Hl, firstn_all. reflexivity.
Qed.

End Visit.

(** *** The blocks built from a restricted growth string *)

Section Blocks.

Context {A : Type}.
Implicit Types (c : list A) (s : list Z).

Lemma blocks_of_length k s c : length (blocks_of k s c) = Z.to_nat k.
Proof. unfold blocks_of. now rewrite length_map, range_length. Qed.

Lemma in_block (l : list (Z * A)) v x :
  In x (map snd (filter (fun vx => fst vx =? v) l)) <-> In (v, x) l.
Proof.
  rewrite in_map_iff. split.
  - intros ([v' x'] & <- & H). apply filter_In in H as [H E]. simpl in *.
    apply Z.eqb_eq in E. now subst.
  - intros H. exists (v, x). split; trivial. apply filter_In. split; trivial.
    simpl. apply Z.eqb_refl.
Qed.

Lemma in_blocks_of k s c b :
  In b (blocks_of k s c) <->
  exists v, 0 <= v < k
            /\ b = map snd (filter (fun vx => fst vx =? v) (combine s c)).
Proof.
  unfold blocks_of. rewrite in_map_iff. split.
  - intros (v & <- & Hv). apply in_range in Hv. eauto.
  - intros (v & Hv & ->). exists v. split; trivial. now apply in_range.
Qed.

Lemma in_combine_nth s : forall c v x,
  In (v, x) (combine s c) <->
  exists i, nth_error s i = Some v /\ nth_error c i = Some x.
Proof.
  induction s as [|a s IH]; intros [|b c] v x; simpl.
  - split; [tauto|]. intros ([|i] & H & _); discriminate.
  - split; [tauto|]. intros ([|i] & H & _); discriminate.
  - split; [tauto|]. intros ([|i] & _ & H); discriminate.
  - rewrite IH. split.
    + intros [E|(i & H1 & H2)].
      * injection E as -> ->. exists 0%nat. auto.
      * exists (S i). auto.
    + intros ([|i] & H1 & H2); simpl in *.
      * injection H1 as ->. injection H2 as ->. auto.
      * right. eauto.
Qed.

Lemma perm_insert (B : Z -> list A) v x L :
  NoDup L -> In v L ->
  Permutation
    (concat (map (fun v' => if v =? v' then x :: B v' else B v') L))
    (x :: concat (map B L)).
Proof.
  intros HL. induction HL as [|v0 L Hv0 HL IH]; intros Hin; [destruct Hin|].
  simpl. destruct (Z.eqb_spec v v0) as [->|Hne].
  - simpl. constructor. apply Permutation_app_head.
    replace (map (fun v' => if v0 =? v' then x :: B v' else B v') L)
      with (map B L); [apply Permutation_refl|].
    apply map_ext_in. intros v' Hv'.
    destruct (Z.eqb_spec v0 v'); [congruence|reflexivity].
  - destruct Hin as [E|Hin]; [congruence|].
    eapply Permutation_trans;
      [apply Permutation_app_head, IH, Hin|].
    apply Permutation_sym, Permutation_middle.
Qed.

Lemma blocks_perm k (l : list (Z * A)) :
  (forall vx, In vx l -> 0 <= fst vx < k) ->
  Permutation
    (concat (map (fun v => map snd (filter (fun vx => fst vx =? v) l))
                 (Py.range k)))
    (map snd l).
Proof.
  induction l as [|[v x] l IH]; intros H.
  - simpl. induction (Py.range k); simpl; auto.
  - simpl.
    eapply Permutation_trans; [|apply perm_skip, IH; intros; apply H; now right].
    eapply Permutation_trans;
      [|apply (perm_insert
                 (fun v' => map snd (filter (fun vx => fst vx =? v') l))
                 v x (Py.range k)); [apply range_NoDup|]].
    + apply Permutation_refl'. f_equal. apply map_ext. intros v'.
      destruct (v =? v'); reflexivity.
    + apply in_range. apply (H (v, x)). now left.
Qed.

Lemma map_snd_combine s : forall c,
  length s = length c -> map snd (combine s c) = c.
Proof.
  induction s as [|a s IH]; intros [|b c] H; try discriminate; trivial.
  simpl. f_equal. apply IH. now injection H.
Qed.

Lemma blocks_of_perm k s c :
  length s = length c -> (forall v, In v s -> 0 <= v < k) ->
  Permutation (concat (blocks_of k s c)) c.
Proof.
  intros Hl Hv. unfold blocks_of.
  eapply Permutation_trans.
  - apply blocks_perm. intros [v x] H. apply in_combine_l in H. simpl. auto.
  - rewrite (map_snd_combine s c Hl). apply Permutation_refl.
Qed.

Lemma blocks_of_nonempty k s c b :
  length s = length c -> (forall v, 0 <= v < k -> In v s) ->
  In b (blocks_of k s c) -> b <> [].
Proof.
  intros Hl Hv Hb. apply in_blocks_of in Hb as (v & Hvk & ->).
  destruct (In_nth_error _ _ (Hv v Hvk)) as [i Hi].
  destruct (nth_error c i) as [x|] eqn:Ec.
  - assert (H : In x (map snd (filter (fun vx => fst vx =? v) (combine s c)))).
    { apply in_block, in_combine_nth. eauto. }
    intros E. rewrite E in H. destruct H.
  - apply nth_error_None in Ec.
    assert (i < length s)%nat by (apply nth_error_Some; congruence). lia.
Qed.

(** Two elements lie together exactly when their values are equal. *)
Lemma together_blocks k s c i j vi vj xi xj :
  NoDup c -> (forall v, In v s -> 0 <= v < k) ->
  nth_error s i = Some vi -> nth_error c i = Some xi ->
  nth_error s j = Some vj -> nth_error c j = Some xj ->
  (together (blocks_of k s c) xi xj <-> vi = vj).
Proof.
  intros Hc Hv Si Ci Sj Cj.
  assert (U : forall v x i0, In (v, x) (combine s c) ->
                nth_error c i0 = Some x -> nth_error s i0 = Some v).
  { intros v x i0 H Hx. apply in_combine_nth in H as (i' & H1 & H2).
    assert (i' = i0); [|congruence].
    apply (proj1 (NoDup_nth_error c) Hc).
    - apply nth_error_Some. congruence.
    - congruence. }
  split.
  - intros (b & Hb & Hi & Hj). apply in_blocks_of in Hb as (v & _ & ->).
    apply in_block in Hi, Hj.
    apply (U v xi i) in Hi; trivial. apply (U v xj j) in Hj; trivial.
    congruence.
  - intros <-. exists (map snd (filter (fun vx => fst vx =? vi) (combine s c))).
    split; [|split].
    + apply in_blocks_of. exists vi. split; trivial.
      apply Hv. eapply nth_error_In; eauto.
    + apply in_block, in_combine_nth. eauto.
    + apply in_block, in_combine_nth. eauto.
Qed.

End Blocks.

(** Two restricted growth strings that put the same positions together
    are equal. *)
Lemma restricted_growth_kernel s s' :
  restricted_growth s -> restricted_growth s' -> length s = length s' ->
  (forall i j vi vj vi' vj',
      nth_error s i = Some vi -> nth_error s j = Some vj ->
      nth_error s' i = Some vi' -> nth_error s' j = Some vj' ->
      (vi = vj <-> vi' = vj')) ->
  s = s'.
Proof.
  intros Hs Hs' Hl K. apply nth_error_ext. intros i.
  induction i as [i IH] using (well_founded_induction lt_wf).
  destruct (nth_error s i) as [vi|] eqn:Ei.
  - destruct (nth_error s' i) as [vi'|] eqn:Ei'.
    + f_equal. destruct (Hs i vi Ei) as [P G], (Hs' i vi' Ei') as [P' G'].
      destruct (Z.lt_trichotomy vi vi') as [L|[E|L]]; trivial; exfalso.
      * destruct (G' vi) as (i' & Hlt & Hi'); [lia|].
        pose proof (IH i' Hlt) as E. rewrite Hi' in E.
        assert (vi = vi'); [|lia].
        apply (K i' i vi vi vi vi'); trivial.
      * destruct (G vi') as (i' & Hlt & Hi'); [lia|].
        pose proof (IH i' Hlt) as E. rewrite Hi' in E. symmetry in E.
        assert (vi' = vi); [|lia].
        apply (K i' i vi' vi vi' vi'); trivial.
    + apply nth_error_None in Ei'.
      assert (i < length s)%nat by (apply nth_error_Some; congruence). lia.
  - apply nth_error_None in Ei. symmetry. apply nth_error_None. lia.
Qed.

Lemma blocks_of_inj {A} k mu nu s s' (c : list A) :
  NoDup c -> length c = nu -> Z.of_nat mu <= k ->
  rgs_ok mu nu s -> rgs_ok mu nu s' ->
  same_partition (blocks_of k s c) (blocks_of k s' c) -> s = s'.
Proof.
  intros Hc Hl Hk (L & Vs & _ & G) (L' & Vs' & _ & G') S.
  apply restricted_growth_kernel; trivial; [congruence|].
  intros i j vi vj vi' vj' Si Sj Si' Sj'.
  assert (Hi : (i < length c)%nat)
    by (rewrite Hl, <- L; apply nth_error_Some; congruence).
  assert (Hj : (j < length c)%nat)
    by (rewrite Hl, <- L; apply nth_error_Some; congruence).
  destruct (nth_error c i) as [xi|] eqn:Ci; [|apply nth_error_None in Ci; lia].
  destruct (nth_error c j) as [xj|] eqn:Cj; [|apply nth_error_None in Cj; lia].
  assert (T : together (blocks_of k s c) xi xj <-> vi = vj).
  { apply (together_blocks k s c i j); trivial.
    intros v Hv. apply Vs in Hv. lia. }
  assert (T' : together (blocks_of k s' c) xi xj <-> vi' = vj').
  { apply (together_blocks k s' c i j); trivial.
    intros v Hv. apply Vs' in Hv. lia. }
  rewrite <- T, <- T'. apply S.
Qed.

Lemma all_distinct_map {X A} (f : X -> list (list A)) l :
  NoDup l ->
  (forall x y, In x l -> In y l -> same_partition (f x) (f y) -> x = y) ->
  all_distinct (map f l).
Proof.
  intros Hl. induction Hl as [|x l Hx Hl IH]; intros H; simpl; constructor.
  - intros q Hq S. apply in_map_iff in Hq as (y & <- & Hy).
    apply Hx. rewrite (H x y); simpl; auto.
  - apply IH. intros y z Hy Hz. apply H; simpl; auto.
Qed.

Lemma same_partition_refl {A} (p : list (list A)) : same_partition p p.
Proof. intros x y. tauto. Qed.

Lemma all_distinct_NoDup {A} (l : list (list (list A))) :
  all_distinct l -> NoDup l.
Proof.
  induction 1 as [|p l Hp Hl IH]; constructor; trivial.
  intros Hin. apply (Hp p Hin), same_partition_refl.
Qed.

(** *** The array with which [k_partitions] starts *)

Lemma init_a_prefix N K i :
  (K <= N)%nat -> (i <= K)%nat ->
  fold_left
    (fun a j => match a with
                | None => None
                | Some a => Py.setitem a (Z.of_nat N - Z.of_nat K + j) (j - 1)
                end)
    (map (fun i => 1 + i) (Py.range (Z.of_nat i)))
    (Some (repeat 0 (Z.to_nat (Z.of_nat N + 1))))
  = Some (0 :: (repeat 0 (N - K) ++ iota i) ++ repeat 0 (K - i)).
Proof.
  intros HK. induction i as [|i IH]; intros Hi.
  - simpl fold_left. f_equal.
    replace (Z.to_nat (Z.of_nat N + 1)) with (S ((N - K) + K)) by lia.
    rewrite Nat.sub_0_r. simpl. now rewrite app_nil_r, repeat_app.
  - replace (Z.of_nat (S i)) with (Z.of_nat i + 1) by lia.
    rewrite range_succ, map_app, fold_left_app, IH by lia.
    cbn [fold_left map].
    replace (K - i)%nat with (S (K - S i)) by lia. cbn [repeat].
    rewrite set_at by (rewrite length_app, repeat_length, iota_length; lia).
    rewrite iota_S, <- !app_assoc. cbn [app].
    now replace (1 + Z.of_nat i - 1) with (Z.of_nat i) by lia.
Qed.

Lemma init_a_spec N K :
  (K <= N)%nat ->
  init_a (Z.of_nat N) (Z.of_nat K) = Some (0 :: first_rgs K N).
Proof.
  intros H. unfold init_a, Py.range2.
  replace (Z.of_nat K + 1 - 1) with (Z.of_nat K) by lia.
  rewrite (init_a_prefix N K K) by lia.
  now rewrite Nat.sub_diag, app_nil_r.
Qed.

(** *** Stirling numbers on the borders *)

Lemma stirling2_small n : forall k, (n < k)%nat -> stirling2 n k = 0%nat.
Proof.
  induction n as [|n IH]; intros [|k] H; try lia; trivial.
  cbn [stirling2]. rewrite (IH (S k)), (IH k) by lia. lia.
Qed.

Lemma stirling2_diag n : stirling2 n n = 1%nat.
Proof.
  induction n as [|n IH]; trivial.
  cbn [stirling2]. rewrite IH, stirling2_small by lia. lia.
Qed.

Lemma stirling2_one n : stirling2 (S n) 1 = 1%nat.
Proof.
  induction n as [|n IH]; trivial.
  cbn [stirling2] in *. rewrite IH. simpl. lia.
Qed.

(** *** The k-partitions of a collection *)

Lemma singletons_partition {A} (c : list A) :
  is_partition c (map (fun item => [item]) c).
Proof.
  split.
  - intros b Hb. apply in_map_iff in Hb as (x & <- & _). discriminate.
  - replace (concat (map (fun item => [item]) c)) with c;
      [apply Permutation_refl|].
    induction c as [|x c IH]; simpl; congruence.
Qed.

Lemma all_distinct_single {A} (p : list (list A)) : all_distinct [p].
Proof. constructor; [intros q []|constructor]. Qed.

Lemma rgs_seq_values N K s :
  In s (rgs_seq N K false) ->
  length s = N
  /\ (forall v, In v s -> 0 <= v < Z.of_nat K)
  /\ (forall v, 0 <= v < Z.of_nat K -> In v s).
Proof.
  intros Hs. apply rgs_seq_ok in Hs as (L & Hv & Hj & _).
  split; [trivial|]. split; trivial.
  intros v Hvk. replace v with (Z.of_nat (Z.to_nat v)) by lia.
  apply Hj. lia.
Qed.

(** Between the special cases, the results are the blocks of the
    restricted growth strings, in the order of the forward sweep. *)
Lemma k_partitions_eval {A} (c : list A) K :
  (2 <= K)%nat -> (K < length c)%nat ->
  k_partitions c (Z.of_nat K)
  = (map (fun s => blocks_of (Z.of_nat K) s c) (rgs_seq (length c) K false),
     None).
Proof.
  intros HK HKN. unfold k_partitions, Py.len.
  destruct (Z.eqb_spec (Z.of_nat (length c)) 0) as [E0|E0]; [lia|].
  destruct (Z.ltb_spec (Z.of_nat K) 1) as [L1|L1]; [lia|]. cbn [orb].
  destruct (Z.eqb_spec (Z.of_nat K) 1) as [E1|E1]; [lia|].
  destruct (Z.eqb_spec (Z.of_nat K) (Z.of_nat (length c))) as [En|En]; [lia|].
  remember (length c) as N eqn:EN.
  rewrite init_a_spec by lia.
  replace (Z.to_nat (Z.of_nat N + Z.of_nat K)) with (K + N)%nat by lia.
  pose (V := fun s : list Z => blocks_of (Z.of_nat K) s c).
  assert (Hvis : visits (Z.of_nat N) (Z.of_nat K) c V 0 []
                   (rgs_seq N K false)).
  { intros s Hs. rewrite app_nil_r.
    destruct (rgs_seq_values N K s Hs) as (L & Hv & _).
    apply visit_blocks; trivial; unfold Py.len; congruence. }
  destruct (sweep_spec (Z.of_nat N) (Z.of_nat K) c V (K + N) K N false 0 []
              HK HKN (Nat.le_refl _) Hvis) as [HF _].
  rewrite !app_nil_r in HF. change (Z.b2z false) with 0 in HF.
  rewrite HF. f_equal. unfold outs, V. apply map_ext. intros s.
  now rewrite app_nil_r.
Qed.

(** For [1 <= k <= n] no exception is raised and every result has [k]
    blocks, whatever the elements are. *)
Lemma k_partitions_total {A} (c : list A) (k : Z) :
  1 <= k <= Py.len c ->
  exists out, k_partitions c k = (out, None)
              /\ forall p, In p out -> length p = Z.to_nat k.
Proof.
  intros Hk. unfold Py.len in Hk.
  destruct (Z.eq_dec k 1) as [->|E1];
    [|destruct (Z.eq_dec k (Z.of_nat (length c))) as [->|En]].
  - unfold k_partitions, Py.len.
    destruct (Z.eqb_spec (Z.of_nat (length c)) 0) as [E0|E0]; [lia|].
    simpl. exists [[c]]. split; trivial. now intros p [<-|[]].
  - unfold k_partitions, Py.len.
    destruct (Z.eqb_spec (Z.of_nat (length c)) 0) as [E0|E0]; [lia|].
    destruct (Z.ltb_spec (Z.of_nat (length c)) 1); [lia|]. cbn [orb].
    destruct (Z.eqb_spec (Z.of_nat (length c)) 1); [lia|].
    rewrite Z.eqb_refl. eexists. split; [reflexivity|].
    intros p [<-|[]]. now rewrite length_map, Nat2Z.id.
  - destruct (Z_of_nat_complete k) as [K ->]; [lia|].
    rewrite k_partitions_eval by lia. eexists. split; [reflexivity|].
    intros p Hp. apply in_map_iff in Hp as (s & <- & _).
    apply blocks_of_length.
Qed.

(** C1: for a collection of size [n] and [1 <= k <= n], [k_partitions]
    ends without an exception after yielding exactly [S(n, k)] results,
    each made of [k] non-empty blocks that together rearrange the
    collection (so that the blocks of distinct elements are pairwise
    disjoint and their union is the collection); when the elements are
    distinct, no two results are the same partition, so none is repeated;
    and on [[0, 1, 2]] with [k = 2] the results are the three stated
    partitions. *)
Theorem k_partitions_spec {A} (c : list A) (k : Z) :
  1 <= k <= Py.len c ->
  (exists out,
      k_partitions c k = (out, None)
      /\ length out = stirling2 (length c) (Z.to_nat k)
      /\ (forall p, In p out -> length p = Z.to_nat k /\ is_partition c p)
      /\ (NoDup c -> all_distinct out /\ NoDup out))
  /\ k_partitions [0; 1; 2] 2
     = ([ [[0; 1]; [2]]; [[0]; [1; 2]]; [[0; 2]; [1]] ], None).
Proof.
  intros Hk. split; [|reflexivity]. unfold Py.len in Hk.
  assert (Hne : c <> []) by (intros ->; simpl in Hk; lia).
  destruct (Z.eq_dec k 1) as [->|E1];
    [|destruct (Z.eq_dec k (Z.of_nat (length c))) as [->|En]].
  - unfold k_partitions, Py.len.
    destruct (Z.eqb_spec (Z.of_nat (length c)) 0) as [E0|E0]; [lia|].
    simpl. exists [[c]]. split; [reflexivity|]. split; [|split].
    + destruct c as [|x c]; [congruence|]. simpl length at 1.
      symmetry. apply stirling2_one.
    + intros p [<-|[]]. split; [reflexivity|]. split.
      * intros b [<-|[]]. exact Hne.
      * simpl. rewrite app_nil_r. apply Permutation_refl.
    + intros _. split; [apply all_distinct_single|].
      repeat constructor. intros [].
  - unfold k_partitions, Py.len.
    destruct (Z.eqb_spec (Z.of_nat (length c)) 0) as [E0|E0]; [lia|].
    destruct (Z.ltb_spec (Z.of_nat (length c)) 1); [lia|]. cbn [orb].
    destruct (Z.eqb_spec (Z.of_nat (length c)) 1); [lia|].
    rewrite Z.eqb_refl, Nat2Z.id. eexists. split; [reflexivity|].
    split; [|split].
    + simpl. symmetry. apply stirling2_diag.
    + intros p [<-|[]]. split; [apply length_map|apply singletons_partition].
    + intros _. split; [apply all_distinct_single|].
      repeat constructor. intros [].
  - destruct (Z_of_nat_complete k) as [K ->]; [lia|]. rewrite Nat2Z.id.
    rewrite k_partitions_eval by lia. eexists. split; [reflexivity|].
    split; [|split].
    + now rewrite length_map, rgs_seq_length.
    + intros p Hp. apply in_map_iff in Hp as (s & <- & Hs).
      destruct (rgs_seq_values _ _ _ Hs) as (L & Hv & Hj).
      split; [|split].
      * rewrite blocks_of_length. lia.
      * intros b. now apply blocks_of_nonempty.
      * now apply blocks_of_perm.
    + intros Hc.
      assert (D : all_distinct
                    (map (fun s => blocks_of (Z.of_nat K) s c)
                         (rgs_seq (length c) K false))).
      { apply all_distinct_map; [apply rgs_seq_NoDup|].
        intros s s' Hs Hs' S.
        apply (blocks_of_inj (Z.of_nat K) K (length c) s s' c); trivial;
          [lia|now apply rgs_seq_ok in Hs|now apply rgs_seq_ok in Hs']. }
      split; [exact D|now apply all_distinct_NoDup].
Qed.

Lemma k_partitions_spec_witness :
  exists out,
    k_partitions [0; 1; 2; 3] 2 = (out, None)
    /\ length out = stirling2 4 2
    /\ (forall p, In p out -> length p = 2%nat /\ is_partition [0; 1; 2; 3] p)
    /\ (NoDup [0; 1; 2; 3] -> all_distinct out /\ NoDup out).
Proof.
  assert (R : 1 <= 2 <= Py.len [0; 1; 2; 3]) by (vm_compute; split; discriminate).
  exact (proj1 (k_partitions_spec [0; 1; 2; 3] 2 R)).
Defined.

(** * Properties of the "ALL" scheme *)

Lemma in_range2 lo hi x : In x (Py.range2 lo hi) <-> lo <= x < hi.
Proof.
  unfold Py.range2. rewrite in_map_iff. split.
  - intros (i & <- & Hi). apply in_range in Hi. lia.
  - intros H. exists (x - lo). split; [lia|]. apply in_range. lia.
Qed.

Lemma filter_flat_map {X Y} (f : Y -> bool) (g : X -> list Y) l :
  filter f (flat_map g l) = flat_map (fun x => filter f (g x)) l.
Proof.
  induction l as [|x l IH]; simpl; trivial. now rewrite filter_app, IH.
Qed.

(** A loop whose body never raises yields what its turns yield. *)
Lemma for_each_filter {X Y} (f : Y -> bool) (g : X -> list Y) l
  (body : X -> run Y) :
  (forall x, In x l -> body x = (filter f (g x), None)) ->
  for_each l body = (filter f (flat_map g l), None).
Proof.
  induction l as [|x l IH]; intros H; simpl; trivial.
  rewrite (H x) by (simpl; auto).
  rewrite IH by (intros; apply H; simpl; auto).
  now rewrite filter_app.
Qed.

Lemma for_gen_filter {X Y} (f : Y -> bool) (g : X -> list Y) out
  (gen0 : run X) (body : X -> run Y) :
  gen0 = (out, None) ->
  (forall x, In x out -> body x = (filter f (g x), None)) ->
  for_gen gen0 body = (filter f (flat_map g out), None).
Proof.
  intros -> H. unfold for_gen. simpl. now rewrite (for_each_filter f g).
Qed.

Lemma flat_map_single {X Y} (f : X -> Y) l :
  flat_map (fun x => [f x]) l = map f l.
Proof. induction l as [|x l IH]; simpl; congruence. Qed.

Lemma select_length {X} (l : list X) x r :
  In (x, r) (select l) -> length l = S (length r).
Proof.
  revert x r. induction l as [|y l IH]; intros x r H; [destruct H|].
  simpl in H. destruct H as [E|H].
  - injection E as -> ->. reflexivity.
  - apply in_map_iff in H as ([x' r'] & E & H). simpl in E.
    injection E as -> <-. simpl. f_equal. eapply IH; eauto.
Qed.

Lemma permutations_n_length {X} n : forall (l perm : list X),
  length l = n -> In perm (permutations_n n l) -> length perm = n.
Proof.
  induction n as [|n IH]; intros l perm Hl H; simpl in H.
  - destruct H as [<-|[]]. reflexivity.
  - apply in_flat_map in H as ([x r] & Hs & H). simpl in H.
    apply in_map_iff in H as (perm' & <- & H). simpl. f_equal.
    apply (IH r); trivial. apply select_length in Hs. lia.
Qed.

Lemma permutations_length {X} (l perm : list X) :
  In perm (permutations l) -> length perm = length l.
Proof. apply permutations_n_length. reflexivity. Qed.

Lemma excluded_first_spec m parts :
  excluded_first m parts = true <->
  exists part0 rest, parts = part0 :: rest
                     /\ mechanism part0 = m /\ purview part0 <> [].
Proof.
  destruct parts as [|part0 rest]; simpl.
  - split; [discriminate|]. intros (? & ? & E & _). discriminate.
  - unfold excluded. rewrite andb_true_iff, truthy_true. split.
    + intros [H1 H2]. exists part0, rest.
      destruct (list_eq_dec Z.eq_dec (mechanism part0) m); [auto|discriminate].
    + intros (p0 & r & E & H1 & H2). injection E as <- <-.
      destruct (list_eq_dec Z.eq_dec (mechanism part0) m); [auto|contradiction].
Qed.

Section AllPartitionsSpec.

Variable set_iter : list (list (list Z)) -> list (list (list Z)).
Hypothesis set_iter_sub : forall l x, In x (set_iter l) -> In x l.

(** The innermost loop: every candidate is tested, and [parts[0]] exists. *)
Lemma permutation_loop m (mp : list (list Z)) L :
  mp <> [] -> (forall perm, In perm L -> perm <> []) ->
  for_each L
    (fun purview_permutation =>
       let parts := zip_parts mp purview_permutation in
       match parts with
       | [] => ([], Some IndexError)
       | part0 :: _ =>
           if excluded m part0 then ([], None) else ([parts], None)
       end)
  = (filter (fun parts => negb (excluded_first m parts))
            (map (zip_parts mp) L), None).
Proof.
  intros Hmp HL. rewrite <- flat_map_single.
  apply for_each_filter. intros perm Hp.
  destruct mp as [|b mp]; [congruence|].
  destruct perm as [|q perm]; [exfalso; now apply (HL [])|].
  cbn. now destruct (excluded m _).
Qed.

(** C6: the "ALL" scheme never raises, and what it yields is the list of
    the generated candidates from which exactly those are removed whose
    first part has the whole mechanism and a non-empty purview. *)
Theorem all_partitions_spec (m p : list Z) :
  all_partitions set_iter m p
  = (filter (fun parts => negb (excluded_first m parts))
            (candidates set_iter m p), None)
  /\ forall parts,
       In parts (fst (all_partitions set_iter m p)) <->
       In parts (candidates set_iter m p)
       /\ ~ exists part0 rest, parts = part0 :: rest
                               /\ mechanism part0 = m
                               /\ purview part0 <> [].
Proof.
  assert (E : all_partitions set_iter m p
              = (filter (fun parts => negb (excluded_first m parts))
                        (candidates set_iter m p), None)).
  { unfold all_partitions, candidates. apply for_each_filter.
    intros mp0 _. cbv zeta. apply for_each_filter. intros k Hk.
    apply in_range2 in Hk.
    destruct (k_partitions_total p k) as (out & Hout & Hlen); [lia|].
    rewrite Hout. cbn [fst].
    apply (for_gen_filter _ _ out); trivial. intros pp0 Hpp.
    rewrite permutation_loop.
    - reflexivity.
    - destruct mp0; discriminate.
    - intros perm Hperm. apply set_iter_sub, permutations_length in Hperm.
      apply Hlen in Hpp. rewrite length_app in Hperm.
      intros ->. simpl in Hperm. lia. }
  split; [exact E|]. intros parts. rewrite E. cbn [fst].
  rewrite filter_In, negb_true_iff, <- excluded_first_spec.
  destruct (excluded_first m parts); intuition congruence.
Qed.

End AllPartitionsSpec.

Lemma all_partitions_spec_witness :
  all_partitions (nodup (list_eq_dec (list_eq_dec Z.eq_dec))) [0; 1] [2; 3]
  = (filter (fun parts => negb (excluded_first [0; 1] parts))
            (candidates (nodup (list_eq_dec (list_eq_dec Z.eq_dec)))
                        [0; 1] [2; 3]), None).
Proof.
  apply (all_partitions_spec (nodup (list_eq_dec (list_eq_dec Z.eq_dec)))).
  intros l x H. apply nodup_In in H. exact H.
Defined.

(** * Intersection combinatorics *)

(** C3, the failing case: with [max_size = 1] the two sets [{0}] and [{0}]
    are still returned as a combination of size two. *)
Theorem combinations_exceed_max_size :
  Comb.combinations_with_nonempty_intersection_by_order [[0]; [0]] 0 (Some 1)
  = Some [(2, [[0; 1]])].
Proof. reflexivity. Qed.

(** With [max_size] at least two the sizes returned do stay below it. *)
Example combinations_within_max_size :
  Comb.combinations_with_nonempty_intersection_by_order
    [[1; 2]; [2; 3]; [2; 4]; [5]; [1; 2; 3; 4; 5]] 3 (Some 3)
  = Some [(3, [[0; 1; 2]; [0; 1; 4]; [0; 2; 4]; [1; 2; 4]])].
Proof. reflexivity. Qed.

(** * The memo of the index enumerators *)





Lemma fold_left_ext {X Y} (f g : Y -> X -> Y) l : forall y,
  (forall y x, f y x = g y x) -> fold_left f l y = fold_left g l y.
Proof.
  induction l as [|x l IH]; intros y H; simpl; trivial.
  rewrite H. now apply IH.
Qed.

(** ** The index enumerators split [range(N)] in every possible way *)

Lemma filter_split_perm {X} (f : X -> bool) l :
  Permutation (filter f l ++ filter (fun x => negb (f x)) l) l.
Proof.
  induction l as [|x l IH]; simpl; [constructor|].
  destruct (f x); simpl.
  - now constructor.
  - symmetry. apply Permutation_cons_app. now symmetry.
Qed.

Lemma StronglySorted_filter {X} (R : X -> X -> Prop) (f : X -> bool) l :
  StronglySorted R l -> StronglySorted R (filter f l).
Proof.
  induction 1 as [|x l H IH F]; simpl; [constructor|].
  destruct (f x); trivial. constructor; trivial.
  rewrite Forall_forall in *. intros y Hy. apply filter_In in Hy. now apply F.
Qed.

Lemma seq_sorted m : forall s, StronglySorted Z.lt (map Z.of_nat (seq s m)).
Proof.
  induction m as [|m IH]; intros s; simpl; constructor; [apply IH|].
  apply Forall_forall. intros y Hy. apply in_map_iff in Hy as (j & <- & Hj).
  apply in_seq in Hj. lia.
Qed.

Lemma range_sorted N : StronglySorted Z.lt (Py.range N).
Proof. apply seq_sorted. Qed.

Lemma bipartition_indices_perm N q :
  In q (bipartition_indices N) ->
  Permutation (fst q ++ snd q) (Py.range N)
  /\ StronglySorted Z.lt (fst q) /\ StronglySorted Z.lt (snd q).
Proof.
  intros Hq. unfold bipartition_indices in Hq.
  destruct (N <=? 0); [destruct Hq|].
  apply in_map_iff in Hq as (i & <- & _). cbn [fst snd].
  rewrite bit_parts_filter. cbn [fst snd].
  split; [|split]; try apply StronglySorted_filter, range_sorted.
  eapply Permutation_trans; [apply Permutation_app_comm|].
  apply filter_split_perm.
Qed.

Lemma directed_bipartition_indices_perm N p :
  In p (directed_bipartition_indices N) ->
  Permutation (fst p ++ snd p) (Py.range N)
  /\ StronglySorted Z.lt (fst p) /\ StronglySorted Z.lt (snd p).
Proof.
  intros H. unfold directed_bipartition_indices in H.
  apply in_app_iff in H as [H|H].
  - now apply bipartition_indices_perm.
  - apply in_map_iff in H as (q & <- & Hq). apply in_rev in Hq.
    destruct (bipartition_indices_perm N q Hq) as (P & S1 & S2).
    destruct q as [q0 q1]. cbn in *.
    split; [|split]; trivial.
    eapply Permutation_trans; [apply Permutation_app_comm|]. exact P.
Qed.

(** X1 ([bipartition_indices]): each pair returned splits the indices
    [0 .. N-1]: the two parts together are a rearrangement of [range(N)],
    each part lists its indices in increasing order, and the largest index
    [N-1] is always in the second part. *)
Theorem bipartition_indices_split N p :
  In p (bipartition_indices N) ->
  Permutation (fst p ++ snd p) (Py.range N)
  /\ StronglySorted Z.lt (fst p) /\ StronglySorted Z.lt (snd p)
  /\ In (N - 1) (snd p).
Proof.
  intros H. pose proof (bipartition_indices_right N p H) as [HR _].
  destruct (bipartition_indices_perm N p H) as (P & S1 & S2). tauto.
Qed.

Lemma bipartition_indices_split_witness :
  Permutation ([0] ++ [1; 2]) (Py.range 3).
Proof.
  apply (bipartition_indices_split 3 ([0], [1; 2])). vm_compute. tauto.
Defined.

(** X2 ([directed_bipartition_indices]): each pair returned splits the
    indices [0 .. N-1] into two increasing parts, and read backwards the
    list is the same list with the two parts of every pair exchanged, so
    that each split comes in both directions. *)
Theorem directed_bipartition_indices_split N :
  (forall p, In p (directed_bipartition_indices N) ->
     Permutation (fst p ++ snd p) (Py.range N)
     /\ StronglySorted Z.lt (fst p) /\ StronglySorted Z.lt (snd p))
  /\ rev (directed_bipartition_indices N)
     = map swap (directed_bipartition_indices N).
Proof.
  split; [intros p; apply directed_bipartition_indices_perm|].
  unfold directed_bipartition_indices.
  rewrite rev_app_distr, map_app, <- map_rev, rev_involutive, map_map.
  f_equal. rewrite <- (map_id (rev (bipartition_indices N))) at 1.
  apply map_ext. intros q. now rewrite swap_swap.
Qed.

Lemma tri_rec_split key : forall s,
  let t := tri_rec (Z.of_nat s) key in
  Permutation (tri_all t) (map Z.of_nat (seq s (length key)))
  /\ StronglySorted Z.lt (fst (fst t))
  /\ StronglySorted Z.lt (snd (fst t))
  /\ StronglySorted Z.lt (snd t).
Proof.
  induction key as [|x key IH]; intros s; cbn [tri_rec length seq map].
  - cbn. repeat split; constructor.
  - pose proof (tri_rec_lower key (Z.of_nat s + 1)) as Lo.
    specialize (IH (S s)). rewrite Nat2Z.inj_succ in IH.
    replace (Z.succ (Z.of_nat s)) with (Z.of_nat s + 1) in IH by lia.
    destruct (tri_rec (Z.of_nat s + 1) key) as [[q0 q1] q2].
    cbn [tri_all fst snd] in *. destruct IH as (P & S0 & S1 & S2).
    assert (F : forall q, incl q (q0 ++ q1 ++ q2) ->
                Forall (Z.lt (Z.of_nat s)) q).
    { intros q Hq. apply Forall_forall. intros j Hj.
      specialize (Lo j (Hq j Hj)). lia. }
    destruct (x =? 0); [|destruct (x =? 1)]; cbn [tri_all fst snd].
    + split; [now constructor|]. split; [|now split].
      constructor; trivial. apply F. intros j Hj. apply in_app_iff. now left.
    + split; [|split; [trivial|split; trivial]].
      * symmetry. apply Permutation_cons_app. now symmetry.
      * constructor; trivial. apply F. intros j Hj.
        rewrite !in_app_iff. tauto.
    + split; [|split; [trivial|split; trivial]].
      * symmetry. rewrite app_assoc. apply Permutation_cons_app.
        rewrite <- app_assoc. now symmetry.
      * constructor; trivial. apply F. intros j Hj.
        rewrite !in_app_iff. tauto.
Qed.

Lemma directed_tripartition_indices_perm N t :
  In t (directed_tripartition_indices N) ->
  Permutation (tri_all t) (Py.range N).
Proof.
  unfold directed_tripartition_indices. destruct (N <=? 0); [intros []|].
  rewrite in_map_iff. intros (key & E & Hk).
  apply product_repeat_in in Hk as [Hl _].
  rewrite tri_parts_rec in E. pose proof (tri_rec_split key 0%nat) as H.
  change (Z.of_nat 0) with 0 in H. rewrite E, Hl in H. apply H.
Qed.

(** X3 ([directed_tripartition_indices]): each triple returned splits the
    indices [0 .. N-1]: the three parts together are a rearrangement of
    [range(N)] and each part lists its indices in increasing order. *)
Theorem directed_tripartition_indices_split N a b c :
  In (a, b, c) (directed_tripartition_indices N) ->
  Permutation (a ++ b ++ c) (Py.range N)
  /\ StronglySorted Z.lt a /\ StronglySorted Z.lt b /\ StronglySorted Z.lt c.
Proof.
  unfold directed_tripartition_indices. destruct (N <=? 0); [intros []|].
  rewrite in_map_iff. intros (key & E & Hk).
  apply product_repeat_in in Hk as [Hl _].
  rewrite tri_parts_rec in E. pose proof (tri_rec_split key 0%nat) as H.
  change (Z.of_nat 0) with 0 in H. rewrite E, Hl in H. exact H.
Qed.

Lemma directed_tripartition_indices_split_witness :
  Permutation ([1] ++ [] ++ [0]) (Py.range 2).
Proof.
  apply (directed_tripartition_indices_split 2 [1] [] [0]). vm_compute. tauto.
Defined.

(** *** Every split is enumerated *)

Lemma of_bits_range f n : forall lo, 0 <= of_bits f lo n < 2 ^ Z.of_nat n.
Proof.
  induction n as [|n IH]; intros lo; [simpl; lia|].
  cbn [of_bits]. rewrite Nat2Z.inj_succ, Z.pow_succ_r by lia.
  specialize (IH (lo + 1)). destruct (f lo); simpl Z.b2z; lia.
Qed.

Lemma of_bits_testbit f n : forall lo j,
  0 <= j ->
  Z.testbit (of_bits f lo n) j
  = if j <? Z.of_nat n then f (lo + j) else false.
Proof.
  induction n as [|n IH]; intros lo j Hj; cbn [of_bits].
  - rewrite Z.bits_0. now destruct (Z.ltb_spec j (Z.of_nat 0)); [lia|].
  - destruct (Z.eq_dec j 0) as [->|Hz].
    + rewrite Z.testbit_0_r, Z.add_0_r.
      now destruct (Z.ltb_spec 0 (Z.of_nat (S n))); [|lia].
    + replace j with (Z.succ (j - 1)) at 1 by lia.
      rewrite Z.testbit_succ_r, IH by lia.
      replace (lo + 1 + (j - 1)) with (lo + j) by lia.
      destruct (Z.ltb_spec (j - 1) (Z.of_nat n)),
               (Z.ltb_spec j (Z.of_nat (S n))); trivial; lia.
Qed.

Lemma bit_parts_of_bits N (f : Z -> bool) :
  1 <= N -> f (N - 1) = false ->
  bit_parts N (of_bits f 0 (Z.to_nat (N - 1)))
  = (filter (fun i => negb (f i)) (Py.range N), filter f (Py.range N)).
Proof.
  intros HN Hf. rewrite bit_parts_filter. f_equal.
  - apply filter_ext_in. intros n Hn. apply in_range in Hn.
    rewrite bit_of_testbit, of_bits_testbit by lia. cbn [Z.add].
    destruct (Z.ltb_spec n (Z.of_nat (Z.to_nat (N - 1)))).
    + now destruct (f n).
    + replace n with (N - 1) by lia. now rewrite Hf.
  - apply filter_ext_in. intros n Hn. apply in_range in Hn.
    rewrite bit_of_testbit, of_bits_testbit by lia. cbn [Z.add].
    destruct (Z.ltb_spec n (Z.of_nat (Z.to_nat (N - 1)))).
    + now destruct (f n).
    + replace n with (N - 1) by lia. now rewrite Hf.
Qed.

Lemma bipartition_indices_in N (f : Z -> bool) :
  1 <= N -> f (N - 1) = false ->
  In (filter f (Py.range N), filter (fun i => negb (f i)) (Py.range N))
     (bipartition_indices N).
Proof.
  intros HN Hf. rewrite bipartition_indices_pos by trivial.
  apply in_map_iff. exists (of_bits f 0 (Z.to_nat (N - 1))).
  rewrite bit_parts_of_bits by trivial. split; trivial.
  apply in_range. pose proof (of_bits_range f (Z.to_nat (N - 1)) 0) as R.
  rewrite Z2Nat.id in R by lia. exact R.
Qed.

(** X4 ([bipartition_indices]): for [N >= 1], the split of [0 .. N-1]
    into a set of indices (given by its membership test [f]) and the rest
    is returned exactly when the set leaves [N-1] out; so of the two
    orders of every split, the one with [N-1] in the second part is
    enumerated, and no other. *)
Theorem bipartition_indices_complete N (f : Z -> bool) :
  1 <= N ->
  (In (filter f (Py.range N), filter (fun i => negb (f i)) (Py.range N))
      (bipartition_indices N)
   <-> f (N - 1) = false).
Proof.
  intros HN. split.
  - intros H. apply bipartition_indices_right in H as [H _]. cbn [snd] in H.
    apply filter_In in H as [_ H]. now destruct (f (N - 1)).
  - now apply bipartition_indices_in.
Qed.

Lemma bipartition_indices_complete_witness :
  In (filter (fun i => i =? 1) (Py.range 3),
      filter (fun i => negb (i =? 1)) (Py.range 3))
     (bipartition_indices 3).
Proof.
  apply (bipartition_indices_complete 3 (fun i => i =? 1)); [lia|reflexivity].
Defined.

Lemma directed_bipartition_indices_in N (f : Z -> bool) :
  1 <= N ->
  In (filter f (Py.range N), filter (fun i => negb (f i)) (Py.range N))
     (directed_bipartition_indices N).
Proof.
  intros HN. unfold directed_bipartition_indices. apply in_app_iff.
  destruct (f (N - 1)) eqn:Hf.
  - right. apply in_map_iff.
    exists (filter (fun i => negb (f i)) (Py.range N), filter f (Py.range N)).
    split; trivial. apply in_rev. rewrite rev_involutive.
    pose proof (bipartition_indices_in N (fun i => negb (f i)) HN) as H.
    cbn beta in H. rewrite Hf in H. specialize (H eq_refl).
    erewrite (filter_ext (fun i => negb (negb (f i)))) in H; [exact H|].
    intros i. apply negb_involutive.
  - left. now apply bipartition_indices_in.
Qed.

(** X5 ([directed_bipartition_indices]): for [N >= 1], every split of
    [0 .. N-1] into a first part (given by its membership test [f]) and
    the rest is returned, whichever part holds [N-1]. *)
Theorem directed_bipartition_indices_complete N (f : Z -> bool) :
  1 <= N ->
  In (filter f (Py.range N), filter (fun i => negb (f i)) (Py.range N))
     (directed_bipartition_indices N).
Proof. apply directed_bipartition_indices_in. Qed.

Lemma directed_bipartition_indices_complete_witness :
  In (filter (fun i => i =? 2) (Py.range 3),
      filter (fun i => negb (i =? 2)) (Py.range 3))
     (directed_bipartition_indices 3).
Proof.
  apply (directed_bipartition_indices_complete 3 (fun i => i =? 2)). lia.
Defined.

Lemma product_repeat_complete {A} (base : list A) key :
  Forall (fun x => In x base) key ->
  In key (Py.product_repeat base (length key)).
Proof.
  induction 1 as [|x key Hx F IH]; cbn [length Py.product_repeat]; [now left|].
  apply in_flat_map. exists x. split; trivial. now apply in_map.
Qed.

Lemma tri_rec_map (g : Z -> Z) m : forall s,
  tri_rec (Z.of_nat s) (map g (map Z.of_nat (seq s m)))
  = (filter (fun i => g i =? 0) (map Z.of_nat (seq s m)),
     filter (fun i => negb (g i =? 0) && (g i =? 1)) (map Z.of_nat (seq s m)),
     filter (fun i => negb (g i =? 0) && negb (g i =? 1))
            (map Z.of_nat (seq s m))).
Proof.
  induction m as [|m IH]; intros s; cbn [seq map tri_rec filter]; trivial.
  specialize (IH (S s)). rewrite Nat2Z.inj_succ in IH.
  replace (Z.succ (Z.of_nat s)) with (Z.of_nat s + 1) in IH by lia.
  rewrite IH. destruct (g (Z.of_nat s) =? 0); cbn [negb andb]; trivial.
  destruct (g (Z.of_nat s) =? 1); trivial.
Qed.

(** X6 ([directed_tripartition_indices]): for [N >= 1], every way of
    sending the indices [0 .. N-1] to three parts (index [i] to part
    [g i], any value other than 0 and 1 standing for the third part) is
    returned. *)
Theorem directed_tripartition_indices_complete N (g : Z -> Z) :
  1 <= N ->
  In (filter (fun i => g i =? 0) (Py.range N),
      filter (fun i => negb (g i =? 0) && (g i =? 1)) (Py.range N),
      filter (fun i => negb (g i =? 0) && negb (g i =? 1)) (Py.range N))
     (directed_tripartition_indices N).
Proof.
  intros HN. rewrite directed_tripartition_indices_pos by trivial.
  set (loc := fun i => if g i =? 0 then 0 else if g i =? 1 then 1 else 2).
  apply in_map_iff. exists (map loc (Py.range N)). split.
  - rewrite tri_parts_rec. unfold Py.range.
    pose proof (tri_rec_map loc (Z.to_nat N) 0) as T.
    change (Z.of_nat 0) with 0 in T. rewrite T. unfold loc.
    f_equal; [f_equal|]; apply filter_ext; intros i;
      destruct (g i =? 0); trivial; destruct (g i =? 1); trivial.
  - replace (Z.to_nat N) with (length (map loc (Py.range N)))
      by (now rewrite length_map, range_length).
    apply product_repeat_complete. apply Forall_forall.
    intros x Hx. apply in_map_iff in Hx as (i & <- & _). unfold loc.
    destruct (g i =? 0); [now left|].
    destruct (g i =? 1); [right; now left|right; right; now left].
Qed.

Lemma directed_tripartition_indices_complete_witness :
  In (filter (fun i => i =? 0) (Py.range 2),
      filter (fun i => negb (i =? 0) && (i =? 1)) (Py.range 2),
      filter (fun i => negb (i =? 0) && negb (i =? 1)) (Py.range 2))
     (directed_tripartition_indices 2).
Proof.
  apply (directed_tripartition_indices_complete 2 (fun i => i)). lia.
Defined.

(** ** Bipartitions and tripartitions of a sequence *)

Lemma mapM_app {A B} (f : A -> option B) l1 l2 :
  Py.mapM f (l1 ++ l2) =
  match Py.mapM f l1, Py.mapM f l2 with
  | Some r1, Some r2 => Some (r1 ++ r2)
  | _, _ => None
  end.
Proof.
  induction l1 as [|x l1 IH]; simpl.
  - now destruct (Py.mapM f l2).
  - destruct (f x); trivial. rewrite IH.
    destruct (Py.mapM f l1), (Py.mapM f l2); trivial.
Qed.

Lemma mapM_perm {A B} (f : A -> option B) l l' :
  Permutation l l' -> forall r, Py.mapM f l = Some r ->
  exists r', Py.mapM f l' = Some r' /\ Permutation r r'.
Proof.
  induction 1 as [|x l l' P IH|x y l|l l' l'' P1 IH1 P2 IH2]; intros r H.
  - exists r. split; trivial.
  - simpl in *. destruct (f x) as [b|]; [|discriminate].
    destruct (Py.mapM f l) as [r0|]; [|discriminate]. injection H as <-.
    destruct (IH r0 eq_refl) as (r' & -> & Pr). exists (b :: r').
    split; trivial. now constructor.
  - simpl in *. destruct (f y) as [b|]; [|discriminate].
    destruct (f x) as [c|]; [|discriminate].
    destruct (Py.mapM f l) as [r0|]; [|discriminate]. injection H as <-.
    eexists. split; [reflexivity|]. apply perm_swap.
  - destruct (IH1 r H) as (r1 & H1 & Q1).
    destruct (IH2 r1 H1) as (r2 & H2 & Q2).
    exists r2. split; trivial. eapply perm_trans; eauto.
Qed.

Lemma mapM_in {A B} (f : A -> option B) l : forall r y,
  Py.mapM f l = Some r -> In y r -> exists x, In x l /\ f x = Some y.
Proof.
  induction l as [|x l IH]; intros r y H Hy; simpl in H.
  - injection H as <-. destruct Hy.
  - destruct (f x) as [b|] eqn:E; [|discriminate].
    destruct (Py.mapM f l) as [r0|]; [|discriminate]. injection H as <-.
    destruct Hy as [<-|Hy]; [exists x; split; [now left|trivial]|].
    destruct (IH r0 y eq_refl Hy) as (x' & Hx & Hf).
    exists x'. split; [now right|trivial].
Qed.

Lemma mapM_in_fwd {A B} (f : A -> option B) l : forall r x y,
  Py.mapM f l = Some r -> In x l -> f x = Some y -> In y r.
Proof.
  induction l as [|x0 l IH]; intros r x y H Hx Hf; [destruct Hx|].
  simpl in H. destruct (f x0) as [b|] eqn:E; [|discriminate].
  destruct (Py.mapM f l) as [r0|]; [|discriminate]. injection H as <-.
  destruct Hx as [->|Hx]; [left; congruence|right; eauto].
Qed.

Lemma mapM_length {A B} (f : A -> option B) l r :
  Py.mapM f l = Some r -> length r = length l.
Proof.
  intros H. apply mapM_Forall2 in H. symmetry. eapply Forall2_length; eauto.
Qed.

Lemma mapM_map {A B C D} (f : A -> option B) (f' : C -> option D)
  (g : A -> C) (h : B -> D) l :
  (forall x, f' (g x) = option_map h (f x)) ->
  Py.mapM f' (map g l) = option_map (map h) (Py.mapM f l).
Proof.
  intros H. induction l as [|x l IH]; simpl; trivial.
  rewrite H, IH. destruct (f x); simpl; trivial.
  destruct (Py.mapM f l); reflexivity.
Qed.

Lemma mapM_rev {A B} (f : A -> option B) l :
  Py.mapM f (rev l) = option_map (@rev B) (Py.mapM f l).
Proof.
  induction l as [|x l IH]; simpl; trivial.
  rewrite mapM_app, IH. simpl.
  destruct (Py.mapM f l), (f x); reflexivity.
Qed.

Lemma skipn_nth {X} (l : list X) s x :
  nth_error l s = Some x -> skipn s l = x :: skipn (S s) l.
Proof.
  intros H. pose proof (firstn_skipn_middle s l H) as E.
  rewrite <- E at 1. rewrite skipn_app, skipn_all2; [|rewrite length_firstn; lia].
  assert (L : length (firstn s l) = s).
  { apply firstn_length_le. apply Nat.lt_le_incl, nth_error_Some. congruence. }
  now rewrite L, Nat.sub_diag.
Qed.

(** Picking consecutive indices is taking a slice. *)
Lemma pick_slice {A} (l : list A) m : forall s,
  (s + m <= length l)%nat ->
  pick l (map Z.of_nat (seq s m)) = Some (firstn m (skipn s l)).
Proof.
  unfold pick. induction m as [|m IH]; intros s H; cbn [seq map Py.mapM].
  - reflexivity.
  - rewrite getitem_nat.
    destruct (nth_error l s) as [x|] eqn:E;
      [|apply nth_error_None in E; lia].
    rewrite IH by lia. now rewrite (skipn_nth l s x E).
Qed.

Lemma pick_range {A} (l : list A) : pick l (Py.range (Py.len l)) = Some l.
Proof.
  unfold Py.range, Py.len. rewrite Nat2Z.id, pick_slice by lia.
  now rewrite skipn_O, firstn_all.
Qed.

Lemma pick_app {A} (l : list A) a b :
  pick l (a ++ b) =
  match pick l a, pick l b with
  | Some x, Some y => Some (x ++ y)
  | _, _ => None
  end.
Proof. apply mapM_app. Qed.

Lemma pick_perm_range {A} (l : list A) idx r :
  Permutation idx (Py.range (Py.len l)) -> pick l idx = Some r ->
  Permutation r l.
Proof.
  intros P H. destruct (mapM_perm _ _ _ P r H) as (r' & H' & Q).
  fold (pick l (Py.range (Py.len l))) in H'. rewrite pick_range in H'.
  now injection H' as <-.
Qed.

Lemma pick2_perm {A} (l : list A) p q :
  Permutation (fst p ++ snd p) (Py.range (Py.len l)) ->
  pick2 l p = Some q -> Permutation (fst q ++ snd q) l.
Proof.
  intros P H. unfold pick2 in H.
  destruct (pick l (fst p)) as [a|] eqn:Ea; [|discriminate].
  destruct (pick l (snd p)) as [b|] eqn:Eb; [|discriminate].
  injection H as <-. cbn [fst snd].
  apply (pick_perm_range l (fst p ++ snd p)); trivial.
  now rewrite pick_app, Ea, Eb.
Qed.

Lemma filter_all {X} (f : X -> bool) l :
  (forall x, In x l -> f x = true) -> filter f l = l.
Proof.
  intros H. apply forallb_filter_id, forallb_forall. exact H.
Qed.

Lemma filter_none {X} (f : X -> bool) l :
  (forall x, In x l -> f x = false) -> filter f l = [].
Proof.
  induction l as [|x l IH]; intros H; simpl; trivial.
  rewrite (H x) by now left. apply IH. intros y Hy. apply H. now right.
Qed.

(** The first index pair has everything in its second part. *)
Lemma bipartition_indices_first N :
  1 <= N -> exists rest, bipartition_indices N = ([], Py.range N) :: rest.
Proof.
  intros HN. rewrite bipartition_indices_pos by trivial.
  assert (P : 0 < 2 ^ (N - 1)) by (apply Z.pow_pos_nonneg; lia).
  unfold Py.range at 1.
  destruct (Z.to_nat (2 ^ (N - 1))) as [|m] eqn:E; [lia|].
  cbn [seq map]. eexists. f_equal. rewrite ones_zero. f_equal.
  rewrite bit_parts_filter. cbn [fst]. apply filter_all.
  intros n _. unfold bit_of. now rewrite Z.shiftr_0_l.
Qed.

Lemma pick2_first {A} (l : list A) :
  pick2 l ([], Py.range (Py.len l)) = Some ([], l).
Proof. unfold pick2. cbn [fst snd]. now rewrite pick_range. Qed.

Lemma bipartition_perm {A} (seq : list A) (nontrivial : bool) bs q :
  bipartition seq nontrivial = Some bs -> In q bs ->
  Permutation (fst q ++ snd q) seq /\ snd q <> [].
Proof.
  unfold bipartition.
  destruct (Py.mapM (pick2 seq) (bipartition_indices (Py.len seq)))
    as [l|] eqn:E; [|discriminate].
  intros H Hq. injection H as <-.
  assert (Hl : In q l).
  { destruct nontrivial; trivial. destruct l; [destruct Hq|now right]. }
  destruct (mapM_in _ _ _ _ E Hl) as (p & Hp & Hpq). split.
  - apply (pick2_perm seq p); trivial.
    now apply bipartition_indices_perm.
  - apply bipartition_indices_right in Hp as [Hp _].
    apply pick2_lengths in Hpq as [_ L]. intros Eq. rewrite Eq in L.
    destruct (snd p); [destruct Hp|discriminate].
Qed.

(** X7 ([bipartition]): for every sequence, with or without
    [nontrivial], no index is out of range (nothing is raised), and each
    pair returned is a rearrangement of the sequence split in two, with
    a second part that is never empty. *)
Theorem bipartition_rearranges {A} (seq : list A) (nontrivial : bool) :
  exists bs,
    bipartition seq nontrivial = Some bs
    /\ forall q, In q bs ->
         Permutation (fst q ++ snd q) seq /\ snd q <> [].
Proof.
  destruct (bipartition_total seq nontrivial) as [bs H]. exists bs.
  split; trivial. intros q. now apply (bipartition_perm seq nontrivial).
Qed.

(** The trivial bipartition comes first, and is the only one with an
    empty part. *)
Lemma bipartition_first_rest {A} (seq : list A) :
  seq <> [] ->
  exists bs,
    bipartition seq false = Some (([], seq) :: bs)
    /\ bipartition seq true = Some bs
    /\ Py.len bs = 2 ^ (Py.len seq - 1) - 1
    /\ forall q, In q bs -> fst q <> [] /\ snd q <> [].
Proof.
  intros Hne.
  assert (HN : 1 <= Py.len seq).
  { unfold Py.len. destruct seq; [contradiction|simpl; lia]. }
  pose proof (bipartition_indices_length _ HN) as HL.
  pose proof (fun k p => bipartition_indices_nth (Py.len seq) k p HN) as Hnth.
  destruct (bipartition_indices_first _ HN) as [rest Er].
  destruct (bipartition_total seq false) as [bs0 Hbs].
  unfold bipartition in *. rewrite Er in *. cbn [Py.mapM] in *.
  rewrite pick2_first in *.
  destruct (Py.mapM (pick2 seq) rest) as [bs|] eqn:E; [|discriminate].
  exists bs. split; [reflexivity|]. split; [reflexivity|]. split.
  - apply mapM_length in E. unfold Py.len in *. cbn [length] in HL. lia.
  - intros q Hq. destruct (mapM_in _ _ _ _ E Hq) as (p & Hp & Hpq).
    apply In_nth_error in Hp as [k Hk].
    destruct (Hnth (S k) p Hk) as [N1 N0].
    apply pick2_lengths in Hpq as [L0 L1].
    split; intros Eq; rewrite Eq in *; cbn [length] in *.
    + symmetry in L0. apply length_zero_iff_nil in L0. apply N0 in L0.
      discriminate.
    + symmetry in L1. apply length_zero_iff_nil in L1. contradiction.
Qed.

(** X8 ([bipartition]): for a non-empty sequence the first bipartition is
    the trivial one, with an empty first part and the whole sequence as
    second part; [nontrivial=True] returns the others, [2^(n-1) - 1] of
    them, and none of those has an empty part. *)
Theorem bipartition_nontrivial {A} (seq : list A) :
  seq <> [] ->
  exists bs,
    bipartition seq false = Some (([], seq) :: bs)
    /\ bipartition seq true = Some bs
    /\ Py.len bs = 2 ^ (Py.len seq - 1) - 1
    /\ forall q, In q bs -> fst q <> [] /\ snd q <> [].
Proof. apply bipartition_first_rest. Qed.

Lemma bipartition_nontrivial_witness :
  exists bs,
    bipartition [1; 2; 3] false = Some (([], [1; 2; 3]) :: bs)
    /\ bipartition [1; 2; 3] true = Some bs
    /\ Py.len bs = 2 ^ (Py.len [1; 2; 3] - 1) - 1
    /\ forall q, In q bs -> fst q <> [] /\ snd q <> [].
Proof. apply (bipartition_nontrivial [1; 2; 3]). discriminate. Defined.

Lemma pick2_swap {A} (l : list A) p :
  pick2 l (swap p) = option_map swap (pick2 l p).
Proof.
  unfold pick2, swap. cbn [fst snd].
  destruct (pick l (fst p)), (pick l (snd p)); reflexivity.
Qed.

Lemma directed_bipartition_unfold {A} (seq : list A) bs :
  bipartition seq false = Some bs ->
  directed_bipartition seq false = Some (bs ++ map swap (rev bs)).
Proof.
  unfold bipartition, directed_bipartition, directed_bipartition_indices.
  destruct (Py.mapM (pick2 seq) (bipartition_indices (Py.len seq)))
    as [l|] eqn:E; [|discriminate].
  intros H. injection H as <-.
  rewrite mapM_app, E.
  rewrite (mapM_map (pick2 seq) (pick2 seq) swap swap)
    by apply pick2_swap.
  rewrite mapM_rev, E. reflexivity.
Qed.

Lemma directed_bipartition_perm {A} (seq : list A) bs q :
  bipartition seq false = Some bs -> In q (bs ++ map swap (rev bs)) ->
  Permutation (fst q ++ snd q) seq.
Proof.
  intros Hbs Hq. apply in_app_iff in Hq as [Hq|Hq].
  - now apply (bipartition_perm seq false bs).
  - apply in_map_iff in Hq as (q' & <- & Hq'). apply in_rev in Hq'.
    destruct q' as [a b]. cbn.
    eapply Permutation_trans; [apply Permutation_app_comm|].
    now apply (bipartition_perm seq false bs (a, b)).
Qed.

(** X9 ([directed_bipartition]): the directed bipartitions of a sequence
    are its bipartitions followed by the same bipartitions in reverse
    order with their two parts exchanged; hence each is a rearrangement of
    the sequence split in two, and each comes in both directions. *)
Theorem directed_bipartition_mirror {A} (seq : list A) :
  exists bs,
    bipartition seq false = Some bs
    /\ directed_bipartition seq false = Some (bs ++ map swap (rev bs))
    /\ forall q, In q (bs ++ map swap (rev bs)) ->
         Permutation (fst q ++ snd q) seq
         /\ In (swap q) (bs ++ map swap (rev bs)).
Proof.
  destruct (bipartition_total seq false) as [bs Hbs]. exists bs.
  split; trivial. split; [now apply directed_bipartition_unfold|].
  intros q Hq. split; [now apply (directed_bipartition_perm seq bs)|].
  apply in_app_iff in Hq as [Hq|Hq].
  - apply in_app_iff. right.
    apply in_map, in_rev. now rewrite rev_involutive.
  - apply in_map_iff in Hq as (q' & <- & Hq'). apply in_rev in Hq'.
    rewrite swap_swap. apply in_app_iff; now left.
Qed.

Lemma pick3_perm {A} (l : list A) t a b c :
  Permutation (tri_all t) (Py.range (Py.len l)) ->
  pick3 l t = Some (a, b, c) -> Permutation (a ++ b ++ c) l.
Proof.
  destruct t as [[t0 t1] t2]. cbn [tri_all pick3]. intros P H.
  destruct (pick l t0) as [pa|] eqn:Ea; [|discriminate].
  destruct (pick l t1) as [pb|] eqn:Eb; [|discriminate].
  destruct (pick l t2) as [pc|] eqn:Ec; [|discriminate].
  injection H as <- <- <-.
  apply (pick_perm_range l (t0 ++ t1 ++ t2)); trivial.
  now rewrite !pick_app, Ea, Eb, Ec.
Qed.

(** X10 ([directed_tripartition]): for every sequence no index is out of
    range (nothing is raised); an empty sequence has no tripartition, a
    sequence of [n >= 1] elements has [3^n], and each triple yielded is a
    rearrangement of the sequence split in three. *)
Theorem directed_tripartition_rearranges {A} (seq : list A) :
  exists ts,
    directed_tripartition seq = Some ts
    /\ (seq = [] -> ts = [])
    /\ (seq <> [] -> Py.len ts = 3 ^ Py.len seq)
    /\ forall a b c, In (a, b, c) ts -> Permutation (a ++ b ++ c) seq.
Proof.
  destruct (directed_tripartition_total seq) as [ts H]. exists ts.
  split; trivial. unfold directed_tripartition in H. split; [|split].
  - intros ->. cbn in H. now injection H as <-.
  - intros Hne. apply mapM_length in H. unfold Py.len at 1. rewrite H.
    apply directed_tripartition_indices_length.
    unfold Py.len. destruct seq; [contradiction|simpl; lia].
  - intros a b c Hin. destruct (mapM_in _ _ _ _ H Hin) as (t & Ht & Hp).
    apply (pick3_perm seq t); trivial.
    now apply directed_tripartition_indices_perm.
Qed.

(** *** Cutting a single element off *)

Lemma bipartition_of_one_in {A} (seq : list A) q :
  In q (bipartition_of_one seq) <->
  exists pre x post, seq = pre ++ x :: post /\ q = ([x], pre ++ post).
Proof.
  unfold bipartition_of_one, Py.enumerate. rewrite in_map_iff. split.
  - intros ([i elt] & <- & Hin).
    apply in_combine_nth in Hin as (i' & Hi & He).
    assert (Hlt : (i' < length seq)%nat) by (apply nth_error_Some; congruence).
    rewrite nth_error_range in Hi by (unfold Py.len; lia).
    injection Hi as <-.
    exists (firstn i' seq), elt, (skipn (S i') seq). split.
    + symmetry. now apply firstn_skipn_middle.
    + rewrite Nat2Z.id. replace (Z.to_nat (Z.of_nat i' + 1)) with (S i') by lia.
      reflexivity.
  - intros (pre & x & post & -> & ->).
    exists (Z.of_nat (length pre), x). split.
    + rewrite Nat2Z.id.
      replace (Z.to_nat (Z.of_nat (length pre) + 1)) with (S (length pre))
        by lia.
      rewrite firstn_app, firstn_all, Nat.sub_diag, firstn_O, app_nil_r.
      rewrite skipn_app, skipn_all2 by lia.
      replace (S (length pre) - length pre)%nat with 1%nat by lia.
      reflexivity.
    + apply in_combine_nth. exists (length pre). split.
      * apply nth_error_range. unfold Py.len. rewrite Nat2Z.id, length_app.
        simpl. lia.
      * rewrite nth_error_app2, Nat.sub_diag by lia. reflexivity.
Qed.

Lemma map_snd_enumerate {A} (seq : list A) :
  map snd (Py.enumerate seq) = seq.
Proof.
  unfold Py.enumerate. apply map_snd_combine.
  rewrite range_length. unfold Py.len. lia.
Qed.

(** X11 ([bipartition_of_one], [directed_bipartition_of_one]): the
    results are exactly the ways of taking one element out of the
    sequence and keeping the others in order; the i-th result takes the
    i-th element out, and the directed variant yields these [n] pairs
    followed by the same [n] pairs with their parts exchanged. *)
Theorem bipartition_of_one_spec {A} (seq : list A) :
  (forall q, In q (bipartition_of_one seq) <->
     exists pre x post, seq = pre ++ x :: post /\ q = ([x], pre ++ post))
  /\ map fst (bipartition_of_one seq) = map (fun x => [x]) seq
  /\ Py.len (directed_bipartition_of_one seq) = 2 * Py.len seq
  /\ forall q, In q (directed_bipartition_of_one seq) ->
       Permutation (fst q ++ snd q) seq
       /\ In (swap q) (directed_bipartition_of_one seq).
Proof.
  split; [apply bipartition_of_one_in|]. split; [|split].
  - unfold bipartition_of_one. rewrite map_map.
    rewrite <- (map_snd_enumerate seq) at 2. rewrite map_map.
    apply map_ext. now intros [i elt].
  - unfold directed_bipartition_of_one, reverse_elements, bipartition_of_one,
      Py.enumerate, Py.len.
    rewrite length_app, !length_map, length_combine, range_length.
    unfold Py.len. lia.
  - unfold directed_bipartition_of_one, reverse_elements. intros q Hq.
    assert (P : forall q', In q' (bipartition_of_one seq) ->
                  Permutation (fst q' ++ snd q') seq).
    { intros q' H. apply bipartition_of_one_in in H
        as (pre & x & post & -> & ->). cbn.
      apply Permutation_cons_app. reflexivity. }
    apply in_app_iff in Hq as [Hq|Hq].
    + split; [now apply P|]. apply in_app_iff. right. now apply in_map.
    + apply in_map_iff in Hq as (q' & <- & Hq'). rewrite swap_swap.
      split; [|apply in_app_iff; now left].
      destruct q' as [a b]. cbn.
      eapply Permutation_trans; [apply Permutation_app_comm|].
      now apply (P (a, b)).
Qed.

Lemma in_removelast_tl_intro {A} (l : list A) k x :
  nth_error l k = Some x -> k <> 0%nat -> S k <> length l ->
  In x (removelast (tl l)).
Proof.
  intros H K0 K1. destruct l as [|y l]; [destruct k; discriminate|].
  destruct k as [|k]; [contradiction|]. cbn [tl nth_error length] in *.
  assert (Hlt : (k < length l)%nat) by (apply nth_error_Some; congruence).
  rewrite removelast_firstn_len. apply (nth_error_In _ k).
  rewrite nth_error_firstn.
  destruct (Nat.ltb_spec k (pred (length l))); [trivial|lia].
Qed.

(** A directed bipartition with two non-empty parts survives
    [nontrivial=True]. *)
Lemma directed_bipartition_keep {A} (seq : list A) ds q :
  directed_bipartition seq false = Some ds ->
  In q ds -> fst q <> [] -> snd q <> [] ->
  directed_bipartition seq true = Some (removelast (tl ds))
  /\ In q (removelast (tl ds)).
Proof.
  unfold directed_bipartition.
  destruct (Py.mapM (pick2 seq) (directed_bipartition_indices (Py.len seq)))
    as [l|] eqn:E; [|discriminate].
  intros H Hq N0 N1. injection H as <-. split; trivial.
  apply In_nth_error in Hq as [k Hk].
  apply mapM_Forall2 in E. pose proof (Forall2_length E) as EL.
  destruct (Forall2_nth_error _ _ _ _ _ E Hk) as (p & Hp & Hpq).
  apply pick2_lengths in Hpq as [L0 L1].
  assert (HN : 1 <= Py.len seq).
  { destruct (Z_le_dec 1 (Py.len seq)); trivial.
    rewrite (proj1 (proj2 (index_enumerators_nonpos (Py.len seq) ltac:(lia))))
      in Hp. destruct k; discriminate. }
  pose proof (directed_bipartition_indices_nth _ k p HN Hp) as Hnth.
  apply (in_removelast_tl_intro l k); trivial.
  - intros ->. destruct Hnth as [_ Hnth].
    destruct Hnth as [Ep|Ep]; [now left| |]; rewrite Ep in *; cbn in *.
    + apply N0. now apply length_zero_iff_nil.
    + apply N1. now apply length_zero_iff_nil.
  - intros Ek. destruct Hnth as [_ Hnth].
    destruct Hnth as [Ep|Ep]; [right; lia| |]; rewrite Ep in *; cbn in *.
    + apply N0. now apply length_zero_iff_nil.
    + apply N1. now apply length_zero_iff_nil.
Qed.

Lemma directed_bipartition_swap_closed {A} (seq : list A) ds q :
  directed_bipartition seq false = Some ds -> In q ds -> In (swap q) ds.
Proof.
  intros H Hq. destruct (bipartition_total seq false) as [bs Hbs].
  rewrite (directed_bipartition_unfold seq bs Hbs) in H. injection H as <-.
  rewrite in_app_iff in *. destruct Hq as [Hq|Hq].
  - right. apply in_map, in_rev. now rewrite rev_involutive.
  - apply in_map_iff in Hq as (q' & <- & Hq'). apply in_rev in Hq'.
    rewrite swap_swap. now left.
Qed.

(** The directed bipartition whose first part holds the indices that
    pass [f]. *)
Lemma directed_bipartition_in {A} (seq : list A) (f : Z -> bool) ds a b :
  directed_bipartition seq false = Some ds ->
  pick seq (filter f (Py.range (Py.len seq))) = Some a ->
  pick seq (filter (fun i => negb (f i)) (Py.range (Py.len seq))) = Some b ->
  seq <> [] ->
  In (a, b) ds.
Proof.
  unfold directed_bipartition.
  destruct (Py.mapM (pick2 seq) (directed_bipartition_indices (Py.len seq)))
    as [l|] eqn:E; [|discriminate].
  intros H Ha Hb Hne. injection H as <-.
  eapply mapM_in_fwd; [exact E| |].
  - apply (directed_bipartition_indices_in _ f).
    unfold Py.len. destruct seq; [contradiction|simpl; lia].
  - unfold pick2. cbn [fst snd]. now rewrite Ha, Hb.
Qed.

Lemma range_split (N i : nat) :
  (i < N)%nat ->
  Py.range (Z.of_nat N)
  = map Z.of_nat (seq 0 i) ++ [Z.of_nat i]
      ++ map Z.of_nat (seq (S i) (N - S i)).
Proof.
  intros H. unfold Py.range. rewrite Nat2Z.id.
  replace N with (i + S (N - S i))%nat at 1 by lia.
  rewrite seq_app, map_app. reflexivity.
Qed.

Lemma pick_one_out {A} (pre post : list A) x :
  let seq := pre ++ x :: post in
  let i := Z.of_nat (length pre) in
  pick seq (filter (fun j => j =? i) (Py.range (Py.len seq))) = Some [x]
  /\ pick seq (filter (fun j => negb (j =? i)) (Py.range (Py.len seq)))
     = Some (pre ++ post).
Proof.
  intros seq i. unfold Py.len.
  assert (L : length seq = (length pre + S (length post))%nat)
    by (unfold seq; now rewrite length_app).
  rewrite (range_split (length seq) (length pre)) by lia.
  rewrite !filter_app.
  assert (F1 : forall j, In j (map Z.of_nat (List.seq 0 (length pre))) ->
                 (j =? i) = false).
  { intros j Hj. apply in_map_iff in Hj as (o & <- & Ho).
    apply in_seq in Ho. apply Z.eqb_neq. unfold i. lia. }
  assert (F3 : forall j,
             In j (map Z.of_nat
                     (List.seq (S (length pre)) (length seq - S (length pre)))) ->
             (j =? i) = false).
  { intros j Hj. apply in_map_iff in Hj as (o & <- & Ho).
    apply in_seq in Ho. apply Z.eqb_neq. unfold i. lia. }
  assert (Px : pick seq [i] = Some [x]).
  { unfold i. change [Z.of_nat (length pre)]
      with (map Z.of_nat (List.seq (length pre) 1)).
    rewrite pick_slice by lia. unfold seq.
    rewrite skipn_app, skipn_all2, Nat.sub_diag by lia. reflexivity. }
  assert (Ppre : pick seq (map Z.of_nat (List.seq 0 (length pre))) = Some pre).
  { rewrite pick_slice by lia. unfold seq.
    rewrite skipn_O, firstn_app, firstn_all, Nat.sub_diag, firstn_O.
    now rewrite app_nil_r. }
  assert (Ppost : pick seq (map Z.of_nat
                              (List.seq (S (length pre))
                                        (length seq - S (length pre))))
                  = Some post).
  { rewrite pick_slice by lia. unfold seq at 2.
    rewrite skipn_app, skipn_all2 by lia.
    replace (S (length pre) - length pre)%nat with 1%nat by lia.
    cbn [skipn app]. rewrite L.
    replace (length pre + S (length post) - S (length pre))%nat
      with (length post) by lia.
    now rewrite firstn_all. }
  split.
  - rewrite (filter_none _ _ F1), (filter_none _ _ F3).
    cbn [filter app]. rewrite Z.eqb_refl. exact Px.
  - rewrite (filter_all (fun j => negb (j =? i))
               (map Z.of_nat (List.seq 0 (length pre))))
      by (intros j Hj; now rewrite F1).
    rewrite (filter_all (fun j => negb (j =? i))
               (map Z.of_nat (List.seq (S (length pre)) _)))
      by (intros j Hj; now rewrite F3).
    cbn [filter]. rewrite Z.eqb_refl. cbn [negb app].
    rewrite pick_app, Ppre, Ppost. reflexivity.
Qed.

(** X12 ([directed_bipartition_of_one] within [directed_bipartition]):
    every bipartition that cuts one element off is one of the directed
    bipartitions of the sequence, and for a sequence of at least two
    elements it is one of the non-trivial ones. *)
Theorem directed_bipartition_of_one_incl {A} (seq : list A) :
  exists ds,
    directed_bipartition seq false = Some ds
    /\ incl (directed_bipartition_of_one seq) ds
    /\ (2 <= Py.len seq ->
        exists ds', directed_bipartition seq true = Some ds'
                    /\ incl (directed_bipartition_of_one seq) ds').
Proof.
  destruct (directed_bipartition_total seq false) as [ds Hds]. exists ds.
  split; trivial.
  assert (B : forall q, In q (bipartition_of_one seq) -> In q ds).
  { intros q Hq.
    apply bipartition_of_one_in in Hq as (pre & x & post & E & ->).
    destruct (pick_one_out pre post x) as [P1 P2]. cbn zeta in P1, P2.
    rewrite <- E in P1, P2.
    apply (directed_bipartition_in seq
             (fun j => j =? Z.of_nat (length pre))); trivial.
    rewrite E. now destruct pre. }
  assert (I : incl (directed_bipartition_of_one seq) ds).
  { intros q Hq. unfold directed_bipartition_of_one, reverse_elements in Hq.
    apply in_app_iff in Hq as [Hq|Hq]; [now apply B|].
    apply in_map_iff in Hq as (q' & <- & Hq').
    apply (directed_bipartition_swap_closed seq); auto. }
  split; trivial. intros H2. exists (removelast (tl ds)).
  assert (NE : forall q, In q (bipartition_of_one seq) ->
                 fst q <> [] /\ snd q <> []).
  { intros q Hq.
    apply bipartition_of_one_in in Hq as (pre & x & post & E & ->).
    cbn. split; [discriminate|]. intros E0.
    apply app_eq_nil in E0 as [-> ->]. rewrite E in H2.
    unfold Py.len in H2. simpl in H2. lia. }
  split.
  - unfold directed_bipartition in *.
    destruct (Py.mapM (pick2 seq) (directed_bipartition_indices (Py.len seq)));
      [|discriminate].
    now injection Hds as <-.
  - intros q Hq. apply (directed_bipartition_keep seq ds q); auto.
    + unfold directed_bipartition_of_one, reverse_elements in Hq.
      apply in_app_iff in Hq as [Hq|Hq]; [now apply NE|].
      apply in_map_iff in Hq as (q' & <- & Hq'). now apply (NE q').
    + unfold directed_bipartition_of_one, reverse_elements in Hq.
      apply in_app_iff in Hq as [Hq|Hq]; [now apply NE|].
      apply in_map_iff in Hq as (q' & <- & Hq'). now apply (NE q').
Qed.

(** ** System cuts and the partition schemes on their borders *)

Lemma range2_length lo hi : length (Py.range2 lo hi) = Z.to_nat (hi - lo).
Proof. unfold Py.range2. now rewrite length_map, range_length. Qed.

(** X13 ([system_bipartitions_simple]): the "DIRECTED_BI_SIMPLE" scheme
    returns two cuts for each of the [n - 1] places at which the node
    list can be cut in two, none for fewer than two nodes; both sides of
    every cut are non-empty, and the sides are a prefix of the node list
    and the rest of it, in one direction or the other. *)
Theorem system_bipartitions_simple_spec (nodes : list Z) :
  Py.len (system_bipartitions_simple nodes) = 2 * Z.max 0 (Py.len nodes - 1)
  /\ forall cut, In cut (system_bipartitions_simple nodes) ->
       from_nodes cut <> [] /\ to_nodes cut <> []
       /\ (from_nodes cut ++ to_nodes cut = nodes
           \/ to_nodes cut ++ from_nodes cut = nodes).
Proof.
  unfold system_bipartitions_simple. split.
  - unfold Py.len at 1. rewrite (length_flat_map_const _ _ 2%nat) by trivial.
    rewrite range2_length. lia.
  - intros cut H. apply in_flat_map in H as (n & Hn & H).
    apply in_range2 in Hn. unfold Py.len in Hn.
    assert (F : firstn (Z.to_nat n) nodes <> []).
    { intros E. apply (f_equal (@length Z)) in E.
      rewrite length_firstn in E. simpl in E. lia. }
    assert (S : skipn (Z.to_nat n) nodes <> []).
    { intros E. apply (f_equal (@length Z)) in E.
      rewrite length_skipn in E. simpl in E. lia. }
    destruct H as [<-|[<-|[]]]; cbn [from_nodes to_nodes];
      (split; [|split]); trivial; [left|right]; apply firstn_skipn.
Qed.

(** Picking the indices below [n], and the others, cuts the sequence at
    [n]. *)
Lemma pick_cut {A} (seq : list A) (n : nat) :
  (n <= length seq)%nat ->
  pick seq (filter (fun j => j <? Z.of_nat n) (Py.range (Py.len seq)))
  = Some (firstn n seq)
  /\ pick seq (filter (fun j => negb (j <? Z.of_nat n))
                      (Py.range (Py.len seq)))
     = Some (skipn n seq).
Proof.
  intros H. unfold Py.range, Py.len. rewrite Nat2Z.id.
  assert (E : List.seq 0 (length seq)
              = List.seq 0 n ++ List.seq n (length seq - n)).
  { rewrite <- seq_app. f_equal. lia. }
  rewrite E, map_app, !filter_app.
  assert (F1 : forall j, In j (map Z.of_nat (List.seq 0 n)) ->
                 (j <? Z.of_nat n) = true).
  { intros j Hj. apply in_map_iff in Hj as (o & <- & Ho).
    apply in_seq in Ho. apply Z.ltb_lt. lia. }
  assert (F2 : forall j, In j (map Z.of_nat (List.seq n (length seq - n))) ->
                 (j <? Z.of_nat n) = false).
  { intros j Hj. apply in_map_iff in Hj as (o & <- & Ho).
    apply in_seq in Ho. apply Z.ltb_ge. lia. }
  split.
  - rewrite (filter_all _ _ F1), (filter_none _ _ F2), app_nil_r.
    rewrite pick_slice by lia. now rewrite skipn_O.
  - rewrite (filter_none (fun j => negb (j <? Z.of_nat n))
               (map Z.of_nat (List.seq 0 n)))
      by (intros j Hj; now rewrite F1).
    rewrite (filter_all (fun j => negb (j <? Z.of_nat n))
               (map Z.of_nat (List.seq n (length seq - n))))
      by (intros j Hj; now rewrite F2).
    cbn [app]. rewrite pick_slice by lia.
    rewrite firstn_all2; trivial. rewrite length_skipn. lia.
Qed.

(** X14 ([system_bipartitions_simple] within
    [system_directed_bipartitions]): every cut of the "DIRECTED_BI_SIMPLE"
    scheme is one of the cuts of the "DIRECTED_BI" scheme, which raises
    nothing. *)
Theorem system_bipartitions_simple_incl (nodes : list Z) :
  exists cuts,
    system_directed_bipartitions nodes = Some cuts
    /\ incl (system_bipartitions_simple nodes) cuts.
Proof.
  destruct (directed_bipartition_total nodes false) as [ds Hds].
  unfold system_directed_bipartitions.
  assert (T : directed_bipartition nodes true = Some (removelast (tl ds))).
  { unfold directed_bipartition in *.
    destruct (Py.mapM (pick2 nodes)
                (directed_bipartition_indices (Py.len nodes)));
      [|discriminate].
    now injection Hds as <-. }
  rewrite T. eexists. split; [reflexivity|].
  intros cut H. unfold system_bipartitions_simple in H.
  apply in_flat_map in H as (n & Hn & H).
  apply in_range2 in Hn. unfold Py.len in Hn.
  assert (F : firstn (Z.to_nat n) nodes <> []).
  { intros E. apply (f_equal (@length Z)) in E.
    rewrite length_firstn in E. simpl in E. lia. }
  assert (S : skipn (Z.to_nat n) nodes <> []).
  { intros E. apply (f_equal (@length Z)) in E.
    rewrite length_skipn in E. simpl in E. lia. }
  assert (Hin : In (firstn (Z.to_nat n) nodes, skipn (Z.to_nat n) nodes) ds).
  { destruct (pick_cut nodes (Z.to_nat n)) as [P1 P2]; [lia|].
    apply (directed_bipartition_in nodes (fun j => j <? Z.of_nat (Z.to_nat n)));
      trivial.
    intros ->. now destruct (Z.to_nat n). }
  unfold _bipartitions_to_cuts.
  destruct H as [<-|[<-|[]]].
  - apply (in_map (fun b => mkCut (fst b) (snd b)) _
             (firstn (Z.to_nat n) nodes, skipn (Z.to_nat n) nodes)).
    now apply (directed_bipartition_keep nodes ds).
  - apply (in_map (fun b => mkCut (fst b) (snd b)) _
             (skipn (Z.to_nat n) nodes, firstn (Z.to_nat n) nodes)).
    apply (directed_bipartition_keep nodes ds); trivial.
    apply (directed_bipartition_swap_closed nodes ds
             (firstn (Z.to_nat n) nodes, skipn (Z.to_nat n) nodes)); trivial.
Qed.

(** *** No partition of an empty mechanism or over an empty purview *)

Lemma list_prod_nil_r {X W} (l : list X) : list_prod l (@nil W) = [].
Proof. induction l; simpl; trivial. Qed.

Lemma for_each_nothing {X Y} (l : list X) (body : X -> run Y) :
  (forall x, In x l -> body x = ([], None)) -> for_each l body = ([], None).
Proof.
  induction l as [|x l IH]; intros H; simpl; trivial.
  rewrite (H x) by now left. rewrite IH; trivial.
  intros y Hy. apply H. now right.
Qed.

(** X15 ([mip_bipartitions], [wedge_partitions], [all_partitions]): when
    the mechanism or the purview is empty none of the three schemes
    yields any partition, and none raises. *)
Theorem schemes_empty (normalize : Tripartition -> Tripartition)
  (set_iter : list (list (list Z)) -> list (list (list Z))) (m p : list Z) :
  m = [] \/ p = [] ->
  mip_bipartitions m p = Some []
  /\ wedge_partitions normalize m p = Some []
  /\ all_partitions set_iter m p = ([], None).
Proof.
  intros [-> | ->].
  - unfold mip_bipartitions, wedge_partitions, all_partitions.
    change (bipartition (@nil Z) false) with (Some (@nil (list Z * list Z))).
    destruct (directed_bipartition_total p false) as [ds ->].
    destruct (directed_tripartition_total p) as [ts ->].
    repeat split.
  - unfold mip_bipartitions, wedge_partitions.
    change (directed_bipartition (@nil Z) false)
      with (Some (@nil (list Z * list Z))).
    change (directed_tripartition (@nil Z))
      with (Some (@nil (list Z * list Z * list Z))).
    destruct (bipartition_total m false) as [ns ->].
    rewrite !list_prod_nil_r. split; [reflexivity|]. split; [reflexivity|].
    unfold all_partitions. apply for_each_nothing. intros mp0 _.
    cbn zeta. change (Py.len (@nil Z)) with 0.
    rewrite Z.min_l by (unfold Py.len; lia). reflexivity.
Qed.

Lemma schemes_empty_witness :
  mip_bipartitions [0; 1] [] = Some []
  /\ wedge_partitions (fun t => t) [0; 1] [] = Some []
  /\ all_partitions (fun l => l) [0; 1] [] = ([], None).
Proof.
  apply (schemes_empty (fun t => t) (fun l => l) [0; 1] []). now right.
Defined.

(** *** The number of bipartitions of the "BI" scheme *)

(** The trivial directed bipartition with an empty first part comes
    first, and is the only one with an empty first part. *)
Lemma directed_bipartition_first_rest {A} (seq : list A) :
  seq <> [] ->
  exists ds,
    directed_bipartition seq false = Some (([], seq) :: ds)
    /\ Py.len ds = 2 ^ Py.len seq - 1
    /\ (forall q, In q ds -> fst q <> [])
    /\ forall q, In q (([], seq) :: ds) -> Permutation (fst q ++ snd q) seq.
Proof.
  intros Hne. destruct (bipartition_first_rest seq Hne)
    as (bs & Hbs & _ & Hlen & Hparts).
  exists (bs ++ map swap (rev (([], seq) :: bs))).
  split; [apply (directed_bipartition_unfold seq _ Hbs)|]. split; [|split].
  - unfold Py.len in *. rewrite length_app, length_map, length_rev.
    cbn [length].
    assert (E : 2 ^ Z.of_nat (length seq)
                = 2 * 2 ^ (Z.of_nat (length seq) - 1)).
    { rewrite <- Z.pow_succ_r; [f_equal; lia|].
      destruct seq; [contradiction|cbn [length]; lia]. }
    lia.
  - intros q Hq. apply in_app_iff in Hq as [Hq|Hq]; [now apply Hparts|].
    apply in_map_iff in Hq as (q' & <- & Hq'). apply in_rev in Hq'.
    destruct Hq' as [<-|Hq']; cbn; trivial. now apply Hparts.
  - intros q Hq.
    apply (directed_bipartition_perm seq (([], seq) :: bs)); trivial.
Qed.

(** X16 ([mip_bipartitions]): for a mechanism of [m >= 1] nodes and a
    purview of [p >= 1] nodes the "BI" scheme yields
    [2^(m-1) * 2^p - 1] bipartitions: of all the pairings of a mechanism
    bipartition with a directed purview bipartition only the one whose
    first part is empty on both sides is left out.  In each bipartition
    yielded the mechanism sides of the two parts are a rearrangement of
    the mechanism, and the purview sides one of the purview. *)
Theorem mip_bipartitions_count (m p : list Z) :
  m <> [] -> p <> [] ->
  exists out,
    mip_bipartitions m p = Some out
    /\ Py.len out = 2 ^ (Py.len m - 1) * 2 ^ Py.len p - 1
    /\ forall b, In b out ->
         Permutation (mechanism (fst b) ++ mechanism (snd b)) m
         /\ Permutation (purview (fst b) ++ purview (snd b)) p.
Proof.
  intros Hm Hp.
  destruct (bipartition_first_rest m Hm) as (ns & Hns & _ & Ln & Pn).
  destruct (directed_bipartition_first_rest p Hp) as (ds & Hds & Ld & Pd & Qd).
  unfold mip_bipartitions. rewrite Hns, Hds. eexists. split; [reflexivity|].
  rewrite flat_map_if. split.
  - unfold Py.len at 1. rewrite length_map.
    cbn [list_prod map app filter]. unfold bi_cond at 1. cbn [fst snd Py.truthy orb andb].
    rewrite filter_all.
    + rewrite length_app, length_map, length_prod. cbn [length].
      unfold Py.len in *. nia.
    + intros [n d] H. apply bi_cond_spec. cbn [fst snd].
      apply in_app_iff in H as [H|H].
      * apply in_map_iff in H as (d' & E & Hd'). injection E as <- <-.
        cbn [fst snd]. split; [right; now apply Pd|now left].
      * apply in_prod_iff in H as [H _]. destruct (Pn n H). tauto.
  - intros b Hb. apply in_map_iff in Hb as ([n d] & <- & H).
    apply filter_In in H as [H _]. apply in_prod_iff in H as [Hn Hd].
    cbn [mk_bipartition fst snd mechanism purview]. split.
    + now apply (bipartition_perm m false _ n Hns).
    + now apply Qd.
Qed.

Lemma mip_bipartitions_count_witness :
  exists out,
    mip_bipartitions [0] [2; 3] = Some out
    /\ Py.len out = 2 ^ (Py.len [0] - 1) * 2 ^ Py.len [2; 3] - 1
    /\ forall b, In b out ->
         Permutation (mechanism (fst b) ++ mechanism (snd b)) [0]
         /\ Permutation (purview (fst b) ++ purview (snd b)) [2; 3].
Proof. apply (mip_bipartitions_count [0] [2; 3]); discriminate. Defined.

(** ** Pairs of indices and of elements *)

Lemma StronglySorted_app {X} (R : X -> X -> Prop) l1 l2 :
  StronglySorted R l1 -> StronglySorted R l2 ->
  (forall x y, In x l1 -> In y l2 -> R x y) ->
  StronglySorted R (l1 ++ l2).
Proof.
  induction 1 as [|x l1 H IH F]; intros H2 HR; simpl; trivial.
  constructor.
  - apply IH; trivial. intros a b Ha Hb. apply HR; trivial. now right.
  - apply Forall_app. split; trivial.
    apply Forall_forall. intros y Hy. apply HR; trivial. now left.
Qed.

Lemma StronglySorted_map {X W} (S : X -> X -> Prop) (R : W -> W -> Prop)
  (g : X -> W) l :
  (forall x y, S x y -> R (g x) (g y)) ->
  StronglySorted S l -> StronglySorted R (map g l).
Proof.
  intros H. induction 1 as [|x l Hs IH F]; simpl; constructor; trivial.
  apply Forall_forall. intros w Hw. apply in_map_iff in Hw as (y & <- & Hy).
  apply H. rewrite Forall_forall in F. now apply F.
Qed.

Lemma StronglySorted_flat_map {X W} (S : X -> X -> Prop) (R : W -> W -> Prop)
  (f : X -> list W) l :
  StronglySorted S l ->
  (forall x, In x l -> StronglySorted R (f x)) ->
  (forall x y a b, S x y -> In a (f x) -> In b (f y) -> R a b) ->
  StronglySorted R (flat_map f l).
Proof.
  induction 1 as [|x l Hs IH F]; intros Hf HR; simpl; [constructor|].
  apply StronglySorted_app.
  - apply Hf. now left.
  - apply IH; trivial. intros y Hy. apply Hf. now right.
  - intros a b Ha Hb. apply in_flat_map in Hb as (y & Hy & Hb).
    rewrite Forall_forall in F. eapply HR; eauto.
Qed.

Lemma range2_sorted lo hi : StronglySorted Z.lt (Py.range2 lo hi).
Proof.
  unfold Py.range2. apply (StronglySorted_map Z.lt); [|apply range_sorted].
  intros x y. lia.
Qed.

Lemma StronglySorted_lt_NoDup {X} (R : X -> X -> Prop) l :
  (forall x, ~ R x x) -> StronglySorted R l -> NoDup l.
Proof.
  intros Irr. induction 1 as [|x l Hs IH F]; constructor; trivial.
  intros Hx. rewrite Forall_forall in F. apply (Irr x). now apply F.
Qed.

Lemma in_pair_indices n m k i j :
  In (i, j) (Comb.pair_indices n m k) <->
  0 <= i < Z.min n (match m with None => n | Some m0 => m0 end)
  /\ i + k <= j < Z.max n (match m with None => n | Some m0 => m0 end).
Proof.
  unfold Comb.pair_indices. rewrite in_flat_map. split.
  - intros (i0 & Hi & H). apply in_range in Hi.
    apply in_map_iff in H as (j0 & E & Hj). injection E as -> ->.
    apply in_range2 in Hj. tauto.
  - intros [Hi Hj]. exists i. split; [now apply in_range|].
    apply in_map. now apply in_range2.
Qed.

Lemma pair_indices_sorted n m k : StronglySorted lex_lt (Comb.pair_indices n m k).
Proof.
  unfold Comb.pair_indices.
  apply (StronglySorted_flat_map Z.lt); [apply range_sorted| |].
  - intros i _. apply (StronglySorted_map Z.lt); [|apply range2_sorted].
    intros x y H. right. now split.
  - intros x y a b H Ha Hb.
    apply in_map_iff in Ha as (? & <- & _), Hb as (? & <- & _). now left.
Qed.

(** X17 ([pair_indices]): the index pairs [(i, j)] yielded are exactly
    those with [0 <= i < min(n, m)] and [i + k <= j < max(n, m)], where
    [m] is [n] when it is not given; they come in lexicographic order,
    without repetition, and exchanging [n] and [m] changes nothing. *)
Theorem pair_indices_spec (n : Z) (m : option Z) (k : Z) :
  (forall i j,
     In (i, j) (Comb.pair_indices n m k) <->
     0 <= i < Z.min n (match m with None => n | Some m0 => m0 end)
     /\ i + k <= j < Z.max n (match m with None => n | Some m0 => m0 end))
  /\ StronglySorted lex_lt (Comb.pair_indices n m k)
  /\ NoDup (Comb.pair_indices n m k)
  /\ forall m0, Comb.pair_indices n (Some m0) k
                = Comb.pair_indices m0 (Some n) k.
Proof.
  split; [apply in_pair_indices|]. split; [apply pair_indices_sorted|]. split.
  - apply (StronglySorted_lt_NoDup lex_lt); [|apply pair_indices_sorted].
    intros [i j]. unfold lex_lt. cbn. lia.
  - intros m0. unfold Comb.pair_indices.
    now rewrite (Z.min_comm n m0), (Z.max_comm n m0).
Qed.

Lemma pair_count n k m : forall s,
  Z.of_nat (s + m) = n -> 0 <= k ->
  2 * Z.of_nat (length (flat_map
                          (fun i => map (fun j => (i, j)) (Py.range2 (i + k) n))
                          (map Z.of_nat (seq s m))))
  = if Z.of_nat s <=? n - k
    then (n - k - Z.of_nat s) * (n - k - Z.of_nat s + 1)
    else 0.
Proof.
  induction m as [|m IH]; intros s Hn Hk; cbn [seq map flat_map].
  - cbn [length]. destruct (Z.leb_spec (Z.of_nat s) (n - k)); nia.
  - rewrite length_app, length_map, range2_length, Nat2Z.inj_add.
    rewrite Z.mul_add_distr_l, (IH (S s)) by lia.
    destruct (Z.leb_spec (Z.of_nat s) (n - k)),
             (Z.leb_spec (Z.of_nat (S s)) (n - k)); try lia.
    rewrite Z2Nat.id by lia. nia.
Qed.

Lemma pair_indices_length (n k : Z) :
  0 <= k <= n ->
  2 * Py.len (Comb.pair_indices n None k) = (n - k) * (n - k + 1).
Proof.
  intros H. unfold Comb.pair_indices, Py.len, Py.range.
  rewrite Z.min_id, Z.max_id.
  rewrite (pair_count n k (Z.to_nat n) 0) by lia.
  destruct (Z.leb_spec (Z.of_nat 0) (n - k)); [|lia].
  change (Z.of_nat 0) with 0. f_equal; lia.
Qed.

(** X18 ([pair_indices]): with [m] left out and [0 <= k <= n] there are
    [(n - k)(n - k + 1) / 2] index pairs: [n (n - 1) / 2] for [k = 1], the
    pairs of distinct indices, and [n (n + 1) / 2] for the default
    [k = 0], which keeps the pairs [(i, i)]. *)
Theorem pair_indices_count (n k : Z) :
  0 <= k <= n ->
  2 * Py.len (Comb.pair_indices n None k) = (n - k) * (n - k + 1)
  /\ (k = 1 -> 2 * Py.len (Comb.pair_indices n None k) = n * (n - 1))
  /\ (k = 0 -> 2 * Py.len (Comb.pair_indices n None k) = n * (n + 1)).
Proof.
  intros H. pose proof (pair_indices_length n k H) as E.
  split; [exact E|]. split; intros ->; rewrite E; ring.
Qed.

Lemma pair_indices_count_witness :
  2 * Py.len (Comb.pair_indices 4 None 1) = (4 - 1) * (4 - 1 + 1).
Proof.
  assert (H : 0 <= 1 <= 4) by lia.
  exact (proj1 (pair_indices_count 4 1 H)).
Defined.

(** *** [pairs] *)

Lemma for_each_yield1 {X Y} (l : list X) (body : X -> run Y) :
  (forall x, In x l -> exists y, body x = ([y], None)) ->
  exists ys, for_each l body = (ys, None)
             /\ Forall2 (fun x y => body x = ([y], None)) l ys.
Proof.
  induction l as [|x l IH]; intros H.
  - exists []. split; [reflexivity|constructor].
  - destruct (H x) as [y Hy]; [now left|].
    destruct IH as (ys & E & F); [intros z Hz; apply H; now right|].
    exists (y :: ys). cbn [for_each]. rewrite Hy, E. split; [reflexivity|].
    now constructor.
Qed.

Lemma Forall2_in_r {X Y} (R : X -> Y -> Prop) l l' y :
  Forall2 R l l' -> In y l' -> exists x, In x l /\ R x y.
Proof.
  induction 1 as [|a b l l' Hab F IH]; intros Hy; [destruct Hy|].
  destruct Hy as [<-|Hy]; [exists a; split; [now left|trivial]|].
  destruct (IH Hy) as (x & Hx & Hr). exists x. split; [now right|trivial].
Qed.

Lemma Forall2_in_l {X Y} (R : X -> Y -> Prop) l l' x :
  Forall2 R l l' -> In x l -> exists y, In y l' /\ R x y.
Proof.
  induction 1 as [|a b l l' Hab F IH]; intros Hx; [destruct Hx|].
  destruct Hx as [<-|Hx]; [exists b; split; [now left|trivial]|].
  destruct (IH Hx) as (y & Hy & Hr). exists y. split; [now right|trivial].
Qed.

Lemma Forall2_NoDup {X Y} (R : X -> Y -> Prop) l l' :
  Forall2 R l l' -> NoDup l ->
  (forall x x' y, In x l -> In x' l -> R x y -> R x' y -> x = x') ->
  NoDup l'.
Proof.
  induction 1 as [|a b l l' Hab F IH]; intros Hl Hinj; [constructor|].
  inversion Hl as [|? ? Ha Hl']; subst. constructor.
  - intros Hb. destruct (Forall2_in_r _ _ _ _ F Hb) as (x & Hx & Hr).
    assert (x = a) by (apply (Hinj x a b); trivial; [now right|now left]).
    subst x. contradiction.
  - apply IH; trivial. intros x x' y Hx Hx'. apply Hinj; now right.
Qed.

Lemma getitem_nonneg {A} (seq : list A) i :
  0 <= i -> Py.getitem seq i = nth_error seq (Z.to_nat i).
Proof.
  intros H. unfold Py.getitem. now destruct (Z.ltb_spec i 0); [lia|].
Qed.

(** What the body of [pairs] yields for one index pair. *)
Lemma pairs_body {A} (seq : list A) i j x y :
  match Py.getitem seq i, Py.getitem seq j with
  | Some x0, Some y0 => ([(x0, y0)], None)
  | _, _ => ([], Some IndexError)
  end = ([(x, y)], @None exn)
  <-> Py.getitem seq i = Some x /\ Py.getitem seq j = Some y.
Proof.
  destruct (Py.getitem seq i) as [x0|], (Py.getitem seq j) as [y0|];
    split; try discriminate; try (intros [? ?]; discriminate).
  - intros H. injection H as -> ->. now split.
  - intros [H1 H2]. now injection H1 as ->; injection H2 as ->.
Qed.

(** X19 ([pairs]): for [k >= 0] nothing is raised, and the pairs yielded
    are the [(seq[i], seq[j])] with [i + k <= j], one for each such pair
    of positions.  With [k = 1] there are [n (n - 1) / 2] of them; and
    when the elements are distinct and [k >= 1], no pair is yielded
    twice, no pair has twice the same element, and no pair is yielded in
    both orders: the pairs are unordered pairs, not the Cartesian
    product. *)
Theorem pairs_spec {A} (seq : list A) (k : Z) :
  0 <= k ->
  exists ps,
    pairs seq k = (ps, None)
    /\ (forall x y,
          In (x, y) ps <->
          exists i j, nth_error seq i = Some x /\ nth_error seq j = Some y
                      /\ Z.of_nat i + k <= Z.of_nat j)
    /\ (k = 1 -> 2 * Py.len ps = Py.len seq * (Py.len seq - 1))
    /\ (1 <= k -> NoDup seq ->
        NoDup ps /\ forall x y, In (x, y) ps -> x <> y /\ ~ In (y, x) ps).
Proof.
  intros Hk. unfold pairs.
  destruct (for_each_yield1 (Comb.pair_indices (Py.len seq) None k)
              (fun ij =>
                 match Py.getitem seq (fst ij), Py.getitem seq (snd ij) with
                 | Some x, Some y => ([(x, y)], None)
                 | _, _ => ([], Some IndexError)
                 end)) as (ps & E & F).
  { intros [i j] H. apply in_pair_indices in H.
    rewrite Z.min_id, Z.max_id in H. cbn [fst snd].
    destruct (getitem_in_range seq i) as [x ->]; [lia|].
    destruct (getitem_in_range seq j) as [y ->]; [lia|]. eauto. }
  exists ps. split; trivial.
  assert (M : forall x y,
            In (x, y) ps <->
            exists i j, nth_error seq i = Some x /\ nth_error seq j = Some y
                        /\ Z.of_nat i + k <= Z.of_nat j).
  { intros x y. split.
    - intros H. destruct (Forall2_in_r _ _ _ _ F H) as ([i j] & Hij & Hb).
      apply in_pair_indices in Hij. rewrite Z.min_id, Z.max_id in Hij.
      cbn [fst snd] in Hb. apply pairs_body in Hb as [Hx Hy].
      rewrite getitem_nonneg in Hx, Hy by lia.
      exists (Z.to_nat i), (Z.to_nat j). repeat split; trivial. lia.
    - intros (i & j & Hx & Hy & Hij).
      assert (Hi : (i < length seq)%nat) by (apply nth_error_Some; congruence).
      assert (Hj : (j < length seq)%nat) by (apply nth_error_Some; congruence).
      destruct (Forall2_in_l _ _ _ (Z.of_nat i, Z.of_nat j) F)
        as ([x' y'] & Hin & Hb).
      + apply in_pair_indices. rewrite Z.min_id, Z.max_id.
        unfold Py.len. lia.
      + cbn [fst snd] in Hb. apply pairs_body in Hb as [Hx' Hy'].
        rewrite getitem_nat in Hx', Hy'. congruence. }
  split; [exact M|]. split.
  - intros ->. unfold Py.len at 1. rewrite <- (Forall2_length F).
    fold (Py.len (Comb.pair_indices (Py.len seq) None 1)).
    destruct seq as [|a seq]; [reflexivity|].
    rewrite pair_indices_length by (unfold Py.len; cbn [length]; lia).
    ring.
  - intros Hk1 Hnd. split.
    + apply (Forall2_NoDup _ _ _ F).
      * apply (StronglySorted_lt_NoDup lex_lt); [|apply pair_indices_sorted].
        intros [i j]. unfold lex_lt. cbn. lia.
      * intros [i j] [i' j'] [x y] H H' Hb Hb'.
        apply in_pair_indices in H, H'. rewrite Z.min_id, Z.max_id in H, H'.
        cbn [fst snd] in Hb, Hb'.
        apply pairs_body in Hb as [Hx Hy], Hb' as [Hx' Hy'].
        rewrite getitem_nonneg in Hx, Hy, Hx', Hy' by lia.
        assert (Z.to_nat i = Z.to_nat i').
        { apply (proj1 (NoDup_nth_error seq) Hnd); [|congruence].
          apply nth_error_Some. congruence. }
        assert (Z.to_nat j = Z.to_nat j').
        { apply (proj1 (NoDup_nth_error seq) Hnd); [|congruence].
          apply nth_error_Some. congruence. }
        f_equal; lia.
    + intros x y H. apply M in H as (i & j & Hx & Hy & Hij). split.
      * intros ->.
        assert (i = j); [|lia].
        apply (proj1 (NoDup_nth_error seq) Hnd); [|congruence].
        apply nth_error_Some. congruence.
      * intros H'. apply M in H' as (j' & i' & Hy' & Hx' & Hji).
        assert (i = i').
        { apply (proj1 (NoDup_nth_error seq) Hnd); [|congruence].
          apply nth_error_Some. congruence. }
        assert (j = j').
        { apply (proj1 (NoDup_nth_error seq) Hnd); [|congruence].
          apply nth_error_Some. congruence. }
        lia.
Qed.

Lemma pairs_spec_witness :
  exists ps,
    pairs [5; 6; 7] 1 = (ps, None)
    /\ (forall x y,
          In (x, y) ps <->
          exists i j, nth_error [5; 6; 7] i = Some x
                      /\ nth_error [5; 6; 7] j = Some y
                      /\ Z.of_nat i + 1 <= Z.of_nat j)
    /\ (1 = 1 -> 2 * Py.len ps = Py.len [5; 6; 7] * (Py.len [5; 6; 7] - 1))
    /\ (1 <= 1 -> NoDup [5; 6; 7] ->
        NoDup ps /\ forall x y, In (x, y) ps -> x <> y /\ ~ In (y, x) ps).
Proof. apply (pairs_spec [5; 6; 7] 1). lia. Defined.

Lemma for_each_quiet {X Y} (l : list X) (body : X -> run Y) :
  (forall x, In x l -> snd (body x) = None) -> snd (for_each l body) = None.
Proof.
  induction l as [|x l IH]; intros H; cbn [for_each]; trivial.
  pose proof (H x (or_introl eq_refl)) as Hx.
  assert (IH' : snd (for_each l body) = None).
  { apply IH. intros z Hz. apply H. now right. }
  destruct (body x) as [ys [e|]]; [discriminate|].
  destruct (for_each l body) as [ys' r]. exact IH'.
Qed.

(** X20 ([pairs], negative offset): on a non-empty sequence a negative
    [k] makes [j] start below zero, where Python indexes from the end;
    nothing is raised as long as [k >= -len(seq)], and for a smaller [k]
    the very first access raises [IndexError] before anything is
    yielded. *)
Theorem pairs_offset_bound {A} (seq : list A) (k : Z) :
  seq <> [] ->
  (k < - Py.len seq -> pairs seq k = ([], Some IndexError))
  /\ (- Py.len seq <= k -> snd (pairs seq k) = None).
Proof.
  intros Hne. assert (HN : 1 <= Py.len seq).
  { unfold Py.len. destruct seq; [contradiction|cbn [length]; lia]. }
  split; intros Hk.
  - unfold pairs, Comb.pair_indices. rewrite Z.min_id, Z.max_id.
    unfold Py.range at 1.
    destruct (Z.to_nat (Py.len seq)) as [|N] eqn:EN; [lia|].
    cbn [List.seq map flat_map]. unfold Py.range2, Py.range.
    destruct (Z.to_nat (Py.len seq - (Z.of_nat 0 + k))) as [|M] eqn:EM; [lia|].
    cbn [List.seq map app for_each fst snd].
    destruct (Py.getitem seq (Z.of_nat 0)); trivial.
    unfold Py.getitem.
    destruct (Z.ltb_spec (Z.of_nat 0 + k + Z.of_nat 0) 0); [|lia].
    destruct (Z.leb_spec 0 (Py.len seq + (Z.of_nat 0 + k + Z.of_nat 0)));
      [lia|reflexivity].
  - unfold pairs. apply for_each_quiet. intros [i j] H.
    apply in_pair_indices in H. rewrite Z.min_id, Z.max_id in H.
    cbn [fst snd].
    destruct (getitem_in_range seq i) as [x ->]; [lia|].
    assert (exists y, Py.getitem seq j = Some y) as [y ->]; [|reflexivity].
    destruct (Z_lt_dec j 0) as [Hj|Hj]; [|apply getitem_in_range; lia].
    unfold Py.getitem. destruct (Z.ltb_spec j 0); [|lia].
    destruct (Z.leb_spec 0 (Py.len seq + j)); [|lia].
    destruct (nth_error seq (Z.to_nat (Py.len seq + j))) eqn:E; [eauto|].
    apply nth_error_None in E. unfold Py.len in *. lia.
Qed.

Lemma pairs_offset_bound_witness : pairs [5; 6] (-3) = ([], Some IndexError).
Proof.
  apply (pairs_offset_bound [5; 6] (-3)); [discriminate|reflexivity].
Defined.

(** ** The number of subsets with more than one element *)

Lemma powerset_length {X} (l : list X) :
  length (powerset l) = (2 ^ length l)%nat.
Proof.
  induction l as [|x l IH]; cbn [powerset length]; trivial.
  rewrite length_app, length_map, IH. cbn [Nat.pow]. lia.
Qed.

Lemma length_filter_map {X W} (f : W -> bool) (g : X -> W) l :
  length (filter f (map g l)) = length (filter (fun x => f (g x)) l).
Proof.
  induction l as [|x l IH]; simpl; trivial.
  destruct (f (g x)); simpl; now rewrite IH.
Qed.

Lemma powerset_nonempty_count {X} (l : list X) :
  (length (filter (fun s => (0 <? Py.len s)%Z) (powerset l)) + 1
   = 2 ^ length l)%nat.
Proof.
  induction l as [|x l IH]; cbn [powerset length]; trivial.
  rewrite filter_app, length_app, length_filter_map.
  rewrite (filter_all (fun s => 0 <? Py.len (x :: s))).
  - rewrite powerset_length. cbn [Nat.pow]. lia.
  - intros s _. apply Z.ltb_lt. unfold Py.len. cbn [length]. lia.
Qed.

Lemma powerset_big_count {X} (l : list X) :
  (length (filter (fun s => (1 <? Py.len s)%Z) (powerset l)) + length l + 1
   = 2 ^ length l)%nat.
Proof.
  induction l as [|x l IH]; cbn [powerset length]; trivial.
  rewrite filter_app, length_app, length_filter_map.
  rewrite (filter_ext (fun s => 1 <? Py.len (x :: s))
                      (fun s => 0 <? Py.len s)).
  - pose proof (powerset_nonempty_count l). cbn [Nat.pow]. lia.
  - intros s. unfold Py.len. cbn [length].
    destruct (Z.ltb_spec 1 (Z.of_nat (S (length s)))),
             (Z.ltb_spec 0 (Z.of_nat (length s))); trivial; lia.
Qed.

(** X21 ([num_subsets_larger_than_one_element]): for [n >= 0] the value
    [2^n - n - 1] is the number of subsets of [{0, ..., n-1}] that have
    more than one element. *)
Theorem num_subsets_counts (n : Z) :
  0 <= n ->
  num_subsets_larger_than_one_element n
  = Py.len (filter (fun s => 1 <? Py.len s) (powerset (Py.range n))).
Proof.
  intros Hn. unfold num_subsets_larger_than_one_element.
  pose proof (powerset_big_count (Py.range n)) as H.
  rewrite range_length in H. apply (f_equal Z.of_nat) in H.
  rewrite !Nat2Z.inj_add, Nat2Z.inj_pow, Z2Nat.id in H by lia.
  unfold Py.len at 1. cbn in H. lia.
Qed.

Lemma num_subsets_counts_witness :
  num_subsets_larger_than_one_element 3
  = Py.len (filter (fun s => 1 <? Py.len s) (powerset (Py.range 3))).
Proof. apply (num_subsets_counts 3). lia. Defined.

(** ** Validation of a partition *)

Lemma mem_In x s : Comb.mem x s = true <-> In x s.
Proof.
  unfold Comb.mem. rewrite existsb_exists. split.
  - intros (y & Hy & E). apply Z.eqb_eq in E. now subst.
  - intros H. exists x. split; trivial. apply Z.eqb_refl.
Qed.

Lemma validate_part_app l1 : forall nodes l2,
  validate_part nodes (l1 ++ l2)
  = match validate_part nodes l1 with
    | inl node => inl node
    | inr nodes' => validate_part nodes' l2
    end.
Proof.
  induction l1 as [|x l1 IH]; intros nodes l2; cbn [app validate_part]; trivial.
  destruct (Comb.mem x nodes); trivial.
Qed.

Lemma validate_parts_scan p : forall nodes,
  validate_parts nodes p = validate_scan nodes (concat p).
Proof.
  unfold validate_scan.
  induction p as [|part p IH]; intros nodes; cbn [validate_parts concat];
    trivial.
  rewrite validate_part_app. destruct (validate_part nodes part); trivial.
Qed.

(** What the scan of a list of nodes does, starting from a set of nodes
    without repetition. *)
Lemma validate_part_spec l : forall nodes,
  NoDup nodes ->
  match validate_part nodes l with
  | inr nodes' => nodes' = nodes ++ l /\ NoDup (nodes ++ l)
  | inl node =>
      exists l1 l2, l = l1 ++ node :: l2
                    /\ NoDup (nodes ++ l1) /\ In node (nodes ++ l1)
  end.
Proof.
  induction l as [|x l IH]; intros nodes Hn; cbn [validate_part].
  - rewrite app_nil_r. now split.
  - destruct (Comb.mem x nodes) eqn:E.
    + apply mem_In in E. exists [], l. rewrite app_nil_r. now repeat split.
    + assert (Hx : ~ In x nodes).
      { intros H. apply mem_In in H. congruence. }
      assert (Hn' : NoDup (nodes ++ [x])).
      { apply NoDup_app; trivial; [repeat constructor; intros []|].
        intros y Hy [<-|[]]. contradiction. }
      specialize (IH (nodes ++ [x]) Hn').
      destruct (validate_part (nodes ++ [x]) l) as [node|nodes'].
      * destruct IH as (l1 & l2 & -> & Hd & Hi).
        exists (x :: l1), l2. rewrite <- app_assoc in Hd, Hi. now repeat split.
      * rewrite <- app_assoc in IH. exact IH.
Qed.

Lemma validate_partition_scan (partition : list (list Z)) :
  match validate_partition partition with
  | Valid => NoDup (concat partition)
  | ValueError node =>
      exists l1 l2, concat partition = l1 ++ node :: l2
                    /\ NoDup l1 /\ In node l1
  end.
Proof.
  unfold validate_partition. rewrite validate_parts_scan. unfold validate_scan.
  pose proof (validate_part_spec (concat partition) [] (NoDup_nil Z)) as H.
  cbn [app] in H.
  destruct (validate_part [] (concat partition)) as [node|nodes']; tauto.
Qed.

Lemma validate_partition_NoDup (partition : list (list Z)) :
  NoDup (concat partition) -> validate_partition partition = Valid.
Proof.
  intros Hnd. pose proof (validate_partition_scan partition) as H.
  destruct (validate_partition partition) as [|node]; trivial.
  destruct H as (l1 & l2 & E & _ & Hi). rewrite E in Hnd.
  apply NoDup_remove_2 in Hnd. exfalso. apply Hnd.
  apply in_app_iff. now left.
Qed.

(** X22 ([validate.partition]): a partition passes exactly when no node
    occurs twice in its parts laid end to end; otherwise the
    [ValueError] names the first node that repeats an earlier one. *)
Theorem validate_partition_spec (partition : list (list Z)) :
  (validate_partition partition = Valid <-> NoDup (concat partition))
  /\ forall node,
       validate_partition partition = ValueError node ->
       exists l1 l2, concat partition = l1 ++ node :: l2
                     /\ NoDup l1 /\ In node l1.
Proof.
  pose proof (validate_partition_scan partition) as H. split.
  - split; [|apply validate_partition_NoDup].
    intros E. now rewrite E in H.
  - intros node E. now rewrite E in H.
Qed.

Lemma in_partitions {A} (c : list A) (nontrivial : bool) p :
  In p (partitions c nontrivial) -> In p (_partitions c).
Proof.
  unfold partitions. destruct nontrivial; trivial.
  destruct (_partitions c); cbn [skipn]; [trivial|now right].
Qed.

Lemma k_partitions_valid {A} (c : list A) (k : Z) p :
  1 <= k <= Py.len c -> In p (fst (k_partitions c k)) -> is_partition c p.
Proof.
  intros Hk. unfold Py.len in Hk.
  assert (Hne : c <> []) by (intros ->; simpl in Hk; lia).
  destruct (Z.eq_dec k 1) as [->|E1];
    [|destruct (Z.eq_dec k (Z.of_nat (length c))) as [->|En]].
  - unfold k_partitions, Py.len.
    destruct (Z.eqb_spec (Z.of_nat (length c)) 0) as [E0|E0]; [lia|].
    cbn. intros [<-|[]]. split.
    + intros b [<-|[]]. exact Hne.
    + simpl. rewrite app_nil_r. apply Permutation_refl.
  - unfold k_partitions, Py.len.
    destruct (Z.eqb_spec (Z.of_nat (length c)) 0) as [E0|E0]; [lia|].
    destruct (Z.ltb_spec (Z.of_nat (length c)) 1); [lia|]. cbn [orb].
    destruct (Z.eqb_spec (Z.of_nat (length c)) 1); [lia|].
    rewrite Z.eqb_refl. cbn [fst]. intros [<-|[]].
    apply singletons_partition.
  - destruct (Z_of_nat_complete k) as [K ->]; [lia|].
    rewrite k_partitions_eval by lia. cbn [fst]. intros Hp.
    apply in_map_iff in Hp as (s & <- & Hs).
    destruct (rgs_seq_values _ _ _ Hs) as (L & Hv & Hj). split.
    + intros b. now apply blocks_of_nonempty.
    + now apply blocks_of_perm.
Qed.

(** X23 ([partitions] and [k_partitions] against [validate.partition]):
    every partition enumerated from a collection of distinct nodes passes
    the validation: no node is in two of its parts. *)
Theorem enumerated_partitions_validate (c : list Z) :
  NoDup c ->
  (forall nontrivial p,
     In p (partitions c nontrivial) -> validate_partition p = Valid)
  /\ (forall k p,
        k <= Py.len c -> In p (fst (k_partitions c k)) ->
        validate_partition p = Valid).
Proof.
  intros Hc.
  assert (V : forall p, is_partition c p -> validate_partition p = Valid).
  { intros p [_ P]. apply validate_partition_NoDup.
    apply (Permutation_NoDup (Permutation_sym P) Hc). }
  split.
  - intros nontrivial p H. apply V, partitions_valid.
    now apply in_partitions in H.
  - intros k p Hk H. destruct (Z_lt_dec k 1) as [Hlt|Hge].
    + rewrite k_partitions_degenerate in H by now left. destruct H.
    + apply V. apply (k_partitions_valid c k); trivial. lia.
Qed.

Lemma enumerated_partitions_validate_witness :
  validate_partition [[0; 1]; [2]] = Valid.
Proof.
  apply (enumerated_partitions_validate [0; 1; 2]) with (k := 2).
  - repeat constructor; cbn; intuition discriminate.
  - vm_compute. discriminate.
  - vm_compute. now left.
Defined.

(** ** The order in which [k_partitions] yields the partitions *)

Lemma one_move_sym s t : one_move s t -> one_move t s.
Proof.
  intros (pre & a & b & post & -> & -> & H).
  exists pre, b, a, post. repeat split; congruence.
Qed.

Lemma one_move_snoc j s t : one_move s t -> one_move (snoc j s) (snoc j t).
Proof.
  intros (pre & a & b & post & -> & -> & H). unfold snoc.
  exists pre, a, b, (post ++ [Z.of_nat j]).
  rewrite <- !app_assoc. now repeat split.
Qed.

Lemma one_move_last (s : list Z) i j :
  i <> j -> one_move (snoc i s) (snoc j s).
Proof.
  intros H. exists s, (Z.of_nat i), (Z.of_nat j), []. unfold snoc.
  repeat split. lia.
Qed.

Lemma gray_app l1 : forall l2 a b,
  gray l1 -> gray l2 ->
  hd_error (rev l1) = Some a -> hd_error l2 = Some b -> one_move a b ->
  gray (l1 ++ l2).
Proof.
  induction l1 as [|s l1 IH]; intros l2 a b G1 G2 Ha Hb M; [discriminate|].
  destruct l2 as [|t l2]; [discriminate|]. injection Hb as ->.
  destruct l1 as [|s' l1].
  - cbn in Ha. injection Ha as ->. cbn. now constructor.
  - inversion G1 as [| |? ? ? M' G1']; subst.
    cbn [app]. constructor; trivial.
    apply (IH (b :: l2) a b); trivial.
    cbn [rev] in Ha. cbn [rev].
    destruct (rev l1 ++ [s']) as [|x r] eqn:E.
    + apply (f_equal (@length _)) in E. rewrite length_app in E.
      cbn in E. lia.
    + exact Ha.
Qed.

Lemma gray_snoc l s t :
  gray l -> hd_error (rev l) = Some s -> one_move s t -> gray (l ++ [t]).
Proof.
  intros G H M. apply (gray_app l [t] s t); trivial. constructor.
Qed.

Lemma hd_rev_cons {X} (x : X) l :
  hd_error (rev (x :: l))
  = match hd_error (rev l) with Some y => Some y | None => Some x end.
Proof. cbn [rev]. now destruct (rev l). Qed.

Lemma gray_rev l : gray l -> gray (rev l).
Proof.
  induction 1 as [|s|s t l M G IH]; cbn [rev]; try constructor.
  cbn [rev] in IH. apply (gray_snoc _ t); trivial.
  - rewrite rev_app_distr. reflexivity.
  - now apply one_move_sym.
Qed.

Lemma gray_map_snoc j l : gray l -> gray (map (snoc j) l).
Proof.
  induction 1 as [|s|s t l M G IH]; cbn [map]; constructor; trivial.
  now apply one_move_snoc.
Qed.

Lemma gray_dir b l : gray l -> gray (dir b l).
Proof. destruct b; cbn; [apply gray_rev|trivial]. Qed.

Lemma hd_error_map {X W} (f : X -> W) l :
  hd_error (map f l) = option_map f (hd_error l).
Proof. now destruct l. Qed.

Lemma hd_error_app {X} (l1 l2 : list X) x :
  hd_error l1 = Some x -> hd_error (l1 ++ l2) = Some x.
Proof. now destruct l1. Qed.

Lemma hd_rev_app {X} (l1 l2 : list X) x :
  hd_error (rev l2) = Some x -> hd_error (rev (l1 ++ l2)) = Some x.
Proof. intros H. rewrite rev_app_distr. now apply hd_error_app. Qed.

Lemma hd_dir {X} b (l : list X) :
  hd_error (dir b l) = if b then hd_error (rev l) else hd_error l.
Proof. now destruct b. Qed.

Lemma hd_rev_dir {X} b (l : list X) :
  hd_error (rev (dir b l)) = if b then hd_error l else hd_error (rev l).
Proof. destruct b; cbn; [now rewrite rev_involutive|trivial]. Qed.

(** The blocks of the strings that end with [j], for [j] going down to
    [0], the strings of [R] being taken forwards and backwards in turn. *)
Lemma gray_blocks (R : list (list Z)) (F L : list Z) sigma :
  hd_error R = Some F -> hd_error (rev R) = Some L -> gray R ->
  forall j0,
    let G := flat_map (fun j => map (snoc j) (dir (par j sigma) R))
                      (rev (seq 0 (S j0))) in
    hd_error G = Some (snoc j0 (if par j0 sigma then L else F))
    /\ hd_error (rev G) = Some (snoc 0 (if par 0 sigma then F else L))
    /\ gray G.
Proof.
  intros HF HL GR. induction j0 as [|j0 IH]; cbn zeta.
  - cbn [seq rev app flat_map]. rewrite app_nil_r.
    rewrite <- map_rev, !hd_error_map, hd_dir, hd_rev_dir, HF, HL.
    split; [now destruct (par 0 sigma)|].
    split; [now destruct (par 0 sigma)|].
    now apply gray_map_snoc, gray_dir.
  - cbn zeta in IH. destruct IH as (H1 & H2 & H3).
    rewrite seq_S, rev_app_distr. cbn [Nat.add rev app flat_map].
    split; [|split].
    + apply hd_error_app. rewrite hd_error_map, hd_dir, HF, HL.
      now destruct (par (S j0) sigma).
    + now apply hd_rev_app.
    + eapply gray_app; [| | |exact H1|].
      * now apply gray_map_snoc, gray_dir.
      * exact H3.
      * rewrite <- map_rev, hd_error_map, hd_rev_dir, HF, HL.
        instantiate (1 := snoc (S j0) (if par (S j0) sigma then F else L)).
        now destruct (par (S j0) sigma).
      * rewrite par_S. destruct (par j0 sigma); cbn [negb];
          apply one_move_last; lia.
Qed.

Lemma one_move_stop_start m n' :
  (1 <= m)%nat -> (m < n')%nat ->
  one_move (last_rgs m n' true) (first_rgs (S m) n').
Proof.
  intros H1 H. rewrite last_rgs_true by trivial. unfold first_rgs.
  rewrite iota_S. replace (n' - S m)%nat with (n' - m - 1)%nat by lia.
  exists (repeat 0 (n' - m - 1) ++ iota m), 0, (Z.of_nat m), [].
  rewrite <- !app_assoc. repeat split. lia.
Qed.

Lemma one_move_stop_stop m n' :
  (1 <= m)%nat -> (m < n')%nat ->
  one_move (last_rgs m n' false) (last_rgs (S m) n' false).
Proof.
  intros H1 H. rewrite (last_rgs_false m n') by trivial.
  rewrite (last_rgs_false_eq (S m)), iota_S.
  replace (n' - S m)%nat with (n' - m - 1)%nat by lia.
  exists (iota m), 0, (Z.of_nat m), (repeat 0 (n' - m - 1)).
  rewrite <- !app_assoc. repeat split. lia.
Qed.

(** The visiting order starts at the start string, stops at the stop
    string, and goes from each string to the next by one move. *)
Lemma rgs_seq_gray nu : forall mu sigma,
  (1 <= mu <= nu)%nat ->
  hd_error (rgs_seq nu mu sigma) = Some (first_rgs mu nu)
  /\ hd_error (rev (rgs_seq nu mu sigma)) = Some (last_rgs mu nu sigma)
  /\ gray (rgs_seq nu mu sigma).
Proof.
  induction nu as [|nu IH]; intros mu sigma H; [lia|].
  destruct mu as [|m]; [lia|].
  destruct (Nat.eq_dec m 0) as [->|Hm0];
    [|destruct (Nat.eq_dec m nu) as [->|Hmn]].
  - rewrite rgs_seq_one, first_rgs_one, last_rgs_one by lia.
    repeat split. constructor.
  - rewrite rgs_seq_diag, first_rgs_diag, last_rgs_diag.
    repeat split. constructor.
  - destruct (IH m (par (S m) sigma)) as (A1 & A2 & A3); [lia|].
    destruct (IH (S m) false) as (R1 & R2 & R3); [lia|].
    destruct (gray_blocks _ _ _ sigma R1 R2 R3 m) as (G1 & G2 & G3).
    cbn zeta in G1, G2, G3. cbn [rgs_seq]. split; [|split].
    + apply hd_error_app. rewrite hd_error_map, A1. cbn [option_map].
      unfold snoc. now rewrite first_rgs_S by lia.
    + apply hd_rev_app. rewrite G2. f_equal. unfold snoc.
      change (Z.of_nat 0) with 0. rewrite <- (last_rgs_S (S m) nu sigma) by lia.
      unfold par. cbn [Nat.odd xorb]. now destruct sigma.
    + eapply gray_app; [| | |exact G1|].
      * now apply gray_map_snoc.
      * exact G3.
      * rewrite <- map_rev, hd_error_map, A2. reflexivity.
      * apply one_move_snoc. rewrite par_S.
        destruct (par m sigma); cbn [negb].
        -- apply one_move_stop_stop; lia.
        -- apply one_move_stop_start; lia.
Qed.

(** X24 ([k_partitions], [_f], [_b]): between the special cases, for
    [2 <= k < n], the partitions are yielded in a minimal-change order.
    Each result is given by a string of block labels, one label in
    [0 .. k-1] for each element of the collection, block [v] of the
    result holding the elements labelled [v]; the string of each result
    differs from the string of the next at exactly one position, so that
    from one result to the next a single element moves to another
    block. *)
Theorem k_partitions_gray {A} (c : list A) (k : Z) :
  2 <= k < Py.len c ->
  exists ss,
    k_partitions c k = (map (fun s => blocks_of k s c) ss, None)
    /\ (forall s, In s ss ->
          length s = length c /\ forall v, In v s -> 0 <= v < k)
    /\ gray ss.
Proof.
  intros Hk. unfold Py.len in Hk.
  destruct (Z_of_nat_complete k) as [K ->]; [lia|].
  exists (rgs_seq (length c) K false). split; [|split].
  - apply k_partitions_eval; lia.
  - intros s Hs. destruct (rgs_seq_values _ _ _ Hs) as (L & Hv & _).
    now split.
  - apply rgs_seq_gray. lia.
Qed.

Lemma k_partitions_gray_witness :
  exists ss,
    k_partitions [0; 1; 2; 3] 2
    = (map (fun s => blocks_of 2 s [0; 1; 2; 3]) ss, None)
    /\ (forall s, In s ss ->
          length s = length [0; 1; 2; 3] /\ forall v, In v s -> 0 <= v < 2)
    /\ gray ss.
Proof.
  apply (k_partitions_gray [0; 1; 2; 3] 2). vm_compute. split; [discriminate|reflexivity].
Defined.

(** ** Combinations of sets with a non-empty intersection *)

(** *** Dicts and sets as lists *)

Lemma find_app {X} (f : X -> bool) l1 l2 :
  find f (l1 ++ l2)
  = match find f l1 with Some x => Some x | None => find f l2 end.
Proof.
  induction l1 as [|x l1 IH]; cbn; trivial. now destruct (f x).
Qed.

Section Dict.

Context {K V : Type} (keq : K -> K -> bool).
Hypothesis keq_eq : forall a b, keq a b = true <-> a = b.

Lemma keq_refl a : keq a a = true.
Proof. now apply keq_eq. Qed.

Lemma keq_neq a b : a <> b -> keq a b = false.
Proof.
  intros H. destruct (keq a b) eqn:E; trivial. apply keq_eq in E. contradiction.
Qed.

Lemma dict_get_In (d : list (K * V)) k v :
  Comb.dict_get keq d k = Some v -> In (k, v) d.
Proof.
  unfold Comb.dict_get. destruct (find _ d) as [[k' v']|] eqn:E; [|discriminate].
  intros H. injection H as <-. apply find_some in E as [E1 E2].
  cbn in E2. apply keq_eq in E2. now subst.
Qed.

Lemma dict_get_None (d : list (K * V)) k :
  Comb.dict_get keq d k = None <-> ~ In k (map fst d).
Proof.
  unfold Comb.dict_get. induction d as [|[k' v'] d IH]; cbn.
  - tauto.
  - destruct (keq k' k) eqn:E.
    + apply keq_eq in E. subst. split; [discriminate|tauto].
    + rewrite IH. split; [|tauto]. intros H [->|H']; [|tauto].
      now rewrite keq_refl in E.
Qed.

Lemma dict_get_NoDup (d : list (K * V)) k v :
  NoDup (map fst d) -> In (k, v) d -> Comb.dict_get keq d k = Some v.
Proof.
  unfold Comb.dict_get. induction d as [|[k' v'] d IH]; cbn; [tauto|].
  intros Hd [E|H]; inversion Hd as [|? ? Hk Hd']; subst.
  - injection E as -> ->. now rewrite keq_refl.
  - destruct (keq k' k) eqn:E; [|now apply IH].
    apply keq_eq in E. subst. exfalso. apply Hk.
    apply in_map_iff. now exists (k, v).
Qed.

Lemma existsb_key (d : list (K * V)) k :
  existsb (fun kv => keq (fst kv) k) d = true <-> In k (map fst d).
Proof.
  rewrite existsb_exists, in_map_iff. split.
  - intros (kv & H & E). apply keq_eq in E. eauto.
  - intros (kv & E & H). exists kv. split; trivial. now apply keq_eq.
Qed.

Lemma dict_get_map_set (d : list (K * V)) k v k' :
  Comb.dict_get keq
    (map (fun kv => if keq (fst kv) k then (k, v) else kv) d) k'
  = if keq k k'
    then (if existsb (fun kv => keq (fst kv) k) d then Some v else None)
    else Comb.dict_get keq d k'.
Proof.
  unfold Comb.dict_get. induction d as [|[k0 v0] d IH]; cbn [map find existsb fst].
  - now destruct (keq k k').
  - destruct (keq k0 k) eqn:E0; cbn [fst orb].
    + apply keq_eq in E0. subst k0.
      destruct (keq k k') eqn:E; trivial.
    + destruct (keq k0 k') eqn:E1.
      * apply keq_eq in E1. subst k0.
        destruct (keq k k') eqn:E; trivial.
        apply keq_eq in E. subst k'. now rewrite keq_refl in E0.
      * exact IH.
Qed.

Lemma dict_get_set (d : list (K * V)) k v k' :
  Comb.dict_get keq (Comb.dict_set keq d k v) k'
  = if keq k k' then Some v else Comb.dict_get keq d k'.
Proof.
  unfold Comb.dict_set. destruct (existsb _ d) eqn:Ex.
  - now rewrite dict_get_map_set, Ex.
  - unfold Comb.dict_get. rewrite find_app.
    destruct (find _ d) as [kv|] eqn:F.
    + destruct (keq k k') eqn:E; trivial.
      apply keq_eq in E. subst k'. apply find_some in F as [F1 F2].
      assert (existsb (fun kv => keq (fst kv) k) d = true).
      { apply existsb_exists. eauto. }
      congruence.
    + cbn. destruct (keq k k'); reflexivity.
Qed.

Lemma in_dict_set_gen (d : list (K * V)) k v k' v' :
  In (k', v') (Comb.dict_set keq d k v) -> In (k', v') d \/ (k', v') = (k, v).
Proof.
  unfold Comb.dict_set. destruct (existsb _ d).
  - rewrite in_map_iff. intros ([k0 v0] & E & H). cbn in E.
    destruct (keq k0 k); [right; congruence|left; congruence].
  - rewrite in_app_iff. intros [H|[H|[]]]; [now left|right; congruence].
Qed.

Lemma dict_set_keys (d : list (K * V)) k v :
  NoDup (map fst d) -> NoDup (map fst (Comb.dict_set keq d k v)).
Proof.
  intros Hd. unfold Comb.dict_set. destruct (existsb _ d) eqn:Ex.
  - replace (map fst (map _ d)) with (map fst d); trivial.
    rewrite map_map. apply map_ext. intros [k0 v0]. cbn.
    destruct (keq k0 k) eqn:E; trivial. apply keq_eq in E. now subst.
  - rewrite map_app. cbn. apply NoDup_app; trivial.
    + repeat constructor. intros [].
    + intros x Hx Hk. cbn in Hk. destruct Hk as [<-|[]].
      apply existsb_key in Hx. congruence.
Qed.

End Dict.

Lemma eqb_eq s t : Comb.eqb s t = true <-> s = t.
Proof.
  unfold Comb.eqb. destruct (list_eq_dec Z.eq_dec s t); split; intros H;
    trivial; try discriminate; contradiction.
Qed.

Lemma set_mem_In c cs : Comb.set_mem c cs = true <-> In c cs.
Proof.
  unfold Comb.set_mem. rewrite existsb_exists. split.
  - intros (x & Hx & E). apply eqb_eq in E. now subst.
  - intros H. exists c. split; trivial. now apply eqb_eq.
Qed.

Lemma in_set_add c x cs : In c (Comb.set_add x cs) <-> c = x \/ In c cs.
Proof.
  unfold Comb.set_add. destruct (Comb.set_mem x cs) eqn:E.
  - apply set_mem_In in E. split; [tauto|]. intros [->|H]; trivial.
  - rewrite in_app_iff. cbn. intuition congruence.
Qed.

Lemma in_set_diff c cs ds :
  In c (Comb.set_diff cs ds) <-> In c cs /\ ~ In c ds.
Proof.
  unfold Comb.set_diff. rewrite filter_In, negb_true_iff.
  split; intros [H1 H2]; split; trivial.
  - intros H. apply set_mem_In in H. congruence.
  - destruct (Comb.set_mem c ds) eqn:E; trivial.
    apply set_mem_In in E. contradiction.
Qed.

Lemma in_inter x s t : In x (Comb.inter s t) <-> In x s /\ In x t.
Proof. unfold Comb.inter. now rewrite filter_In, mem_In. Qed.

(** Putting an index below all the others in front. *)
Lemma insert_below i c :
  c <> [] -> (forall j, In j c -> i < j) -> Comb.insert i c = i :: c.
Proof.
  intros Hne H. destruct c as [|y c]; [contradiction|]. cbn.
  destruct (Z.ltb_spec i y); trivial. specialize (H y (or_introl eq_refl)). lia.
Qed.

Lemma comb_at_default d k :
  fst (Comb.default_get d k) = comb_at d k
  /\ (forall k', comb_at (snd (Comb.default_get d k)) k' = comb_at d k')
  /\ (NoDup (map fst d) -> NoDup (map fst (snd (Comb.default_get d k))))
  /\ In k (map fst (snd (Comb.default_get d k))).
Proof.
  unfold Comb.default_get, comb_at.
  destruct (Comb.dict_get Z.eqb d k) as [cs|] eqn:E; cbn [fst snd].
  - repeat split; trivial.
    apply (dict_get_In Z.eqb Z.eqb_eq) in E.
    apply in_map_iff. now exists (k, cs).
  - split; trivial. split; [|split].
    + intros k'. unfold Comb.dict_get. rewrite find_app.
      destruct (find _ d) as [kv|] eqn:F; trivial. cbn.
      destruct (Z.eqb_spec k k'); trivial.
    + intros Hd. rewrite map_app. cbn. apply NoDup_app; trivial.
      * repeat constructor. intros [].
      * intros x Hx Hk. cbn in Hk. destruct Hk as [<-|[]].
        now apply (dict_get_None Z.eqb Z.eqb_eq) in E.
    + rewrite map_app, in_app_iff. right. now left.
Qed.

Lemma comb_at_set d k v k' :
  comb_at (Comb.dict_set Z.eqb d k v) k' = if k =? k' then v else comb_at d k'.
Proof.
  unfold comb_at. rewrite (dict_get_set Z.eqb Z.eqb_eq).
  now destruct (k =? k').
Qed.

Lemma has_key_set d c s c0 :
  has_key d c0 -> has_key (Comb.dict_set Comb.eqb d c s) c0.
Proof.
  unfold has_key. rewrite (dict_get_set Comb.eqb eqb_eq).
  destruct (Comb.eqb c c0); [discriminate|trivial].
Qed.

Lemma has_key_set_same d c s : has_key (Comb.dict_set Comb.eqb d c s) c.
Proof.
  unfold has_key. rewrite (dict_get_set Comb.eqb eqb_eq).
  rewrite (keq_refl Comb.eqb eqb_eq). discriminate.
Qed.

(** *** What the loops keep true *)

Section Combinations.

Variable sets : list (list Z).

Lemma member_getitem i si x :
  Py.getitem sets i = Some si -> (member sets x i <-> In x si).
Proof.
  intros H. unfold member. split.
  - intros (s & Hs & Hx). congruence.
  - intros Hx. eauto.
Qed.

Lemma is_inter_cons i si c s :
  Py.getitem sets i = Some si -> is_inter sets c s ->
  is_inter sets (i :: c) (Comb.inter si s).
Proof.
  intros Hi Hs x. rewrite in_inter, (Hs x), <- (member_getitem i si x Hi).
  split.
  - intros [H1 H2] j [<-|Hj]; auto.
  - intros H. split; [apply H; now left|]. intros j Hj. apply H. now right.
Qed.

Lemma truthy_common c s :
  is_inter sets c s -> (Py.truthy s = true <-> common sets c).
Proof.
  intros Hs. rewrite truthy_true. unfold common. split.
  - intros Hne. destruct s as [|x s]; [contradiction|].
    exists x. apply Hs. now left.
  - intros (x & Hx) ->. apply (Hs x) in Hx. destruct Hx.
Qed.

Lemma good_tail k h t :
  good_combo sets (k + 1) (h :: t) ->
  good_combo sets k t /\ forall j, In j t -> h < j.
Proof.
  intros [(S & R & L) (x & Hx)].
  apply StronglySorted_inv in S as [S F]. rewrite Forall_forall in F.
  split; [|exact F]. split; [split; [trivial|split]|].
  - intros i Hi. apply R. now right.
  - unfold Py.len in *. cbn [length] in L. lia.
  - exists x. intros i Hi. apply Hx. now right.
Qed.

Lemma good_cons k h t :
  good_combo sets k t -> 0 <= h < Py.len sets ->
  (forall j, In j t -> h < j) -> common sets (h :: t) ->
  good_combo sets (k + 1) (h :: t).
Proof.
  intros [(S & R & L) _] Hh F C. split; trivial. split; [|split].
  - constructor; trivial. now apply Forall_forall.
  - intros i [<-|Hi]; auto.
  - unfold Py.len in *. cbn [length]. lia.
Qed.

Lemma good_nonempty k c : 1 <= k -> good_combo sets k c -> c <> [].
Proof.
  intros Hk [(_ & _ & L) _] ->. unfold Py.len in L. cbn in L. lia.
Qed.

Lemma good_shrink k d : forall c,
  good_combo sets (k + Z.of_nat d) c -> 0 <= k ->
  exists c0, good_combo sets k c0.
Proof.
  induction d as [|d IH]; intros c H Hk.
  - exists c. now rewrite Z.add_0_r in H.
  - destruct c as [|h t].
    + destruct H as [(_ & _ & L) _]. unfold Py.len in L. cbn in L. lia.
    + replace (k + Z.of_nat (S d)) with (k + Z.of_nat d + 1) in H by lia.
      apply good_tail in H as [H _]. eauto.
Qed.

(** The state is well formed: the stored intersections are the
    intersections, every combination found has its intersection stored,
    and the keys of [combinations] are distinct. *)
Definition WF (st : Comb.state) : Prop :=
  (forall c s, In (c, s) (Comb.intersections st) -> is_inter sets c s)
  /\ (forall k c, In c (comb_at (Comb.combinations st) k) ->
                  has_key (Comb.intersections st) c)
  /\ NoDup (map fst (Comb.combinations st)).

Lemma combination_step_spec k i si st covered c :
  Py.getitem sets i = Some si ->
  WF st -> In c (comb_at (Comb.combinations st) k) ->
  c <> [] -> (forall j, In j c -> i <= j) ->
  exists st' covered',
    Comb.combination_step sets k i (Some (st, covered)) c = Some (st', covered')
    /\ WF st'
    /\ (forall k', k' <> k + 1 ->
          comb_at (Comb.combinations st') k' = comb_at (Comb.combinations st) k')
    /\ (forall c',
          In c' (comb_at (Comb.combinations st') (k + 1)) <->
          In c' (comb_at (Comb.combinations st) (k + 1))
          \/ (~ In i c /\ common sets (i :: c) /\ c' = i :: c))
    /\ (forall c0, In c0 covered' <-> In c0 covered \/ (c0 = c /\ In i c)).
Proof.
  intros Hi (D1 & D2 & ND) Hc Hne Hge. cbn [Comb.combination_step].
  destruct (Comb.mem i c) eqn:Em.
  - apply mem_In in Em. exists st, (Comb.set_add c covered).
    split; [reflexivity|]. split; [now split|]. split; [trivial|]. split.
    + intros c'. tauto.
    + intros c0. rewrite in_set_add. tauto.
  - assert (Hni : ~ In i c) by (intros H; apply mem_In in H; congruence).
    rewrite Hi. pose proof (D2 k c Hc) as Hk. unfold has_key in Hk.
    destruct (Comb.dict_get Comb.eqb (Comb.intersections st) c)
      as [cached|] eqn:Ec; [|contradiction].
    pose proof (D1 c cached (dict_get_In Comb.eqb eqb_eq _ _ _ Ec)) as Hs.
    pose proof (truthy_common (i :: c) _ (is_inter_cons i si c cached Hi Hs))
      as Ht.
    destruct (Py.truthy (Comb.inter si cached)) eqn:Et.
    + assert (Hlt : forall j, In j c -> i < j).
      { intros j Hj. specialize (Hge j Hj).
        destruct (Z.eq_dec i j) as [->|]; [contradiction|lia]. }
      rewrite (insert_below i c Hne Hlt).
      destruct (comb_at_default (Comb.combinations st) (k + 1))
        as (G1 & G2 & G3 & _).
      destruct (Comb.default_get (Comb.combinations st) (k + 1))
        as [cs combs]. cbn [fst snd] in G1, G2, G3.
      eexists. eexists. split; [reflexivity|]. unfold WF.
      cbn [Comb.combinations Comb.intersections].
      split; [split; [|split]|split; [|split]].
      * intros c0 s0 H. apply (in_dict_set_gen Comb.eqb) in H as [H|H].
        -- now apply D1.
        -- injection H as -> ->. now apply is_inter_cons.
      * intros k' c'. rewrite comb_at_set, G2.
        destruct (Z.eqb_spec (k + 1) k') as [<-|Hk'].
        -- rewrite in_set_add. intros [->|H].
           ++ apply has_key_set_same.
           ++ apply has_key_set. apply (D2 (k + 1)). now rewrite <- G1.
        -- intros H. apply has_key_set. now apply (D2 k').
      * apply (dict_set_keys Z.eqb Z.eqb_eq). now apply G3.
      * intros k' Hk'. rewrite comb_at_set, G2.
        destruct (Z.eqb_spec (k + 1) k'); [congruence|trivial].
      * intros c'. rewrite comb_at_set, Z.eqb_refl, in_set_add, G1.
        split; [intros [->|H]; [right|left]; trivial|].
        -- split; trivial. split; trivial. now apply Ht.
        -- intros [H|(_ & _ & ->)]; [now right|now left].
      * intros c0. tauto.
    + exists st, covered. split; [reflexivity|]. split; [now split|].
      split; [trivial|]. split.
      * intros c'. split; [tauto|]. intros [H|(_ & C & _)]; trivial.
        apply Ht in C. discriminate.
      * intros c0. tauto.
Qed.

Lemma inner_fold k i si :
  Py.getitem sets i = Some si ->
  forall l st covered,
    WF st ->
    (forall c, In c l ->
       In c (comb_at (Comb.combinations st) k) /\ c <> []
       /\ forall j, In j c -> i <= j) ->
    exists st' covered',
      fold_left (Comb.combination_step sets k i) l (Some (st, covered))
      = Some (st', covered')
      /\ WF st'
      /\ (forall k', k' <> k + 1 ->
            comb_at (Comb.combinations st') k'
            = comb_at (Comb.combinations st) k')
      /\ (forall c',
            In c' (comb_at (Comb.combinations st') (k + 1)) <->
            In c' (comb_at (Comb.combinations st) (k + 1))
            \/ exists c, In c l /\ ~ In i c /\ common sets (i :: c)
                         /\ c' = i :: c)
      /\ (forall c0, In c0 covered' <-> In c0 covered \/ (In c0 l /\ In i c0)).
Proof.
  intros Hi. induction l as [|c l IH]; intros st covered W Hl.
  - exists st, covered. split; [reflexivity|]. split; trivial.
    split; [trivial|]. split.
    + intros c'. split; [tauto|]. intros [H|(c & [] & _)]; trivial.
    + intros c0. cbn. tauto.
  - destruct (Hl c (or_introl eq_refl)) as (Hc & Hne & Hge).
    destruct (combination_step_spec k i si st covered c Hi W Hc Hne Hge)
      as (st1 & cov1 & E1 & W1 & U1 & N1 & C1).
    destruct (IH st1 cov1 W1) as (st2 & cov2 & E2 & W2 & U2 & N2 & C2).
    { intros c0 Hc0. destruct (Hl c0 (or_intror Hc0)) as (H1 & H2 & H3).
      rewrite U1 by lia. auto. }
    exists st2, cov2. cbn [fold_left]. rewrite E1. split; trivial.
    split; trivial. split; [|split].
    + intros k' Hk'. now rewrite U2, U1.
    + intros c'. rewrite N2, N1. split.
      * intros [[H|(H1 & H2 & H3)]|(c0 & H0 & H)]; [now left| |].
        -- right. exists c. split; [now left|tauto].
        -- right. exists c0. split; [now right|tauto].
      * intros [H|(c0 & [<-|H0] & H)]; [tauto|tauto|].
        right. exists c0. tauto.
    + intros c0. rewrite C2, C1. cbn [In]. intuition congruence.
Qed.

Lemma index_loop_spec k Ck :
  2 <= k -> (forall c, In c Ck <-> good_combo sets k c) ->
  forall m i0 R st,
    (i0 + m = length sets)%nat ->
    WF st -> comb_at (Comb.combinations st) k = Ck ->
    (forall c, In c R <-> In c Ck /\ forall j, In j c -> Z.of_nat i0 <= j) ->
    (forall c', In c' (comb_at (Comb.combinations st) (k + 1)) <->
                good_combo sets (k + 1) c'
                /\ exists h t, c' = h :: t /\ h < Z.of_nat i0) ->
    exists st',
      Comb.index_loop sets k (map Z.of_nat (seq i0 m)) R st = Some st'
      /\ WF st'
      /\ (forall k', k' <> k + 1 ->
            comb_at (Comb.combinations st') k'
            = comb_at (Comb.combinations st) k')
      /\ (forall c', In c' (comb_at (Comb.combinations st') (k + 1)) <->
                     good_combo sets (k + 1) c').
Proof.
  intros Hk HCk. induction m as [|m IH]; intros i0 R st Hm W HC HR HN.
  - exists st. cbn. split; trivial. split; trivial. split; [trivial|].
    intros c'. rewrite HN. split; [tauto|]. intros G. split; trivial.
    destruct c' as [|h t].
    + destruct G as [(_ & _ & L) _]. unfold Py.len in L. cbn in L. lia.
    + exists h, t. split; trivial.
      destruct G as [(_ & Rg & _) _]. specialize (Rg h (or_introl eq_refl)).
      unfold Py.len in Rg. lia.
  - cbn [seq map Comb.index_loop].
    destruct (getitem_in_range sets (Z.of_nat i0)) as [si Hi];
      [unfold Py.len; lia|].
    destruct (inner_fold k (Z.of_nat i0) si Hi R st [] W)
      as (st1 & cov & E & W1 & U1 & N1 & C1).
    { intros c Hc. apply HR in Hc as [Hc Hge]. rewrite HC.
      split; trivial. split; trivial.
      apply (good_nonempty k); [lia|]. now apply HCk. }
    rewrite E.
    assert (HR' : forall c,
               In c (Comb.set_diff R cov) <->
               In c Ck /\ forall j, In j c -> Z.of_nat (S i0) <= j).
    { intros c. rewrite in_set_diff, C1, HR. cbn [In]. split.
      - intros [[H1 H2] H3]. split; trivial. intros j Hj.
        pose proof (H2 j Hj) as Hj'.
        destruct (Z.eq_dec (Z.of_nat i0) j) as [<-|]; [|lia].
        exfalso. apply H3. right. tauto.
      - intros [H1 H2]. split; [split; trivial; intros j Hj|].
        + specialize (H2 j Hj). lia.
        + intros [[]|[_ H]]. specialize (H2 _ H). lia. }
    assert (HN' : forall c',
               In c' (comb_at (Comb.combinations st1) (k + 1)) <->
               good_combo sets (k + 1) c'
               /\ exists h t, c' = h :: t /\ h < Z.of_nat (S i0)).
    { intros c'. rewrite N1, HN. split.
      - intros [[G (h & t & -> & Hh)]|(c & Hc & Hni & Hcom & ->)].
        + split; trivial. exists h, t. split; trivial. lia.
        + apply HR in Hc as [Hc Hge]. apply HCk in Hc. split.
          * apply good_cons; trivial; [unfold Py.len; lia|].
            intros j Hj. specialize (Hge j Hj).
            destruct (Z.eq_dec (Z.of_nat i0) j) as [<-|]; [contradiction|lia].
          * exists (Z.of_nat i0), c. split; trivial. lia.
      - intros [G (h & t & -> & Hh)].
        destruct (Z_lt_dec h (Z.of_nat i0)) as [Hlt|Hge].
        + left. split; trivial. eauto.
        + right. assert (h = Z.of_nat i0) by lia. subst h.
          pose proof G as G'. apply good_tail in G' as [Gt Ft].
          exists t. split; [|split; [|split]]; trivial.
          * apply HR. split; [now apply HCk|].
            intros j Hj. specialize (Ft j Hj). lia.
          * intros Hin. specialize (Ft _ Hin). lia.
          * apply G. }
    destruct (Py.truthy (Comb.set_diff R cov)) eqn:Et.
    + destruct (IH (S i0) (Comb.set_diff R cov) st1) as (st2 & E2 & W2 & U2 & N2);
        trivial; [lia|rewrite U1 by lia; trivial|].
      exists st2. split; trivial. split; trivial. split; trivial.
      intros k' Hk'. now rewrite U2, U1.
    + apply truthy_false in Et. exists st1. split; trivial. split; trivial.
      split; trivial. intros c'. rewrite HN'. split; [tauto|].
      intros G. split; trivial. destruct c' as [|h t].
      * destruct G as [(_ & _ & L) _]. unfold Py.len in L. cbn in L. lia.
      * exists h, t. split; trivial.
        destruct (Z_lt_dec h (Z.of_nat (S i0))) as [|Hge]; trivial.
        exfalso. pose proof G as G'. apply good_tail in G' as [Gt Ft].
        assert (Hin : In t (Comb.set_diff R cov)).
        { apply HR'. split; [now apply HCk|].
          intros j Hj. specialize (Ft j Hj). lia. }
        rewrite Et in Hin. destruct Hin.
Qed.

(** After the orders up to [K], [combinations] holds exactly the
    combinations of [2] to [K] sets with a non-empty intersection. *)
Definition Inv (st : Comb.state) (K : Z) : Prop :=
  WF st
  /\ forall k c, In c (comb_at (Comb.combinations st) k) <->
                 good_combo sets k c /\ 2 <= k <= K.

Lemma order_loop_spec : forall m k0 st,
  (2 <= k0)%nat -> Inv st (Z.of_nat k0) ->
  exists st',
    Comb.order_loop sets (Py.len sets) (map Z.of_nat (seq k0 m)) st = Some st'
    /\ Inv st' (Z.of_nat (k0 + m)).
Proof.
  induction m as [|m IH]; intros k0 st Hk [W I].
  - exists st. rewrite Nat.add_0_r. split; [reflexivity|now split].
  - cbn [seq map Comb.order_loop].
    destruct (comb_at_default (Comb.combinations st) (Z.of_nat k0))
      as (G1 & G2 & G3 & _).
    destruct (Comb.default_get (Comb.combinations st) (Z.of_nat k0))
      as [Ck combs]. cbn [fst snd] in G1, G2, G3.
    set (st1 := Comb.mkState (Comb.intersections st) combs).
    assert (W1 : WF st1).
    { destruct W as (D1 & D2 & ND). split; [exact D1|]. split.
      - intros k c. cbn. rewrite G2. apply D2.
      - now apply G3. }
    assert (I1 : forall k c, In c (comb_at (Comb.combinations st1) k) <->
                             good_combo sets k c /\ 2 <= k <= Z.of_nat k0).
    { intros k c. cbn. rewrite G2. apply I. }
    assert (HCk : forall c, In c Ck <-> good_combo sets (Z.of_nat k0) c).
    { intros c. rewrite G1, I. split; [tauto|]. intros H. split; trivial. lia. }
    destruct (Py.truthy Ck) eqn:Et.
    + destruct (index_loop_spec (Z.of_nat k0) Ck ltac:(lia) HCk
                  (length sets) 0%nat Ck st1) as (st2 & E2 & W2 & U2 & N2);
        trivial.
      * cbn. now rewrite G2.
      * intros c. split; [|tauto]. intros H. split; trivial.
        intros j Hj. apply HCk in H. destruct H as [(_ & R & _) _].
        specialize (R j Hj). cbn. lia.
      * intros c'. rewrite I1. split; [lia|].
        intros [[(_ & R & _) _] (h & t & -> & Hh)].
        specialize (R h (or_introl eq_refl)). cbn in Hh. lia.
      * unfold Py.len, Py.range. rewrite Nat2Z.id, E2.
        destruct (IH (S k0) st2) as (st3 & E3 & I3); [lia| |].
        -- split; trivial. intros k c.
           destruct (Z.eq_dec k (Z.of_nat k0 + 1)) as [->|Hne].
           ++ rewrite N2. split; [intros H; split; trivial; lia|tauto].
           ++ rewrite U2, I1 by trivial. split; intros [H1 H2]; split;
                trivial; lia.
        -- exists st3. split; trivial.
           now replace (k0 + S m)%nat with (S k0 + m)%nat by lia.
    + apply truthy_false in Et. exists st1. split; trivial.
      split; trivial. intros k c. rewrite I1. split.
      * intros [H1 H2]. split; trivial. lia.
      * intros [H1 H2]. split; trivial. split; [lia|].
        destruct (Z_le_dec k (Z.of_nat k0)) as [|Hgt]; trivial. exfalso.
        destruct (good_shrink (Z.of_nat k0) (Z.to_nat (k - Z.of_nat k0)) c)
          as [c0 H0]; [|lia|].
        -- now replace (Z.of_nat k0 + Z.of_nat (Z.to_nat (k - Z.of_nat k0)))
             with k by lia.
        -- apply HCk in H0. rewrite Et in H0. destruct H0.
Qed.

End Combinations.

(** *** The pairs at the start *)

Lemma fold_set_add (P : list Z -> bool) l : forall acc c,
  In c (fold_left (fun cs x => if P x then Comb.set_add x cs else cs) l acc)
  <-> In c acc \/ (In c l /\ P c = true).
Proof.
  induction l as [|x l IH]; intros acc c; cbn [fold_left].
  - cbn. tauto.
  - rewrite IH. destruct (P x) eqn:E.
    + rewrite in_set_add. cbn [In]. intuition congruence.
    + cbn [In]. intuition congruence.
Qed.

Lemma shift_seq a m : forall s,
  map (fun i => Z.of_nat a + i) (map Z.of_nat (seq s m))
  = map Z.of_nat (seq (a + s) m).
Proof.
  induction m as [|m IH]; intros s; cbn [seq map]; trivial.
  rewrite IH. f_equal; [lia|]. now rewrite Nat.add_succ_r.
Qed.

Lemma NoDup_map_filter {X W} (f : X -> W) (p : X -> bool) l :
  NoDup (map f l) -> NoDup (map f (filter p l)).
Proof.
  induction l as [|x l IH]; cbn; trivial. intros H.
  inversion H as [|? ? Hx Hl]; subst. destruct (p x); [|auto].
  cbn. constructor; [|auto]. intros Hin. apply Hx.
  apply in_map_iff in Hin as (y & E & Hy). apply filter_In in Hy as [Hy _].
  apply in_map_iff. eauto.
Qed.

Section Start.

Variable sets : list (list Z).

Lemma in_pairs c :
  In c (map (fun ij => Comb.frozenset [fst ij; snd ij])
            (Comb.pair_indices (Py.len sets) None 1))
  <-> exists i j, 0 <= i /\ i < j < Py.len sets /\ c = [i; j].
Proof.
  rewrite in_map_iff. split.
  - intros ([i j] & <- & H). apply in_pair_indices in H.
    rewrite Z.min_id, Z.max_id in H. exists i, j. cbn [fst snd].
    split; [lia|]. split; [lia|]. cbn.
    destruct (Z.ltb_spec i j); [reflexivity|lia].
  - intros (i & j & Hi & Hj & ->). exists (i, j). cbn [fst snd]. split.
    + cbn. destruct (Z.ltb_spec i j); [reflexivity|lia].
    + apply in_pair_indices. rewrite Z.min_id, Z.max_id. lia.
Qed.

Lemma intersection_of_pair i j :
  0 <= i < Py.len sets -> 0 <= j < Py.len sets ->
  exists s, Comb.intersection_of sets [i; j] = Some s
            /\ is_inter sets [i; j] s.
Proof.
  intros Hi Hj. unfold Comb.intersection_of. cbn [Py.mapM].
  destruct (getitem_in_range sets i Hi) as [si Ei].
  destruct (getitem_in_range sets j Hj) as [sj Ej].
  rewrite Ei, Ej. cbn [fold_left]. eexists. split; [reflexivity|].
  intros x. rewrite in_inter, <- (member_getitem sets i si x Ei),
    <- (member_getitem sets j sj x Ej). split.
  - intros [H1 H2] k [<-|[<-|[]]]; trivial.
  - intros H. split; apply H; cbn; tauto.
Qed.

Lemma good_pair c :
  good_combo sets 2 c <->
  (exists i j, 0 <= i /\ i < j < Py.len sets /\ c = [i; j]) /\ common sets c.
Proof.
  unfold good_combo, combo. split.
  - intros [(S & R & L) C]. split; trivial.
    destruct c as [|i [|j [|z l]]];
      try (unfold Py.len in L; cbn [length] in L; lia).
    exists i, j. apply StronglySorted_inv in S as [_ F].
    apply Forall_inv in F.
    pose proof (R i (or_introl eq_refl)).
    pose proof (R j (or_intror (or_introl eq_refl))).
    split; [lia|]. split; [lia|reflexivity].
  - intros [(i & j & Hi & Hj & ->) C]. split; trivial. split; [|split].
    + repeat constructor. lia.
    + intros k [<-|[<-|[]]]; lia.
    + reflexivity.
Qed.

(** The dict returned, key by key. *)
Lemma by_order_char (min_size : Z) (max_size : option Z) :
  exists d,
    Comb.combinations_with_nonempty_intersection_by_order
      sets min_size max_size = Some d
    /\ NoDup (map fst d)
    /\ (forall k cs, In (k, cs) d -> cs <> [])
    /\ forall k c,
         (exists cs, In (k, cs) d /\ In c cs) <->
         good_combo sets k c
         /\ Z.max 2 min_size <= k
            <= Z.max 2 (match max_size with
                        | None => Py.len sets
                        | Some m => m
                        end).
Proof.
  unfold Comb.combinations_with_nonempty_intersection_by_order.
  set (M := match max_size with None => Py.len sets | Some m => m end).
  set (pairs := map (fun ij => Comb.frozenset [fst ij; snd ij])
                    (Comb.pair_indices (Py.len sets) None 1)).
  set (f := fun pair => match Comb.intersection_of sets pair with
                        | Some s => Some (pair, s)
                        | None => None
                        end).
  assert (Hf : forall c, In c pairs ->
             exists s, f c = Some (c, s) /\ is_inter sets c s).
  { intros c Hc. apply in_pairs in Hc as (i & j & Hi & Hj & ->).
    destruct (intersection_of_pair i j) as (s & E & Hs); [lia|lia|].
    exists s. unfold f. now rewrite E. }
  destruct (mapM_total f pairs) as [d0 Hd0].
  { intros c Hc. destruct (Hf c Hc) as (s & E & _). eauto. }
  rewrite Hd0.
  assert (D1 : forall c s, In (c, s) d0 -> is_inter sets c s).
  { intros c s H. destruct (mapM_in _ _ _ _ Hd0 H) as (c' & Hc' & E).
    destruct (Hf c' Hc') as (s' & E' & Hs'). rewrite E in E'.
    injection E' as -> ->. exact Hs'. }
  assert (Hkey : forall c, In c pairs -> has_key d0 c).
  { intros c Hc. destruct (Hf c Hc) as (s & E & _).
    pose proof (mapM_in_fwd _ _ _ _ _ Hd0 Hc E) as Hin.
    unfold has_key. intros N.
    apply (dict_get_None Comb.eqb eqb_eq) in N. apply N.
    apply in_map_iff. now exists (c, s). }
  set (P := fun pair => match Comb.dict_get Comb.eqb d0 pair with
                        | Some s => Py.truthy s
                        | None => false
                        end).
  rewrite (fold_left_ext _
             (fun cs x => if P x then Comb.set_add x cs else cs))
    by (intros cs x; unfold P;
        now destruct (Comb.dict_get Comb.eqb d0 x)).
  set (np := fold_left _ pairs []).
  assert (Hnp : forall c, In c np <-> good_combo sets 2 c).
  { intros c. unfold np. rewrite fold_set_add, good_pair.
    fold pairs. rewrite <- in_pairs. fold pairs. cbn [In]. split.
    - intros [[]|[Hc HP]]. split; trivial. unfold P in HP.
      destruct (Comb.dict_get Comb.eqb d0 c) as [s|] eqn:E; [|discriminate].
      apply (dict_get_In Comb.eqb eqb_eq) in E.
      now apply (truthy_common sets c s (D1 c s E)).
    - intros [Hc C]. right. split; trivial. unfold P.
      pose proof (Hkey c Hc) as Hk. unfold has_key in Hk.
      destruct (Comb.dict_get Comb.eqb d0 c) as [s|] eqn:E; [|contradiction].
      apply (dict_get_In Comb.eqb eqb_eq) in E.
      now apply (truthy_common sets c s (D1 c s E)). }
  assert (I0 : Inv sets (Comb.mkState d0 [(2, np)]) (Z.of_nat 2)).
  { split; [split; [exact D1|split]|].
    - intros k c. cbn [Comb.combinations Comb.intersections].
      unfold comb_at, Comb.dict_get. cbn [find fst].
      destruct (Z.eqb_spec 2 k); [|intros []]. cbn [snd]. intros H.
      apply Hkey. apply Hnp, good_pair in H as [H _]. now apply in_pairs.
    - cbn. repeat constructor. intros [].
    - intros k c. cbn [Comb.combinations].
      unfold comb_at, Comb.dict_get. cbn [find fst].
      destruct (Z.eqb_spec 2 k) as [<-|Hk]; cbn [snd].
      + rewrite Hnp. split; [intros H; split; trivial; lia|tauto].
      + split; [intros []|lia]. }
  unfold Py.range2, Py.range.
  change 2 with (Z.of_nat 2) at 1. rewrite shift_seq. cbn [Nat.add].
  destruct (order_loop_spec sets (Z.to_nat (M - 2)) 2 _ (le_n 2) I0)
    as (st & E & [(_ & _ & ND) I]).
  rewrite E. eexists. split; [reflexivity|]. split; [|split].
  - now apply NoDup_map_filter.
  - intros k cs H. apply filter_In in H as [_ H]. cbn [snd] in H.
    apply andb_true_iff in H as [_ H]. now apply truthy_true.
  - intros k c.
    replace (Z.of_nat (2 + Z.to_nat (M - 2))) with (Z.max 2 M) in I by lia.
    split.
    + intros (cs & H & Hc). apply filter_In in H as [H Hf'].
      cbn [fst snd] in Hf'. apply andb_true_iff in Hf' as [Hmin _].
      apply Z.leb_le in Hmin.
      apply (dict_get_NoDup Z.eqb Z.eqb_eq _ _ _ ND) in H.
      assert (Hin : In c (comb_at (Comb.combinations st) k))
        by (unfold comb_at; now rewrite H).
      apply I in Hin as [G B]. split; trivial. lia.
    + intros [G B].
      assert (Hin : In c (comb_at (Comb.combinations st) k))
        by (apply I; split; trivial; lia).
      unfold comb_at in Hin.
      destruct (Comb.dict_get Z.eqb (Comb.combinations st) k) as [cs|] eqn:Ek;
        [|destruct Hin].
      exists cs. split; trivial. apply filter_In. split.
      * now apply (dict_get_In Z.eqb Z.eqb_eq).
      * cbn [fst snd]. apply andb_true_iff. split; [apply Z.leb_le; lia|].
        destruct cs; [destruct Hin|reflexivity].
Qed.

End Start.

(** X25 ([combinations_with_nonempty_intersection_by_order]): whatever
    the sets, [min_size] and [max_size], nothing is raised, and the dict
    returned has distinct keys and no empty value.  Under the key [k] it
    holds exactly the combinations of [k] indices (in increasing order,
    each a valid index) whose sets share an element, for every [k] from
    [max(2, min_size)] to [max(2, max_size)], where [max_size] is the
    number of sets when it is left out. *)
Theorem combinations_by_order_spec (sets : list (list Z)) (min_size : Z)
  (max_size : option Z) :
  exists d,
    Comb.combinations_with_nonempty_intersection_by_order
      sets min_size max_size = Some d
    /\ NoDup (map fst d)
    /\ (forall k cs, In (k, cs) d -> cs <> [])
    /\ forall k c,
         (exists cs, In (k, cs) d /\ In c cs) <->
         good_combo sets k c
         /\ Z.max 2 min_size <= k
            <= Z.max 2 (match max_size with
                        | None => Py.len sets
                        | Some m => m
                        end).
Proof. apply by_order_char. Qed.

(** X26 ([combinations_with_nonempty_intersection]): nothing is raised,
    and the combinations returned are exactly the combinations of indices
    (in increasing order, each a valid index) whose sets share an
    element and whose size is between [max(2, min_size)] and
    [max(2, max_size)]. *)
Theorem combinations_flat_spec (sets : list (list Z)) (min_size : Z)
  (max_size : option Z) :
  exists out,
    combinations_with_nonempty_intersection sets min_size max_size = Some out
    /\ forall c,
         In c out <->
         good_combo sets (Py.len c) c
         /\ Z.max 2 min_size <= Py.len c
            <= Z.max 2 (match max_size with
                        | None => Py.len sets
                        | Some m => m
                        end).
Proof.
  destruct (by_order_char sets min_size max_size) as (d & E & _ & _ & H).
  unfold combinations_with_nonempty_intersection. rewrite E.
  eexists. split; [reflexivity|]. intros c. rewrite in_concat. split.
  - intros (cs & Hcs & Hc). apply in_map_iff in Hcs as ([k cs'] & <- & Hd).
    cbn [snd] in Hc.
    assert (G : good_combo sets k c /\ Z.max 2 min_size <= k
                <= Z.max 2 (match max_size with
                            | None => Py.len sets
                            | Some m => m
                            end)) by (apply H; eauto).
    destruct G as [G B]. pose proof G as [(_ & _ & L) _]. now rewrite L.
  - intros [G B]. destruct (proj2 (H (Py.len c) c) (conj G B))
      as (cs & Hd & Hc).
    exists cs. split; trivial. apply in_map_iff. now exists (Py.len c, cs).
Qed.

(** ** What the "ALL" scheme yields *)

Lemma select_perm {X} (l : list X) x r :
  In (x, r) (select l) -> Permutation l (x :: r).
Proof.
  revert x r. induction l as [|y l IH]; intros x r H; [destruct H|].
  cbn [select] in H. destruct H as [E|H].
  - injection E as -> ->. reflexivity.
  - apply in_map_iff in H as ([x' r'] & E & H). cbn in E.
    injection E as <- <-. apply IH in H.
    eapply perm_trans; [apply perm_skip, H|apply perm_swap].
Qed.

Lemma permutations_n_perm {X} n : forall (l perm : list X),
  length l = n -> In perm (permutations_n n l) -> Permutation perm l.
Proof.
  induction n as [|n IH]; intros l perm Hl H; cbn [permutations_n] in H.
  - destruct H as [<-|[]]. destruct l; [constructor|discriminate].
  - apply in_flat_map in H as ([x r] & Hs & H). cbn [fst snd] in H.
    apply in_map_iff in H as (perm' & <- & H).
    pose proof (select_length _ _ _ Hs) as L.
    pose proof (select_perm _ _ _ Hs) as P.
    eapply perm_trans; [apply perm_skip, (IH r); [lia|exact H]|].
    now symmetry.
Qed.

Lemma permutations_perm {X} (l perm : list X) :
  In perm (permutations l) -> Permutation perm l.
Proof. now apply permutations_n_perm. Qed.

Lemma concat_perm {X} (l l' : list (list X)) :
  Permutation l l' -> Permutation (concat l) (concat l').
Proof.
  induction 1 as [|x l l' P IH|x y l|l l' l'' P1 IH1 P2 IH2]; cbn [concat].
  - constructor.
  - now apply Permutation_app_head.
  - rewrite !app_assoc. apply Permutation_app_tail, Permutation_app_comm.
  - eapply perm_trans; eauto.
Qed.

Lemma concat_repeat_nil {X} n : concat (repeat (@nil X) n) = [].
Proof. induction n; cbn; trivial. Qed.

Lemma map_fst_combine {X W} (l : list X) : forall (l' : list W),
  length l = length l' -> map fst (combine l l') = l.
Proof.
  induction l as [|x l IH]; intros [|y l'] H; try discriminate; trivial.
  cbn. f_equal. apply IH. now injection H.
Qed.

Lemma map_snd_combine_gen {X W} (l : list X) : forall (l' : list W),
  length l = length l' -> map snd (combine l l') = l'.
Proof.
  induction l as [|x l IH]; intros [|y l'] H; try discriminate; trivial.
  cbn. f_equal. apply IH. now injection H.
Qed.

Lemma zip_parts_sides mp perm :
  length mp = length perm ->
  map mechanism (zip_parts mp perm) = mp
  /\ map purview (zip_parts mp perm) = perm.
Proof.
  intros H. unfold zip_parts. rewrite !map_map. cbn [mechanism purview].
  split.
  - rewrite <- (map_fst_combine mp perm H) at 2. reflexivity.
  - rewrite <- (map_snd_combine_gen mp perm H) at 2. reflexivity.
Qed.

Section AllPartitionsCover.

Variable set_iter : list (list (list Z)) -> list (list (list Z)).
Hypothesis set_iter_sub : forall l x, In x (set_iter l) -> In x l.

Lemma all_partitions_candidates (m p : list Z) :
  all_partitions set_iter m p
  = (filter (fun parts => negb (excluded_first m parts))
            (candidates set_iter m p), None).
Proof.
  unfold all_partitions, candidates. apply for_each_filter.
  intros mp0 _. cbv zeta. apply for_each_filter. intros k Hk.
  apply in_range2 in Hk.
  destruct (k_partitions_total p k) as (out & Hout & Hlen); [lia|].
  rewrite Hout. cbn [fst].
  apply (for_gen_filter _ _ out); trivial. intros pp0 Hpp.
  rewrite permutation_loop.
  - reflexivity.
  - destruct mp0; discriminate.
  - intros perm Hperm. apply set_iter_sub, permutations_length in Hperm.
    apply Hlen in Hpp. rewrite length_app in Hperm.
    intros ->. simpl in Hperm. lia.
Qed.

(** X27 ([all_partitions]): in every partition yielded by the "ALL"
    scheme the mechanism sides of the parts, laid end to end, are a
    rearrangement of the mechanism, and the purview sides one of the
    purview; the last part always has an empty mechanism side.  This
    holds for every order in which the set of the permutations is
    iterated. *)
Theorem all_partitions_cover (m p : list Z) (parts : KPartition) :
  In parts (fst (all_partitions set_iter m p)) ->
  Permutation (concat (map mechanism parts)) m
  /\ Permutation (concat (map purview parts)) p
  /\ exists parts' part,
       parts = parts' ++ [part] /\ mechanism part = [].
Proof.
  rewrite all_partitions_candidates. cbn [fst]. intros H.
  apply filter_In in H as [H _]. unfold candidates in H.
  apply in_flat_map in H as (mp0 & Hmp0 & H).
  apply in_flat_map in H as (k & Hk & H).
  apply in_flat_map in H as (pp0 & Hpp0 & H).
  apply in_map_iff in H as (perm & <- & Hperm).
  apply in_range2 in Hk.
  apply set_iter_sub in Hperm.
  pose proof (permutations_length _ _ Hperm) as Lperm.
  apply permutations_perm in Hperm.
  destruct (k_partitions_total p k) as (out & Hout & Hlen); [lia|].
  rewrite Hout in Hpp0. cbn [fst] in Hpp0.
  pose proof (Hlen _ Hpp0) as Lpp0.
  assert (Vpp0 : is_partition p pp0).
  { apply (k_partitions_valid p k); [lia|]. rewrite Hout. exact Hpp0. }
  assert (Vmp0 : is_partition m mp0).
  { apply partitions_valid. exact Hmp0. }
  assert (L : length (mp0 ++ [[]]) = length perm).
  { rewrite Lperm, !length_app, repeat_length. unfold Py.len in *.
    rewrite length_app in *. cbn [length] in *. lia. }
  destruct (zip_parts_sides _ _ L) as [E1 E2]. rewrite E1, E2.
  split; [|split].
  - rewrite concat_app. cbn [concat]. rewrite !app_nil_r. apply Vmp0.
  - eapply perm_trans; [apply concat_perm, Hperm|].
    rewrite concat_app, concat_repeat_nil, app_nil_r. apply Vpp0.
  - destruct (exists_last (l := perm)) as (perm' & q & ->).
    { intros ->. rewrite length_app in L. cbn in L. lia. }
    unfold zip_parts. rewrite combine_snoc, map_app.
    + eexists. eexists. split; [reflexivity|]. reflexivity.
    + rewrite !length_app in L. cbn [length] in L. lia.
Qed.

End AllPartitionsCover.

Lemma all_partitions_cover_witness :
  Permutation
    (concat (map mechanism
               [mkPart [0] [2]; mkPart [1] []; mkPart [] [3]]))
    [0; 1].
Proof.
  apply (all_partitions_cover (nodup (list_eq_dec (list_eq_dec Z.eq_dec)))
           ltac:(intros l x H; apply nodup_In in H; exact H)
           [0; 1] [2; 3] [mkPart [0] [2]; mkPart [1] []; mkPart [] [3]]).
  vm_compute. tauto.
Defined.

(** ** [k_partitions] yields every partition into [k] blocks *)

Lemma nth_error_lt {X} (l : list X) i x :
  nth_error l i = Some x -> (i < length l)%nat.
Proof. intros H. apply nth_error_Some. congruence. Qed.

Lemma restricted_growth_prefix s t :
  restricted_growth (s ++ t) -> restricted_growth s.
Proof.
  intros H i v Hi.
  assert (L : (i < length s)%nat) by (apply nth_error_Some; congruence).
  destruct (H i v) as [H0 H1]; [now rewrite nth_error_app1|].
  split; trivial. intros w Hw. destruct (H1 w Hw) as (i' & Hlt & Hi').
  exists i'. split; trivial. rewrite nth_error_app1 in Hi' by lia. exact Hi'.
Qed.

Lemma restricted_growth_last s v :
  restricted_growth (s ++ [v]) -> 0 <= v /\ forall w, 0 <= w < v -> In w s.
Proof.
  intros H. destruct (H (length s) v) as [H0 H1].
  { rewrite nth_error_app2, Nat.sub_diag by lia. reflexivity. }
  split; trivial. intros w Hw. destruct (H1 w Hw) as (i' & Hlt & Hi').
  rewrite nth_error_app1 in Hi' by lia. eapply nth_error_In; eauto.
Qed.

Lemma restricted_growth_below s v w :
  restricted_growth s -> In v s -> 0 <= w < v -> In w s.
Proof.
  intros H Hv Hw. apply In_nth_error in Hv as [i Hi].
  destruct (H i v Hi) as [_ H1]. destruct (H1 w Hw) as (i' & _ & Hi').
  eapply nth_error_In; eauto.
Qed.

(** Every restricted growth string with the values [0 .. mu-1] is
    visited. *)
Lemma rgs_ok_in_seq nu : forall mu sigma s,
  rgs_ok mu nu s -> In s (rgs_seq nu mu sigma).
Proof.
  induction nu as [|nu IH]; intros mu sigma s (L & V & J & G);
    apply in_rgs_seq.
  - apply length_zero_iff_nil in L. subst s. destruct mu as [|m]; trivial.
    destruct (J 0%nat); lia.
  - destruct (exists_last (l := s)) as (s' & v & ->).
    { intros ->. discriminate. }
    rewrite length_app in L. cbn [length] in L.
    assert (Hv : 0 <= v < Z.of_nat mu)
      by (apply V, in_app_iff; right; now left).
    destruct mu as [|m]; [lia|].
    pose proof (restricted_growth_prefix _ _ G) as G'.
    pose proof (restricted_growth_last _ _ G) as [_ Gl].
    destruct (in_dec Z.eq_dec (Z.of_nat m) s') as [Hm|Hm].
    + right. exists (Z.to_nat v), s'. split; [lia|]. split.
      * apply IH. split; [lia|]. split; [|split; trivial].
        -- intros w Hw. apply V, in_app_iff. now left.
        -- intros j Hj. destruct (Nat.eq_dec j m) as [->|]; trivial.
           apply (restricted_growth_below s' (Z.of_nat m)); trivial. lia.
      * unfold snoc. now rewrite Z2Nat.id by lia.
    + left. exists s'.
      assert (Ev : v = Z.of_nat m).
      { assert (H : In (Z.of_nat m) (s' ++ [v])) by (apply J; lia).
        apply in_app_iff in H as [H|[H|[]]]; [contradiction|now symmetry]. }
      split; [|unfold snoc; now rewrite Ev].
      apply IH. split; [lia|]. split; [|split; trivial].
      * intros w Hw. assert (0 <= w < Z.of_nat (S m))
          by (apply V, in_app_iff; now left).
        destruct (Z.eq_dec w (Z.of_nat m)) as [->|]; [contradiction|lia].
      * intros j Hj. apply Gl. lia.
Qed.

(** Any labelling of the elements can be renumbered into a restricted
    growth string; [labs] lists the labels in the order in which they
    first occur. *)
Lemma normalise {A} (lab : A -> nat) (c : list A) :
  exists (s : list Z) (labs : list nat),
    rgs_ok (length labs) (length c) s
    /\ NoDup labs
    /\ (forall l, In l labs <-> exists x, In x c /\ lab x = l)
    /\ forall i v x,
         nth_error s i = Some v -> nth_error c i = Some x ->
         nth_error labs (Z.to_nat v) = Some (lab x).
Proof.
  induction c as [|x c IH] using rev_ind.
  - exists [], []. split; [|split; [constructor|split]].
    + split; [reflexivity|]. split; [intros v []|].
      split; [intros j Hj; cbn in Hj; lia|apply restricted_growth_nil].
    + intros l. split; [intros []|intros (x & [] & _)].
    + intros [|i] v x H; discriminate.
  - destruct IH as (s & labs & R & ND & HL & HN).
    pose proof R as (Ls & _).
    rewrite length_app. cbn [length]. rewrite Nat.add_1_r.
    destruct (in_dec Nat.eq_dec (lab x) labs) as [Hin|Hnin].
    + destruct (In_nth_error _ _ Hin) as [v Hv].
      assert (Hlt : (v < length labs)%nat)
        by (apply nth_error_Some; congruence).
      exists (snoc v s), labs. split; [now apply rgs_ok_snoc_old|].
      split; trivial. split.
      * intros l. rewrite HL. split.
        -- intros (y & Hy & E). exists y. rewrite in_app_iff. tauto.
        -- intros (y & Hy & E). apply in_app_iff in Hy as [Hy|[<-|[]]];
             [eauto|]. subst l. now apply HL.
      * intros i w y Hs Hc. unfold snoc in Hs.
        destruct (Nat.lt_ge_cases i (length c)) as [Hi|Hi].
        -- rewrite nth_error_app1 in Hs, Hc by lia. eauto.
        -- rewrite nth_error_app2 in Hs, Hc by lia.
           destruct (i - length s)%nat as [|d] eqn:E1;
             [|destruct d; discriminate].
           rewrite Ls in E1. rewrite E1 in Hc. cbn in Hs, Hc.
           injection Hs as <-. injection Hc as <-. now rewrite Nat2Z.id.
    + exists (snoc (length labs) s), (labs ++ [lab x]).
      split; [|split; [|split]].
      * rewrite length_app. cbn [length]. rewrite Nat.add_1_r.
        now apply rgs_ok_snoc_new.
      * apply NoDup_app; trivial; [repeat constructor; intros []|].
        intros l Hl [<-|[]]. contradiction.
      * intros l. rewrite in_app_iff, HL. cbn [In]. split.
        -- intros [(y & Hy & E)|[<-|[]]].
           ++ exists y. rewrite in_app_iff. tauto.
           ++ exists x. rewrite in_app_iff. cbn. tauto.
        -- intros (y & Hy & E). apply in_app_iff in Hy as [Hy|[<-|[]]];
             [left; eauto|right; now left].
      * intros i w y Hs Hc. unfold snoc in Hs.
        destruct (Nat.lt_ge_cases i (length c)) as [Hi|Hi].
        -- rewrite nth_error_app1 in Hs, Hc by lia.
           pose proof (HN i w y Hs Hc) as H.
           rewrite nth_error_app1; trivial.
           apply nth_error_Some. congruence.
        -- rewrite nth_error_app2 in Hs, Hc by lia.
           destruct (i - length s)%nat as [|d] eqn:E1;
             [|destruct d; discriminate].
           rewrite Ls in E1. rewrite E1 in Hc. cbn in Hs, Hc.
           injection Hs as <-. injection Hc as <-.
           rewrite Nat2Z.id, nth_error_app2, Nat.sub_diag by lia.
           reflexivity.
Qed.

Section KComplete.

Context {A : Type}.
Variable eq_dec : forall x y : A, {x = y} + {x <> y}.

Lemma block_index_lt (q : list (list A)) x :
  In x (concat q) -> (block_index eq_dec q x < length q)%nat.
Proof.
  induction q as [|b q IH]; cbn; [tauto|]. intros H.
  destruct (in_dec eq_dec x b); [lia|].
  apply in_app_iff in H as [H|H]; [contradiction|].
  specialize (IH H). lia.
Qed.

Lemma block_index_nth (q : list (list A)) : forall l b x,
  NoDup (concat q) -> nth_error q l = Some b -> In x b ->
  block_index eq_dec q x = l.
Proof.
  induction q as [|b0 q IH]; intros l b x ND Hl Hx;
    [destruct l; discriminate|].
  cbn [block_index concat] in *. destruct l as [|l]; cbn in Hl.
  - injection Hl as ->. now destruct (in_dec eq_dec x b).
  - destruct (in_dec eq_dec x b0) as [H0|H0].
    + exfalso. apply (NoDup_app_disjoint b0 (concat q) x); trivial.
      apply in_concat. exists b. split; trivial.
      eapply nth_error_In; eauto.
    + f_equal. apply (IH l b); trivial.
      now apply NoDup_app_remove_l in ND.
Qed.

(** The labels of the blocks of a partition into [k] blocks are the
    numbers below [k]. *)
Lemma block_labels (c : list A) (q : list (list A)) (labs : list nat) :
  NoDup c -> is_partition c q -> NoDup labs ->
  (forall l, In l labs <->
             exists x, In x c /\ block_index eq_dec q x = l) ->
  length labs = length q.
Proof.
  intros Hc [Hne Hp] ND HL.
  assert (NDq : NoDup (concat q))
    by (apply (Permutation_NoDup (Permutation_sym Hp) Hc)).
  transitivity (length (seq 0 (length q))); [|apply length_seq].
  apply Permutation_length, NoDup_Permutation; trivial; [apply seq_NoDup|].
  intros l. rewrite HL, in_seq. split.
  - intros (x & Hx & <-). split; [lia|]. cbn.
    apply block_index_lt. apply (Permutation_in _ (Permutation_sym Hp) Hx).
  - intros [_ Hl]. cbn in Hl.
    destruct (nth_error q l) as [b|] eqn:E;
      [|apply nth_error_None in E; lia].
    pose proof (nth_error_In _ _ E) as Hb.
    destruct b as [|x b]; [now apply Hne in Hb|].
    exists x. split.
    + apply (Permutation_in _ Hp). apply in_concat.
      exists (x :: b). split; trivial. now left.
    + apply (block_index_nth q l (x :: b)); trivial. now left.
Qed.

(** A restricted growth string for a given partition. *)
Lemma partition_string (c : list A) (q : list (list A)) :
  NoDup c -> is_partition c q ->
  exists s,
    rgs_ok (length q) (length c) s
    /\ same_partition (blocks_of (Py.len q) s c) q.
Proof.
  intros Hc Hq. pose proof Hq as [Hne Hp].
  assert (NDq : NoDup (concat q))
    by (apply (Permutation_NoDup (Permutation_sym Hp) Hc)).
  destruct (normalise (block_index eq_dec q) c)
    as (s & labs & R & ND & HL & HN).
  rewrite (block_labels c q labs Hc Hq ND HL) in R.
  exists s. split; trivial. destruct R as (Ls & V & J & G).
  assert (Lb : length s = length c) by trivial.
  assert (Vb : forall v, In v s -> 0 <= v < Py.len q)
    by (intros v Hv; apply V in Hv; unfold Py.len; lia).
  assert (Pb : Permutation (concat (blocks_of (Py.len q) s c)) c)
    by (now apply blocks_of_perm).
  intros x y. split.
  - intros T. pose proof (together_in _ _ _ T) as [Hx Hy].
    apply (Permutation_in _ Pb) in Hx, Hy.
    destruct (In_nth_error _ _ Hx) as [i Hi].
    destruct (In_nth_error _ _ Hy) as [j Hj].
    destruct (nth_error s i) as [vi|] eqn:Si;
      [|apply nth_error_None in Si; apply nth_error_lt in Hi; lia].
    destruct (nth_error s j) as [vj|] eqn:Sj;
      [|apply nth_error_None in Sj; apply nth_error_lt in Hj; lia].
    apply (together_blocks (Py.len q) s c i j vi vj x y) in T; trivial.
    apply (block_index_together eq_dec);
      trivial; try (apply (Permutation_in _ (Permutation_sym Hp)); trivial).
    pose proof (HN i vi x Si Hi) as E1. pose proof (HN j vj y Sj Hj) as E2.
    congruence.
  - intros T. pose proof (together_in _ _ _ T) as [Hx Hy].
    apply (block_index_together eq_dec) in T; trivial.
    apply (Permutation_in _ Hp) in Hx, Hy.
    destruct (In_nth_error _ _ Hx) as [i Hi].
    destruct (In_nth_error _ _ Hy) as [j Hj].
    destruct (nth_error s i) as [vi|] eqn:Si;
      [|apply nth_error_None in Si; apply nth_error_lt in Hi; lia].
    destruct (nth_error s j) as [vj|] eqn:Sj;
      [|apply nth_error_None in Sj; apply nth_error_lt in Hj; lia].
    apply (together_blocks (Py.len q) s c i j vi vj x y); trivial.
    pose proof (HN i vi x Si Hi) as E1. pose proof (HN j vj y Sj Hj) as E2.
    rewrite T in E1.
    assert (Z.to_nat vi = Z.to_nat vj).
    { apply (proj1 (NoDup_nth_error labs) ND); [|congruence].
      apply nth_error_Some. congruence. }
    pose proof (Vb vi (nth_error_In _ _ Si)).
    pose proof (Vb vj (nth_error_In _ _ Sj)). lia.
Qed.

(** X28 ([k_partitions]): for a collection of distinct elements and
    [1 <= k <= n], every partition of the collection into [k] non-empty
    blocks is yielded, up to the order of the blocks and of the elements
    inside them. *)
Theorem k_partitions_complete (c : list A) (k : Z) (q : list (list A)) :
  NoDup c -> 1 <= k <= Py.len c ->
  is_partition c q -> Py.len q = k ->
  exists p, In p (fst (k_partitions c k)) /\ same_partition p q.
Proof.
  intros Hc Hk Hq Lq. pose proof Hq as [Hne Hp].
  destruct (partition_string c q Hc Hq) as (s & R & S).
  rewrite Lq in S. unfold Py.len in Hk, Lq.
  destruct (Z.eq_dec k 1) as [->|E1];
    [|destruct (Z.eq_dec k (Z.of_nat (length c))) as [->|En]].
  - exists [c]. split.
    + unfold k_partitions, Py.len.
      destruct (Z.eqb_spec (Z.of_nat (length c)) 0) as [E0|E0]; [lia|].
      cbn. now left.
    + destruct q as [|b [|b' q]]; cbn in Lq; try lia.
      cbn in Hp. rewrite app_nil_r in Hp.
      intros x y. unfold together. split.
      * intros (b0 & [<-|[]] & Hx & Hy). exists b.
        split; [now left|].
        split; apply (Permutation_in _ (Permutation_sym Hp)); trivial.
      * intros (b0 & [<-|[]] & Hx & Hy). exists c.
        split; [now left|]. split; apply (Permutation_in _ Hp); trivial.
  - exists (map (fun item => [item]) c). split.
    + unfold k_partitions, Py.len.
      destruct (Z.eqb_spec (Z.of_nat (length c)) 0) as [E0|E0]; [lia|].
      destruct (Z.ltb_spec (Z.of_nat (length c)) 1); [lia|]. cbn [orb].
      destruct (Z.eqb_spec (Z.of_nat (length c)) 1); [lia|].
      rewrite Z.eqb_refl. cbn. now left.
    + assert (Es : s = iota (length c)).
      { assert (H : In s (rgs_seq (length c) (length c) false)).
        { apply rgs_ok_in_seq. now replace (length q) with (length c) in R by lia. }
        rewrite rgs_seq_diag in H. destruct H as [<-|[]]. reflexivity. }
      intros x y. rewrite <- (S x y). split.
      * intros (b & Hb & Hx & Hy). apply in_map_iff in Hb as (z & <- & Hz).
        destruct Hx as [<-|[]], Hy as [<-|[]].
        destruct (In_nth_error _ _ Hz) as [i Hi].
        assert (Si : nth_error s i = Some (Z.of_nat i)).
        { rewrite Es. unfold iota. rewrite nth_error_map, nth_error_seq.
          apply nth_error_lt in Hi.
          destruct (Nat.ltb_spec i (length c)); [reflexivity|lia]. }
        apply (together_blocks (Z.of_nat (length c)) s c i i
                 (Z.of_nat i) (Z.of_nat i) z z); trivial.
        intros v Hv. rewrite Es in Hv. unfold iota in Hv.
        apply in_map_iff in Hv as (o & <- & Ho). apply in_seq in Ho. lia.
      * intros T. pose proof (together_in _ _ _ T) as [Hx Hy].
        assert (Pb : Permutation
                       (concat (blocks_of (Z.of_nat (length c)) s c)) c).
        { apply blocks_of_perm; [apply R|].
          intros v Hv. destruct R as (_ & V & _). apply V in Hv. lia. }
        apply (Permutation_in _ Pb) in Hx, Hy.
        destruct (In_nth_error _ _ Hx) as [i Hi].
        destruct (In_nth_error _ _ Hy) as [j Hj].
        assert (Si : nth_error s i = Some (Z.of_nat i)).
        { rewrite Es. unfold iota. rewrite nth_error_map, nth_error_seq.
          apply nth_error_lt in Hi.
          destruct (Nat.ltb_spec i (length c)); [reflexivity|lia]. }
        assert (Sj : nth_error s j = Some (Z.of_nat j)).
        { rewrite Es. unfold iota. rewrite nth_error_map, nth_error_seq.
          apply nth_error_lt in Hj.
          destruct (Nat.ltb_spec j (length c)); [reflexivity|lia]. }
        apply (together_blocks (Z.of_nat (length c)) s c i j
                 (Z.of_nat i) (Z.of_nat j) x y) in T; trivial.
        -- assert (i = j) by lia. subst j.
           assert (x = y) by congruence. subst y.
           exists [x]. split; [|split; now left].
           now apply (in_map (fun item => [item]) c x).
        -- intros v Hv. rewrite Es in Hv. unfold iota in Hv.
           apply in_map_iff in Hv as (o & <- & Ho). apply in_seq in Ho. lia.
  - exists (blocks_of k s c). split; trivial.
    destruct (Z_of_nat_complete k) as [K ->]; [lia|].
    rewrite k_partitions_eval by lia. cbn [fst].
    apply (in_map (fun s0 => blocks_of (Z.of_nat K) s0 c)).
    apply rgs_ok_in_seq. now replace (length q) with K in R by lia.
Qed.

End KComplete.

Lemma k_partitions_complete_witness :
  exists p, In p (fst (k_partitions [0; 1; 2] 2))
            /\ same_partition p [[1]; [2; 0]].
Proof.
  apply (k_partitions_complete Z.eq_dec [0; 1; 2] 2 [[1]; [2; 0]]).
  - repeat constructor; cbn; intuition discriminate.
  - vm_compute. split; discriminate.
  - split.
    + intros b [<-|[<-|[]]]; discriminate.
    + cbn. apply Permutation_sym.
      apply (Permutation_cons_app [1; 2] []). reflexivity.
  - reflexivity.
Defined.

(** ** No bipartition or tripartition of distinct elements is repeated *)

Lemma mapM_NoDup {X W} (f : X -> option W) l : forall r,
  NoDup l ->
  (forall x x' y, In x l -> In x' l -> f x = Some y -> f x' = Some y ->
                  x = x') ->
  Py.mapM f l = Some r -> NoDup r.
Proof.
  induction l as [|x l IH]; intros r ND Inj H; cbn [Py.mapM] in H.
  - injection H as <-. constructor.
  - destruct (f x) as [y|] eqn:E; [|discriminate].
    destruct (Py.mapM f l) as [r0|] eqn:E0; [|discriminate].
    injection H as <-. inversion ND as [|? ? Hx ND']; subst. constructor.
    + intros Hy. destruct (mapM_in _ _ _ _ E0 Hy) as (x' & Hx' & E').
      assert (x = x') by (apply (Inj x x' y); cbn; auto).
      subst x'. contradiction.
    + apply IH; trivial. intros a a' b Ha Ha'. apply Inj; now right.
Qed.

Lemma pick_inj {A} (seq : list A) : forall idx idx' r,
  NoDup seq ->
  (forall i, In i idx -> 0 <= i) -> (forall i, In i idx' -> 0 <= i) ->
  pick seq idx = Some r -> pick seq idx' = Some r -> idx = idx'.
Proof.
  unfold pick. induction idx as [|i idx IH]; intros idx' r ND H0 H0' H H'.
  - cbn in H. injection H as <-. destruct idx' as [|i' idx']; trivial.
    cbn in H'. destruct (Py.getitem seq i'); [|discriminate].
    destruct (Py.mapM (Py.getitem seq) idx'); discriminate.
  - cbn [Py.mapM] in H. destruct (Py.getitem seq i) as [x|] eqn:E;
      [|discriminate].
    destruct (Py.mapM (Py.getitem seq) idx) as [r0|] eqn:E0; [|discriminate].
    injection H as <-. destruct idx' as [|i' idx']; [discriminate|].
    cbn [Py.mapM] in H'. destruct (Py.getitem seq i') as [x'|] eqn:E';
      [|discriminate].
    destruct (Py.mapM (Py.getitem seq) idx') as [r0'|] eqn:E0';
      [|discriminate].
    injection H' as -> ->. f_equal.
    + pose proof (H0 i (or_introl eq_refl)) as Hi.
      pose proof (H0' i' (or_introl eq_refl)) as Hi'.
      rewrite getitem_nonneg in E, E' by lia.
      assert (Z.to_nat i = Z.to_nat i'); [|lia].
      apply (proj1 (NoDup_nth_error seq) ND); [|congruence].
      apply nth_error_Some. congruence.
    + apply (IH idx' r0); trivial.
      * intros j Hj. apply H0. now right.
      * intros j Hj. apply H0'. now right.
Qed.

Lemma NoDup_tl {X} (l : list X) : NoDup l -> NoDup (tl l).
Proof. intros H. destruct l; trivial. now inversion H. Qed.

Lemma NoDup_removelast {X} (l : list X) : NoDup l -> NoDup (removelast l).
Proof.
  intros H. destruct l as [|x l]; trivial.
  rewrite (app_removelast_last x (l := x :: l)) in H by discriminate.
  now apply NoDup_app_remove_r in H.
Qed.

(** X29 ([bipartition], [directed_bipartition], [directed_tripartition]):
    for a sequence of distinct elements no result is repeated, with or
    without [nontrivial]. *)
Theorem sequence_partitions_NoDup {A} (seq : list A) :
  NoDup seq ->
  (forall nontrivial bs, bipartition seq nontrivial = Some bs -> NoDup bs)
  /\ (forall nontrivial ds,
        directed_bipartition seq nontrivial = Some ds -> NoDup ds)
  /\ (forall ts, directed_tripartition seq = Some ts -> NoDup ts).
Proof.
  intros ND.
  assert (I2 : forall L,
             (forall p i, In p L -> In i (fst p) \/ In i (snd p) -> 0 <= i) ->
             forall p p' q, In p L -> In p' L ->
               pick2 seq p = Some q -> pick2 seq p' = Some q -> p = p').
  { intros L HL [a b] [a' b'] q Hp Hp' H H'. unfold pick2 in H, H'.
    cbn [fst snd] in H, H'.
    destruct (pick seq a) as [ra|] eqn:Ea; [|discriminate].
    destruct (pick seq b) as [rb|] eqn:Eb; [|discriminate].
    destruct (pick seq a') as [ra'|] eqn:Ea'; [|discriminate].
    destruct (pick seq b') as [rb'|] eqn:Eb'; [|discriminate].
    injection H as <-. injection H' as E1 E2. subst ra' rb'.
    f_equal.
    - apply (pick_inj seq a a' ra); trivial; intros i Hi.
      + apply (HL (a, b)); cbn; auto.
      + apply (HL (a', b')); cbn; auto.
    - apply (pick_inj seq b b' rb); trivial; intros i Hi.
      + apply (HL (a, b)); cbn; auto.
      + apply (HL (a', b')); cbn; auto. }
  split; [|split].
  - intros nontrivial bs H. unfold bipartition in H.
    destruct (Py.mapM (pick2 seq) (bipartition_indices (Py.len seq)))
      as [l|] eqn:E; [|discriminate].
    assert (NoDup l).
    { apply (mapM_NoDup _ _ _ (bipartition_indices_NoDup _)) in E; trivial.
      apply I2. intros p i Hp Hi.
      apply (bipartition_indices_range _ _ _ Hp Hi). }
    injection H as <-. destruct nontrivial; trivial. now apply NoDup_tl.
  - intros nontrivial ds H. unfold directed_bipartition in H.
    destruct (Py.mapM (pick2 seq) (directed_bipartition_indices (Py.len seq)))
      as [l|] eqn:E; [|discriminate].
    assert (NoDup l).
    { apply (mapM_NoDup _ _ _ (directed_bipartition_indices_NoDup _)) in E;
        trivial.
      apply I2. intros p i Hp Hi.
      apply (directed_bipartition_indices_range _ _ _ Hp Hi). }
    injection H as <-. destruct nontrivial; trivial.
    now apply NoDup_removelast, NoDup_tl.
  - intros ts H. unfold directed_tripartition in H.
    apply (mapM_NoDup _ _ _ (directed_tripartition_indices_NoDup _)) in H;
      trivial.
    intros [[a b] c] [[a' b'] c'] q Ht Ht' H1 H2. cbn [pick3] in H1, H2.
    destruct (pick seq a) as [ra|] eqn:Ea; [|discriminate].
    destruct (pick seq b) as [rb|] eqn:Eb; [|discriminate].
    destruct (pick seq c) as [rc|] eqn:Ec; [|discriminate].
    destruct (pick seq a') as [ra'|] eqn:Ea'; [|discriminate].
    destruct (pick seq b') as [rb'|] eqn:Eb'; [|discriminate].
    destruct (pick seq c') as [rc'|] eqn:Ec'; [|discriminate].
    injection H1 as <-. injection H2 as E1 E2 E3. subst ra' rb' rc'.
    assert (R : forall i, In i (tri_all (a, b, c)) -> 0 <= i)
      by (intros i Hi; apply (directed_tripartition_indices_range _ _ _ Ht Hi)).
    assert (R' : forall i, In i (tri_all (a', b', c')) -> 0 <= i)
      by (intros i Hi;
          apply (directed_tripartition_indices_range _ _ _ Ht' Hi)).
    cbn [tri_all] in R, R'.
    f_equal; [f_equal|].
    + apply (pick_inj seq a a' ra); trivial; intros i Hi;
        [apply R|apply R']; rewrite !in_app_iff; tauto.
    + apply (pick_inj seq b b' rb); trivial; intros i Hi;
        [apply R|apply R']; rewrite !in_app_iff; tauto.
    + apply (pick_inj seq c c' rc); trivial; intros i Hi;
        [apply R|apply R']; rewrite !in_app_iff; tauto.
Qed.

Lemma sequence_partitions_NoDup_witness :
  NoDup [([], [2; 5]); ([2], [5])].
Proof.
  assert (ND : NoDup [2; 5])
    by (repeat constructor; cbn; intuition discriminate).
  apply (proj1 (sequence_partitions_NoDup [2; 5] ND) false). reflexivity.
Defined.

(** ** What the "TRI" scheme yields *)

Lemma wedge_fold_in normalize l : forall yielded out,
  (forall t, In t yielded <-> In t out) ->
  forall t,
    In t (snd (fold_left (wedge_step normalize) l (yielded, out))) <->
    In t out
    \/ exists nd, In nd l /\ t = mk_tripartition normalize nd
                  /\ compressible t = false.
Proof.
  induction l as [|nd l IH]; intros yielded out Hy t; cbn [fold_left].
  - cbn. split; [tauto|]. intros [H|(nd & [] & _)]; trivial.
  - unfold wedge_step at 2.
    set (u := mk_tripartition normalize nd).
    destruct (compressible u) eqn:Ec; cbn [negb andb].
    + rewrite (IH yielded out Hy). split.
      * intros [H|(nd' & H1 & H2)]; [now left|].
        right. exists nd'. split; [now right|trivial].
      * intros [H|(nd' & [<-|H1] & H2 & H3)]; [now left| |].
        -- subst t. fold u in H3. congruence.
        -- right. eauto.
    + destruct (in_dec Tripartition_eq_dec u yielded) as [Hin|Hin];
        cbn [negb].
      * rewrite (IH yielded out Hy). split.
        -- intros [H|(nd' & H1 & H2)]; [now left|].
           right. exists nd'. split; [now right|trivial].
        -- intros [H|(nd' & [<-|H1] & H2 & H3)]; [now left| |].
           ++ left. subst t. fold u. now apply Hy.
           ++ right. eauto.
      * rewrite (IH (u :: yielded) (out ++ [u])).
        -- rewrite in_app_iff. cbn [In]. split.
           ++ intros [[H|[<-|[]]]|(nd' & H1 & H2)]; [now left| |].
              ** right. exists nd. split; [now left|]. now split.
              ** right. exists nd'. split; [now right|trivial].
           ++ intros [H|(nd' & [<-|H1] & H2 & H3)]; [tauto| |].
              ** left. right. left. now subst t.
              ** right. eauto.
        -- intros v. cbn [In]. rewrite in_app_iff, Hy. cbn [In]. tauto.
Qed.

(** X30 ([wedge_partitions]): the "TRI" scheme raises nothing, and the
    tripartitions it yields are exactly the normal forms of the valid
    pairings of a mechanism bipartition with a directed purview
    tripartition that are not compressible; this holds for every
    [normalize]. *)
Theorem wedge_partitions_yields (normalize : Tripartition -> Tripartition)
  (m p : list Z) :
  exists ns ds out,
    bipartition m false = Some ns
    /\ directed_tripartition p = Some ds
    /\ wedge_partitions normalize m p = Some out
    /\ forall t,
         In t out <->
         exists nd, In nd (list_prod ns ds) /\ valid nd = true
                    /\ t = mk_tripartition normalize nd
                    /\ compressible t = false.
Proof.
  destruct (bipartition_total m false) as [ns Hns].
  destruct (directed_tripartition_total p) as [ds Hds].
  exists ns, ds. unfold wedge_partitions. rewrite Hns, Hds.
  eexists. split; trivial. split; trivial. split; [reflexivity|].
  intros t. rewrite (wedge_fold_in normalize _ [] []) by tauto.
  cbn [In]. split.
  - intros [[]|(nd & H & E & C)]. apply filter_In in H as [H V].
    exists nd. tauto.
  - intros (nd & H & V & E & C). right. exists nd.
    split; [apply filter_In; tauto|tauto].
Qed.

(** * Determinism of the enumerations *)









